(** * rocFFT: client parameter container, kernel generators, RTC cache, test input

    A shallow embedding of the parts of the repository that the specification
    talks about, with the properties of the specification stated and proved
    (or refuted) on that embedding.

    Conventions.
    - [size_t] and [unsigned int] values are integers in [Z]; every arithmetic
      operation of the source is followed by the wrap-around of its type
      ([sz] for 64 bits, [u32] for 32 bits).
    - A [std::vector] is a [list]; an access outside of the vector, which is
      undefined behaviour in the source, makes the embedded function return
      [None].
    - A C++ exception is the [Throw] constructor of [result].
    - The host buffers of the tests are finite maps from the index of a
      floating-point value to that value, read and written without bounds. *)

From Stdlib Require Import ZArith Lia List Bool String SpecFloat Sorted.
From stdpp Require Import base tactics option list numbers strings pretty gmap.

Local Open Scope Z_scope.

(** ** Machine integers *)

Definition sz (z : Z) : Z := z mod 2 ^ 64.
Definition u32 (z : Z) : Z := z mod 2 ^ 32.

Definition is_sz (z : Z) : Prop := 0 <= z < 2 ^ 64.
Definition is_u32 (z : Z) : Prop := 0 <= z < 2 ^ 32.

(** Vector access [v[i]] with a [Z] index. *)
Definition vget {A} (v : list A) (i : Z) : option A :=
  if decide (0 <= i) then v !! Z.to_nat i else None.

(** Vector store [v[i] = x]. *)
Definition vset {A} (v : list A) (i : Z) (x : A) : option (list A) :=
  if decide (0 <= i < Z.of_nat (length v)) then Some (<[Z.to_nat i := x]> v)
  else None.

Definition vsize {A} (v : list A) : Z := Z.of_nat (length v).

(** The product of the elements of a vector. *)
Fixpoint list_prod (v : list Z) : Z :=
  match v with
  | [] => 1
  | x :: rest => x * list_prod rest
  end.

(** ** Exceptions *)

(** Outcome of a function of the source that can throw: a value, an exception
    with its message, or undefined behaviour (an access outside of a vector). *)
Inductive result (A : Type) : Type :=
| Ok (a : A)
| Throw (msg : string)
| Undef.
Arguments Ok {A} a.
Arguments Throw {A} msg.
Arguments Undef {A}.

#[global] Instance result_ret : MRet result := fun A a => Ok a.
#[global] Instance result_bind : MBind result := fun A B f m =>
  match m with
  | Ok a => f a
  | Throw msg => Throw msg
  | Undef => Undef
  end.

(** An access outside of a vector is undefined behaviour. *)
Definition checked {A} (o : option A) : result A :=
  match o with
  | Some a => Ok a
  | None => Undef
  end.

(** ** The client parameter container ([clients/client_utils.h]) *)

Module Client.

(** Enumerations of [rocfft/rocfft.h]. *)
Inductive rocfft_precision := rocfft_precision_single | rocfft_precision_double.

Inductive rocfft_transform_type :=
| rocfft_transform_type_complex_forward
| rocfft_transform_type_complex_inverse
| rocfft_transform_type_real_forward
| rocfft_transform_type_real_inverse.

Inductive rocfft_result_placement :=
| rocfft_placement_inplace
| rocfft_placement_notinplace.

Inductive rocfft_array_type :=
| rocfft_array_type_complex_interleaved
| rocfft_array_type_complex_planar
| rocfft_array_type_real
| rocfft_array_type_hermitian_interleaved
| rocfft_array_type_hermitian_planar
| rocfft_array_type_unset.

#[global] Instance precision_eq_dec : EqDecision rocfft_precision.
Proof. solve_decision. Defined.
#[global] Instance transform_type_eq_dec : EqDecision rocfft_transform_type.
Proof. solve_decision. Defined.
#[global] Instance placement_eq_dec : EqDecision rocfft_result_placement.
Proof. solve_decision. Defined.
#[global] Instance array_type_eq_dec : EqDecision rocfft_array_type.
Proof. solve_decision. Defined.

(** [var_size]: [sizeof(float)] is 4 and [sizeof(double)] is 8. *)
Definition var_size (precision : rocfft_precision) (type : rocfft_array_type) : Z :=
  let var_size :=
    match precision with
    | rocfft_precision_single => 4
    | rocfft_precision_double => 8
    end in
  match type with
  | rocfft_array_type_complex_interleaved
  | rocfft_array_type_hermitian_interleaved => sz (var_size * 2)
  | _ => var_size
  end.

(** The fields of [class fft_params]; [length_] is the field [length]. *)
Record fft_params := {
  length_ : list Z;
  istride : list Z;
  ostride : list Z;
  nbatch : Z;
  precision : rocfft_precision;
  transform_type : rocfft_transform_type;
  placement : rocfft_result_placement;
  idist : Z;
  odist : Z;
  itype : rocfft_array_type;
  otype : rocfft_array_type;
  ioffset : list Z;
  ooffset : list Z;
  isize : list Z;
  osize : list Z
}.

Definition dim (p : fft_params) : Z := vsize (length_ p).

(** [v[dim() - 1] = v[dim() - 1] / 2 + 1] *)
Definition halve_last (v : list Z) : option (list Z) :=
  let i := vsize v - 1 in
  x ← vget v i; vset v i (sz (x / 2 + 1)).

Definition ilength (p : fft_params) : option (list Z) :=
  if decide (transform_type p = rocfft_transform_type_real_inverse)
  then halve_last (length_ p) else Some (length_ p).

Definition olength (p : fft_params) : option (list Z) :=
  if decide (transform_type p = rocfft_transform_type_real_forward)
  then halve_last (length_ p) else Some (length_ p).

Definition nbuffer (type : rocfft_array_type) : Z :=
  match type with
  | rocfft_array_type_real
  | rocfft_array_type_complex_interleaved
  | rocfft_array_type_hermitian_interleaved => 1
  | rocfft_array_type_complex_planar
  | rocfft_array_type_hermitian_planar => 2
  | rocfft_array_type_unset => 0
  end.

Definition nibuffer (p : fft_params) : Z := nbuffer (itype p).
Definition nobuffer (p : fft_params) : Z := nbuffer (otype p).


(** [compute_ptrdiff]: the farthest point from the original pointer. *)
Fixpoint ptrdiff_loop (length stride : list Z) (i : Z) (n : nat) (val : Z) : option Z :=
  match n with
  | O => Some val
  | S n' =>
      l ← vget length i;
      s ← vget stride i;
      ptrdiff_loop length stride (i + 1) n' (sz (val + sz (sz (l - 1) * s)))
  end.

Definition compute_ptrdiff (length stride : list Z) (nbatch dist : Z) : option Z :=
  match length with
  | [] => Some 0
  | _ =>
      val ← ptrdiff_loop length stride 0 (List.length length) 1;
      Some (sz (val + sz (sz (nbatch - 1) * dist)))
  end.

Definition with_itype (p : fft_params) (t : rocfft_array_type) : fft_params :=
  {| length_ := length_ p; istride := istride p; ostride := ostride p;
     nbatch := nbatch p; precision := precision p;
     transform_type := transform_type p; placement := placement p;
     idist := idist p; odist := odist p; itype := t; otype := otype p;
     ioffset := ioffset p; ooffset := ooffset p;
     isize := isize p; osize := osize p |}.

Definition with_otype (p : fft_params) (t : rocfft_array_type) : fft_params :=
  {| length_ := length_ p; istride := istride p; ostride := ostride p;
     nbatch := nbatch p; precision := precision p;
     transform_type := transform_type p; placement := placement p;
     idist := idist p; odist := odist p; itype := itype p; otype := t;
     ioffset := ioffset p; ooffset := ooffset p;
     isize := isize p; osize := osize p |}.

Definition with_istride (p : fft_params) (s : list Z) : fft_params :=
  {| length_ := length_ p; istride := s; ostride := ostride p;
     nbatch := nbatch p; precision := precision p;
     transform_type := transform_type p; placement := placement p;
     idist := idist p; odist := odist p; itype := itype p; otype := otype p;
     ioffset := ioffset p; ooffset := ooffset p;
     isize := isize p; osize := osize p |}.

Definition with_ostride (p : fft_params) (s : list Z) : fft_params :=
  {| length_ := length_ p; istride := istride p; ostride := s;
     nbatch := nbatch p; precision := precision p;
     transform_type := transform_type p; placement := placement p;
     idist := idist p; odist := odist p; itype := itype p; otype := otype p;
     ioffset := ioffset p; ooffset := ooffset p;
     isize := isize p; osize := osize p |}.

Definition with_idist (p : fft_params) (d : Z) : fft_params :=
  {| length_ := length_ p; istride := istride p; ostride := ostride p;
     nbatch := nbatch p; precision := precision p;
     transform_type := transform_type p; placement := placement p;
     idist := d; odist := odist p; itype := itype p; otype := otype p;
     ioffset := ioffset p; ooffset := ooffset p;
     isize := isize p; osize := osize p |}.

Definition with_odist (p : fft_params) (d : Z) : fft_params :=
  {| length_ := length_ p; istride := istride p; ostride := ostride p;
     nbatch := nbatch p; precision := precision p;
     transform_type := transform_type p; placement := placement p;
     idist := idist p; odist := d; itype := itype p; otype := otype p;
     ioffset := ioffset p; ooffset := ooffset p;
     isize := isize p; osize := osize p |}.

Definition with_isize (p : fft_params) (s : list Z) : fft_params :=
  {| length_ := length_ p; istride := istride p; ostride := ostride p;
     nbatch := nbatch p; precision := precision p;
     transform_type := transform_type p; placement := placement p;
     idist := idist p; odist := odist p; itype := itype p; otype := otype p;
     ioffset := ioffset p; ooffset := ooffset p;
     isize := s; osize := osize p |}.

Definition with_osize (p : fft_params) (s : list Z) : fft_params :=
  {| length_ := length_ p; istride := istride p; ostride := ostride p;
     nbatch := nbatch p; precision := precision p;
     transform_type := transform_type p; placement := placement p;
     idist := idist p; odist := odist p; itype := itype p; otype := otype p;
     ioffset := ioffset p; ooffset := ooffset p;
     isize := isize p; osize := s |}.

(** [set_iotypes]: the [default] branches, which throw, are not reachable from
    a value of the enumeration. *)
Definition set_iotypes (p : fft_params) : fft_params :=
  let p :=
    if decide (itype p = rocfft_array_type_unset) then
      with_itype p
        match transform_type p with
        | rocfft_transform_type_complex_forward
        | rocfft_transform_type_complex_inverse => rocfft_array_type_complex_interleaved
        | rocfft_transform_type_real_forward => rocfft_array_type_real
        | rocfft_transform_type_real_inverse => rocfft_array_type_hermitian_interleaved
        end
    else p in
  if decide (otype p = rocfft_array_type_unset) then
    with_otype p
      match transform_type p with
      | rocfft_transform_type_complex_forward
      | rocfft_transform_type_complex_inverse => rocfft_array_type_complex_interleaved
      | rocfft_transform_type_real_forward => rocfft_array_type_hermitian_interleaved
      | rocfft_transform_type_real_inverse => rocfft_array_type_real
      end
  else p.

Definition is_real_transform (t : rocfft_transform_type) : bool :=
  match t with
  | rocfft_transform_type_real_forward | rocfft_transform_type_real_inverse => true
  | _ => false
  end.

Definition is_complex_transform (t : rocfft_transform_type) : bool :=
  match t with
  | rocfft_transform_type_complex_forward | rocfft_transform_type_complex_inverse => true
  | _ => false
  end.

(** [check_iotypes]: are the input and output types consistent? *)
Definition check_iotypes (p : fft_params) : result bool :=
  if decide (itype p = rocfft_array_type_unset)
  then Throw "Invalid Input array type format"
  else if decide (otype p = rocfft_array_type_unset)
  then Throw "Invalid Input array type format"
  else if negb (is_real_transform (transform_type p))
          && bool_decide (placement p = rocfft_placement_inplace)
          && negb (bool_decide (itype p = otype p))
  then Throw "In-place transforms must have identical input and output types"
  else
    match itype p with
    | rocfft_array_type_complex_interleaved
    | rocfft_array_type_complex_planar =>
        Ok (bool_decide (otype p = rocfft_array_type_complex_interleaved)
            || bool_decide (otype p = rocfft_array_type_complex_planar))
    | rocfft_array_type_hermitian_interleaved
    | rocfft_array_type_hermitian_planar =>
        Ok (bool_decide (otype p = rocfft_array_type_real))
    | rocfft_array_type_real =>
        Ok (bool_decide (otype p = rocfft_array_type_hermitian_interleaved)
            || bool_decide (otype p = rocfft_array_type_hermitian_planar))
    | rocfft_array_type_unset => Throw "Invalid Input array type format"
    end.

(** [compute_stride]: copy of the given trailing strides,
    [stride[dim - stride0.size() + i] = stride0[i]]. *)
Fixpoint copy_stride0 (stride stride0 : list Z) (at_ : Z) : option (list Z) :=
  match stride0 with
  | [] => Some stride
  | s :: rest => stride' ← vset stride at_ s; copy_stride0 stride' rest (at_ + 1)
  end.

(** [compute_stride]: the loop [for(int i = start; i-- > 0;)], whose body runs
    for [i = start - 1] down to [0]. *)
Fixpoint stride_loop (start : nat) (length stride : list Z) (dim : Z) (rcpadding : bool)
  : option (list Z) :=
  match start with
  | O => Some stride
  | S i =>
      lengthip1 ← vget length (Z.of_nat i + 1);
      let lengthip1 :=
        if rcpadding && (Z.of_nat i =? dim - 2)
        then sz (2 * sz (lengthip1 / 2 + 1)) else lengthip1 in
      s ← vget stride (Z.of_nat i + 1);
      stride' ← vset stride (Z.of_nat i) (sz (s * lengthip1));
      stride_loop i length stride' dim rcpadding
  end.

(** [compute_stride]: given a length vector, set the rest of the strides
    (row-major).  [stride0] holds the strides that are already known. *)
Definition compute_stride (length stride0 : list Z) (rcpadding : bool) : option (list Z) :=
  let dim := vsize length in
  let stride := replicate (List.length length) 0 in
  '(stride, dimoffset) ←
    (if decide (vsize stride0 = 0)
     then stride' ← vset stride (dim - 1) 1; Some (stride', 1)
     else stride' ← copy_stride0 stride stride0 (dim - vsize stride0); Some (stride', 0));
  if decide (vsize stride0 < dim)
  then stride_loop (Z.to_nat (dim - dimoffset - vsize stride0)) length stride dim rcpadding
  else Some stride.

Definition compute_istride (p : fft_params) : option fft_params :=
  il ← ilength p;
  s ← compute_stride il (istride p)
        (bool_decide (placement p = rocfft_placement_inplace)
         && bool_decide (transform_type p = rocfft_transform_type_real_forward));
  Some (with_istride p s).

Definition compute_ostride (p : fft_params) : option fft_params :=
  ol ← olength p;
  s ← compute_stride ol (ostride p)
        (bool_decide (placement p = rocfft_placement_inplace)
         && bool_decide (transform_type p = rocfft_transform_type_real_inverse));
  Some (with_ostride p s).

(** [size[i] = val + offset[i]] for [i] below [n]. *)
Fixpoint add_offsets (val : Z) (offset : list Z) (i : Z) (n : nat) : option (list Z) :=
  match n with
  | O => Some []
  | S n' =>
      o ← vget offset i;
      rest ← add_offsets val offset (i + 1) n';
      Some (sz (val + o) :: rest)
  end.

Definition compute_isize (p : fft_params) : option fft_params :=
  il ← ilength p;
  val ← compute_ptrdiff il (istride p) (nbatch p) (idist p);
  s ← add_offsets val (ioffset p) 0 (Z.to_nat (nibuffer p));
  Some (with_isize p s).

Definition compute_osize (p : fft_params) : option fft_params :=
  ol ← olength p;
  val ← compute_ptrdiff ol (ostride p) (nbatch p) (odist p);
  s ← add_offsets val (ooffset p) 0 (Z.to_nat (nobuffer p));
  Some (with_osize p s).

(** [sizes[i] = size[i] * var_size] for [i] below [n]. *)
Fixpoint scale_sizes (size : list Z) (vs : Z) (i : Z) (n : nat) : option (list Z) :=
  match n with
  | O => Some []
  | S n' =>
      s ← vget size i;
      rest ← scale_sizes size vs (i + 1) n';
      Some (sz (s * vs) :: rest)
  end.

Definition is_planar (t : rocfft_array_type) : bool :=
  match t with
  | rocfft_array_type_complex_planar | rocfft_array_type_hermitian_planar => true
  | _ => false
  end.

Definition obuffer_sizes (p : fft_params) : option (list Z) :=
  match osize p with
  | [] => Some []
  | _ =>
      scale_sizes (osize p) (var_size (precision p) (otype p)) 0
        (if is_planar (otype p) then 2%nat else 1%nat)
  end.

Definition ibuffer_sizes (p : fft_params) : option (list Z) :=
  if bool_decide (placement p = rocfft_placement_inplace)
     && bool_decide (transform_type p = rocfft_transform_type_real_forward)
  then obuffer_sizes p
  else
    match isize p with
    | [] => Some []
    | _ =>
        scale_sizes (isize p) (var_size (precision p) (itype p)) 0
          (if is_planar (itype p) then 2%nat else 1%nat)
    end.

(** [dist = std::max(length[i] * stride[i], dist)] for [i] below [n]. *)
Fixpoint max_dist (length stride : list Z) (i : Z) (n : nat) (dist : Z) : option Z :=
  match n with
  | O => Some dist
  | S n' =>
      l ← vget length i;
      s ← vget stride i;
      max_dist length stride (i + 1) n' (Z.max (sz (l * s)) dist)
  end.

(** [set_idist]: the distance between the batches of the input. *)
Definition set_idist (p : fft_params) : option fft_params :=
  if decide (idist p ≠ 0) then Some p
  else
    let dim := vsize (length_ p) in
    if bool_decide (transform_type p = rocfft_transform_type_real_forward)
       && bool_decide (dim = 1)
       && bool_decide (placement p = rocfft_placement_inplace)
    then
      l ← vget (length_ p) 0; s ← vget (istride p) 0;
      Some (with_idist p (sz (sz (2 * sz (l / 2 + 1)) * s)))
    else if bool_decide (transform_type p = rocfft_transform_type_real_inverse)
            && bool_decide (dim = 1)
    then
      l ← vget (length_ p) 0; s ← vget (istride p) 0;
      Some (with_idist p (sz (sz (l / 2 + 1) * s)))
    else
      l ← vget (length_ p) (dim - 1); s ← vget (istride p) (dim - 1);
      let d :=
        if bool_decide (transform_type p = rocfft_transform_type_real_inverse)
        then sz (sz (l / 2 + 1) * s) else sz (l * s) in
      d ← max_dist (length_ p) (istride p) 0 (Z.to_nat (dim - 1)) d;
      Some (with_idist p d).

(** [set_odist]: the distance between the batches of the output. *)
Definition set_odist (p : fft_params) : option fft_params :=
  if decide (odist p ≠ 0) then Some p
  else
    let dim := vsize (length_ p) in
    if bool_decide (transform_type p = rocfft_transform_type_real_inverse)
       && bool_decide (dim = 1)
       && bool_decide (placement p = rocfft_placement_inplace)
    then
      l ← vget (length_ p) 0; s ← vget (ostride p) 0;
      Some (with_odist p (sz (sz (2 * sz (l / 2 + 1)) * s)))
    else if bool_decide (transform_type p = rocfft_transform_type_real_forward)
            && bool_decide (dim = 1)
    then
      l ← vget (length_ p) 0; s ← vget (ostride p) 0;
      Some (with_odist p (sz (sz (l / 2 + 1) * s)))
    else
      l ← vget (length_ p) (dim - 1); s ← vget (ostride p) (dim - 1);
      let d :=
        if bool_decide (transform_type p = rocfft_transform_type_real_forward)
        then sz (sz (l / 2 + 1) * s) else sz (l * s) in
      d ← max_dist (length_ p) (ostride p) 0 (Z.to_nat (dim - 1)) d;
      Some (with_odist p d).

(** [valid]: the loop that compares the common prefix of the strides. *)
Fixpoint samestride_loop (istride ostride : list Z) (i : Z) (n : nat) (same : bool)
  : option bool :=
  match n with
  | O => Some same
  | S n' =>
      a ← vget istride i;
      b ← vget ostride i;
      samestride_loop istride ostride (i + 1) n' (if decide (a ≠ b) then false else same)
  end.

(** [valid]: the loop over the offsets of a complex transform; [Some false]
    is the early [return false]. *)
Fixpoint same_offsets (ioffset ooffset : list Z) (i : Z) (n : nat) : option bool :=
  match n with
  | O => Some true
  | S n' =>
      a ← vget ioffset i;
      b ← vget ooffset i;
      if decide (a ≠ b) then Some false else same_offsets ioffset ooffset (i + 1) n'
  end.

Definition vback (v : list Z) : option Z := vget v (vsize v - 1).

(** The check of the in-place offsets in [valid]; [true] lets the function go on. *)
Definition valid_offsets (p : fft_params) : option bool :=
  match transform_type p with
  | rocfft_transform_type_complex_forward
  | rocfft_transform_type_complex_inverse =>
      same_offsets (ioffset p) (ooffset p) 0 (Z.to_nat (nibuffer p))
  | rocfft_transform_type_real_forward =>
      i0 ← vget (ioffset p) 0; o0 ← vget (ooffset p) 0;
      Some (negb (bool_decide (i0 ≠ sz (2 * o0))))
  | rocfft_transform_type_real_inverse =>
      i0 ← vget (ioffset p) 0; o0 ← vget (ooffset p) 0;
      Some (negb (bool_decide (sz (2 * i0) ≠ o0)))
  end.

(** The in-place checks of [valid]; [true] lets the function go on. *)
Definition valid_inplace (p : fft_params) : option bool :=
  let stridesize := Z.min (vsize (istride p)) (vsize (ostride p)) in
  samestride ← samestride_loop (istride p) (ostride p) 0 (Z.to_nat stridesize) true;
  if is_complex_transform (transform_type p) && negb samestride then Some false
  else if is_complex_transform (transform_type p) && bool_decide (idist p ≠ odist p)
  then Some false
  else
    unit_strides ←
      (if is_real_transform (transform_type p) then
         ib ← vback (istride p);
         if decide (ib ≠ 1) then Some false
         else ob ← vback (ostride p); Some (bool_decide (ob = 1))
       else Some true);
    if negb unit_strides then Some false
    else if (bool_decide (itype p = rocfft_array_type_complex_interleaved)
             && bool_decide (otype p = rocfft_array_type_complex_planar))
            || (bool_decide (itype p = rocfft_array_type_complex_planar)
                && bool_decide (otype p = rocfft_array_type_complex_interleaved))
    then Some false
    else valid_offsets p.

(** [valid]: would the parameters produce a valid transform?  The messages that
    the source prints when [verbose] is set are not part of the result. *)
Definition valid (p : fft_params) (verbose : Z) : result bool :=
  if bool_decide (vsize (ioffset p) < nibuffer p)
     || bool_decide (vsize (ooffset p) < nobuffer p)
  then Ok false
  else
    go_on ←
      (if decide (placement p = rocfft_placement_inplace)
       then checked (valid_inplace p) else Ok true);
    if negb go_on then Ok false
    else
      ok ← check_iotypes p;
      if negb ok then Ok false else Ok true.

(** [validate]: fill in any missing parameters. *)
Definition validate (p : fft_params) : option fft_params :=
  let p := set_iotypes p in
  p ← compute_istride p;
  p ← compute_ostride p;
  p ← set_idist p;
  p ← set_odist p;
  p ← compute_isize p;
  compute_osize p.

(** *** Notions used to state the properties of the container *)




(** The length that the loop of [compute_stride] multiplies into the stride
    of axis [i]. *)
Definition lengthip1_of (rcpadding : bool) (dim : Z) (i : nat) (l : Z) : Z :=
  if rcpadding && (Z.of_nat i =? dim - 2) then sz (2 * sz (l / 2 + 1)) else l.


(** A real forward in-place request of length 8 with three batches, before
    and after [validate]. *)
Definition params_r2c_8 : fft_params :=
  {| length_ := [8]; istride := []; ostride := []; nbatch := 3;
     precision := rocfft_precision_double;
     transform_type := rocfft_transform_type_real_forward;
     placement := rocfft_placement_inplace;
     idist := 0; odist := 0;
     itype := rocfft_array_type_unset; otype := rocfft_array_type_unset;
     ioffset := [0; 0]; ooffset := [0; 0]; isize := []; osize := [] |}.

Definition params_r2c_8_validated : fft_params :=
  {| length_ := [8]; istride := [1]; ostride := [1]; nbatch := 3;
     precision := rocfft_precision_double;
     transform_type := rocfft_transform_type_real_forward;
     placement := rocfft_placement_inplace;
     idist := 10; odist := 5;
     itype := rocfft_array_type_real; otype := rocfft_array_type_hermitian_interleaved;
     ioffset := [0; 0]; ooffset := [0; 0]; isize := [28]; osize := [15] |}.

(** A real forward in-place request of rank 3 with unspecified strides. *)
Definition params_r2c_3d : fft_params :=
  {| length_ := [4; 5; 6]; istride := []; ostride := []; nbatch := 1;
     precision := rocfft_precision_single;
     transform_type := rocfft_transform_type_real_forward;
     placement := rocfft_placement_inplace;
     idist := 0; odist := 0;
     itype := rocfft_array_type_real; otype := rocfft_array_type_hermitian_interleaved;
     ioffset := [0; 0]; ooffset := [0; 0]; isize := []; osize := [] |}.

(** *** Further notions used to state the properties of the container *)

Definition is_complex_type (t : rocfft_array_type) : bool :=
  match t with
  | rocfft_array_type_complex_interleaved | rocfft_array_type_complex_planar => true
  | _ => false
  end.

Definition is_hermitian_type (t : rocfft_array_type) : bool :=
  match t with
  | rocfft_array_type_hermitian_interleaved | rocfft_array_type_hermitian_planar => true
  | _ => false
  end.

(** An input type and an output type that go together: both complex, or a
    Hermitian input with a real output, or a real input with a Hermitian
    output. *)
Definition compatible_types (i o : rocfft_array_type) : Prop :=
  (is_complex_type i = true ∧ is_complex_type o = true) ∨
  (is_hermitian_type i = true ∧ o = rocfft_array_type_real) ∨
  (i = rocfft_array_type_real ∧ is_hermitian_type o = true).

(** [sizeof] of the real type of a precision. *)
Definition real_size (precision : rocfft_precision) : Z :=
  match precision with
  | rocfft_precision_single => 4
  | rocfft_precision_double => 8
  end.

(** The linear index of an index vector: the sum of the products of the
    indices and the strides. *)
Fixpoint dot (index stride : list Z) : Z :=
  match index, stride with
  | i :: index, s :: stride => i * s + dot index stride
  | _, _ => 0
  end.

End Client.
(** ** The kernel of the first generator ([library/src/device/generator/generator.kernel.hpp]) *)

Module KernelGen.

(** A record of the radix table ([radix_table.h], outside of the sources at
    hand); [length_] is the field [length]. *)
Record SpecRecord := {
  length_ : Z;
  workGroupSize : Z;
  numTransforms : Z;
  numPasses : Z;
  radices : list Z
}.

(** [KernelCoreSpecs::GetRadices]: the radices of the first record of the
    table with the given length, or no radix. *)
Fixpoint GetRadices (specRecord : list SpecRecord) (length : Z) : list Z :=
  match specRecord with
  | [] => []
  | r :: rest =>
      if length =? length_ r then take (Z.to_nat (numPasses r)) (radices r)
      else GetRadices rest length
  end.

(** What is kept of a [Pass] object: its position, its radix, and the
    values [L], [LS] and [R] of the breakdown at that pass. *)
Record Pass := {
  position : Z;
  radix : Z;
  pass_L : Z;
  pass_LS : Z;
  pass_R : Z
}.

(** The result of the breakdown into passes: [numPasses], the local vector
    [radices] and the vector [passes]. *)
Record Breakdown := {
  b_numPasses : Z;
  b_radices : list Z;
  b_passes : list Pass
}.

(** The constructor returns, stops at an [assert] that fails, or has not
    returned within the given number of iterations of [while(true)]. *)
Inductive outcome (A : Type) : Type :=
| Returned (a : A)
| Aborted
| OutOfFuel.
Arguments Returned {A} a.
Arguments Aborted {A}.
Arguments OutOfFuel {A}.

(** [assert(c)]; nothing when [NDEBUG] is defined. *)
Definition assert {A} (ndebug c : bool) (k : outcome A) : outcome A :=
  if ndebug || c then k else Aborted.

(** The possible radices, in descending order. *)
Definition cRad : list Z := [13; 11; 10; 8; 7; 6; 5; 4; 3; 2; 1].

(** The loop [for(size_t r = 0; r < cRadSize; r++)] that picks a radix; [rad]
    is the variable of that name, which keeps the last candidate when the
    loop ends without [break]. *)
Fixpoint pick_radix (cnPerWI R : Z) (candidates : list Z) (rad : Z) : Z :=
  match candidates with
  | [] => rad
  | c :: rest =>
      if (cnPerWI <? c) || negb (cnPerWI mod c =? 0) then pick_radix cnPerWI R rest c
      else if R mod c =? 0 then c
      else pick_radix cnPerWI R rest c
  end.

(** The test that a candidate passes in the loop of [pick_radix]. *)
Definition picks (cnPerWI R c : Z) : bool :=
  negb ((cnPerWI <? c) || negb (cnPerWI mod c =? 0)) && (R mod c =? 0).

(** The passes of the table: the loop [for(size_t i = 0; i < nPasses; i++)]. *)
Fixpoint table_passes (radices : list Z) (i LS R : Z) : list Pass * Z :=
  match radices with
  | [] => ([], R)
  | rad :: rest =>
      let L := sz (LS * rad) in
      let R := R / rad in
      let '(passes, R') := table_passes rest (i + 1) (sz (LS * rad)) R in
      ({| position := i; radix := rad; pass_L := L; pass_LS := LS; pass_R := R |} :: passes, R')
  end.

(** The loop [while(true)] that generates the radices and the passes. *)
Fixpoint generate_passes (ndebug : bool) (fuel : nat) (cnPerWI pid LS R : Z)
    (radices : list Z) (passes : list Pass) : outcome Breakdown :=
  match fuel with
  | O => OutOfFuel
  | S fuel =>
      let rad := pick_radix cnPerWI R cRad 0 in
      assert ndebug (cnPerWI mod rad =? 0)
        (let L := sz (LS * rad) in
         let R := R / rad in
         let radices := radices ++ [rad] in
         let passes :=
           passes ++ [{| position := pid; radix := rad;
                         pass_L := L; pass_LS := LS; pass_R := R |}] in
         let pid := sz (pid + 1) in
         let LS := sz (LS * rad) in
         assert ndebug (1 <=? R)
           (if R =? 1
            then Returned {| b_numPasses := pid; b_radices := radices; b_passes := passes |}
            else generate_passes ndebug fuel cnPerWI pid LS R radices passes))
  end.

(** The breakdown into passes of the constructor [Kernel], from the radices of
    the lookup table to the two assertions on [numPasses].  A division by
    zero, which is undefined in the source, follows [Z.div]. *)
Definition breakdown (specRecord : list SpecRecord) (ndebug : bool) (fuel : nat)
    (fft_MaxWorkGroupSize length cnPerWI : Z) : outcome Breakdown :=
  let radices := GetRadices specRecord length in
  let nPasses := vsize radices in
  let check (b : Breakdown) : outcome Breakdown :=
    assert ndebug (b_numPasses b =? vsize (b_passes b))
      (assert ndebug (b_numPasses b =? vsize (b_radices b)) (Returned b)) in
  if (256 <=? fft_MaxWorkGroupSize) && negb (nPasses =? 0) then
    let '(passes, R) := table_passes radices 0 1 length in
    assert ndebug (R =? 1)
      (check {| b_numPasses := nPasses; b_radices := radices; b_passes := passes |})
  else
    match generate_passes ndebug fuel cnPerWI 0 1 length radices [] with
    | Returned b => check b
    | o => o
    end.

(** The parameters of [FFTKernelGenKeyParams] that the breakdown depends on. *)
Record FFTKernelGenKeyParams := {
  fft_N0 : Z;
  fft_workGroupSize : Z;
  fft_numTrans : Z;
  fft_MaxWorkGroupSize : Z;
  blockCompute : bool
}.

(** The constructor [Kernel] up to the breakdown into passes: [cnPerWI] with
    its assertions, then the breakdown. *)
Definition Kernel_new (specRecord : list SpecRecord) (ndebug : bool) (fuel : nat)
    (params : FFTKernelGenKeyParams) : outcome (Z * Breakdown) :=
  let length := fft_N0 params in
  let workGroupSize := fft_workGroupSize params in
  let numTrans := fft_numTrans params in
  assert ndebug (negb (blockCompute params) || (length <=? 256))
    (assert ndebug (sz (length * numTrans) mod workGroupSize =? 0)
       (let cnPerWI := sz (numTrans * length) / workGroupSize in
        assert ndebug (sz (cnPerWI * workGroupSize) =? sz (numTrans * length))
          (assert ndebug (cnPerWI <=? length)
             match breakdown specRecord ndebug fuel (fft_MaxWorkGroupSize params)
                     length cnPerWI with
             | Returned b => Returned (cnPerWI, b)
             | Aborted => Aborted
             | OutOfFuel => OutOfFuel
             end))).

(** *** Notions used to state the properties of the breakdown *)

(** [rad] is the largest radix of [candidates] that divides both the
    remaining length [R] and [cnPerWI]. *)
Definition largest_candidate (candidates : list Z) (cnPerWI R rad : Z) : Prop :=
  rad ∈ candidates ∧ Z.divide rad R ∧ Z.divide rad cnPerWI ∧
  ∀ c, c ∈ candidates -> Z.divide c R -> Z.divide c cnPerWI -> c <= rad.




(** A table with one record, for the length 16. *)
Definition table_16 : list SpecRecord :=
  [{| length_ := 16; workGroupSize := 64; numTransforms := 16; numPasses := 2;
      radices := [4; 4] |}].

(** Passes that follow one another from the position [i] and the cumulative
    length [LS]: each pass has [L = LS * radix], leaves the remainder
    [R = length / L], and hands its [L] over as the [LS] of the next pass. *)
Fixpoint chained (i LS length : Z) (passes : list Pass) : Prop :=
  match passes with
  | [] => True
  | p :: rest =>
      position p = i ∧ pass_LS p = LS ∧ pass_L p = LS * radix p ∧
      pass_R p * pass_L p = length ∧
      chained (i + 1) (pass_L p) length rest
  end.

End KernelGen.

(** ** The Stockham kernel generator ([library/src/device/generator/stockham_gen_base.h]) *)

Module Stockham.

(** *** Floating-point values

    The generator computes the number of butterflies per thread in [float]
    and [double].  Both are IEEE 754 binary formats, given here by the
    specification of the Standard Library. *)

Definition f32_of_Z (n : Z) : spec_float := binary_normalize 24 128 n 0 false.
Definition f32_div : spec_float → spec_float → spec_float := SFdiv 24 128.
Definition f64_of_Z (n : Z) : spec_float := binary_normalize 53 1024 n 0 false.
Definition f64_div : spec_float → spec_float → spec_float := SFdiv 53 1024.
Definition f64_mul : spec_float → spec_float → spec_float := SFmul 53 1024.

(** [floor]; the conversion of an infinity or of a NaN to an integer is
    undefined in the source and is 0 here. *)
Definition sf_floor (x : spec_float) : Z :=
  match x with
  | S754_finite s m e =>
      let m := if s then Z.neg m else Z.pos m in
      if 0 <=? e then m * 2 ^ e else m / 2 ^ (- e)
  | _ => 0
  end.

(** [ceil], with the same convention. *)
Definition sf_ceil (x : spec_float) : Z :=
  match x with
  | S754_finite s m e =>
      let m := if s then Z.neg m else Z.pos m in
      if 0 <=? e then m * 2 ^ e else - ((- m) / 2 ^ (- e))
  | _ => 0
  end.

(** [x > n] for an integer [n] that the floating-point format holds exactly. *)
Definition sf_gt_Z (x : spec_float) (n : Z) : bool :=
  match x with
  | S754_finite s m e =>
      let m := if s then Z.neg m else Z.pos m in
      if 0 <=? e then n <? m * 2 ^ e else n * 2 ^ (- e) <? m
  | S754_zero _ => n <? 0
  | S754_infinity s => negb s
  | S754_nan => false
  end.

(** *** The syntax tree of the generated source

    The classes [Expression], [Statement] and [Function] are declared in
    [generator.h], outside of the sources at hand; each constructor below
    stands for the class of the same name, and an overloaded C++ operator on
    expressions for the node of that operator. *)

Inductive Expression : Type :=
| Literal (s : string)
| Lit (n : Z)
| Var (name : string)
| Parens (e : Expression)
| Add (a b : Expression)
| Sub (a b : Expression)
| Multiply (a b : Expression)
| Divide (a b : Expression)
| Modulus (a b : Expression)
| Less (a b : Expression)
| GreaterEqual (a b : Expression)
| Equal (a b : Expression)
| And (a b : Expression)
| Not (e : Expression)
| Ternary (c a b : Expression)
| Index (v i : Expression)
| ComponentX (e : Expression)
| ComponentY (e : Expression)
| TwiddleMultiply (a b : Expression)
| LoadGlobal (buf idx : Expression).

(** A [Variable] with its name and type. *)
Record Variable_ := { name : string; type : string }.

#[warnings="-register-all"]
Inductive Statement : Type :=
| Declaration (v : Variable_) (value : option Expression)
| Assign (lhs rhs : Expression)
| SyncThreads
| LineBreak
| CommentLines (lines : list string)
| If (condition : Expression) (body : list Statement)
| Else (body : list Statement)
| Butterfly (forward : bool) (args : list Expression)
| StoreGlobal (buf idx value : Expression)
| Return.

Definition StatementList := list Statement.

Record Function := {
  f_name : string;
  f_qualifier : string;
  f_arguments : list Variable_;
  f_templates : list Variable_;
  f_body : StatementList
}.

(** The value of an index expression of the generated source for given values
    of its variables. *)
Fixpoint eval (env : string → Z) (e : Expression) : Z :=
  match e with
  | Lit n => n
  | Var x => env x
  | Parens e => eval env e
  | Add a b => eval env a + eval env b
  | Sub a b => eval env a - eval env b
  | Multiply a b => eval env a * eval env b
  | Divide a b => eval env a / eval env b
  | Modulus a b => eval env a mod eval env b
  | _ => 0
  end.

(** *** The kernel specification *)

(** The fields of [StockhamGeneratorSpecs] ([stockham_gen.h]) that the base
    class reads; [length_] is the field [length]. *)
Record StockhamGeneratorSpecs := {
  length_ : Z;
  factors : list Z;
  length2d : Z;
  factors2d : list Z;
  threads_per_transform : Z;
  threads_per_block : Z;
  half_lds : bool
}.

Definition LDS_BYTE_LIMIT : Z := 32 * 1024.
Definition BYTES_PER_ELEMENT : Z := 16.

(** The members that the tiling subclasses define or override. *)
Record Tiling := {
  tiling_name : string;
  large_twiddles_multiply : Z → Z → StatementList
}.

(** The base class: [large_twiddles_multiply] returns no statement. *)
Definition base_tiling (name : string) : Tiling :=
  {| tiling_name := name; large_twiddles_multiply := λ _ _, [] |}.

(** [StockhamKernel]: the specification with the values that the constructor
    sets. *)
Record StockhamKernel := {
  specs : StockhamGeneratorSpecs;
  nregisters : Z;
  transforms_per_block : Z
}.

(** The search for [threads_per_transform] in the constructor: the body of
    [for(unsigned int t = 2; t < length; ++t)]. *)
Definition threads_per_transform_step (length threads_per_block : Z) (factors : list Z)
    (threads_per_transform t : Z) : Z :=
  if threads_per_block <? t then threads_per_transform
  else if (length mod t =? 0) && forallb (λ f, (length / t) mod f =? 0) factors
       then t else threads_per_transform.

Definition threads_per_transform_search (length threads_per_block : Z) (factors : list Z) : Z :=
  fold_left (threads_per_transform_step length threads_per_block factors)
    (seqZ 2 (length - 2)) 1.

(** [while(threads_per_transform * batches_per_block > threads_per_block)
    --batches_per_block;] by recursion on [batches_per_block]. *)
Fixpoint shrink_batches (threads_per_transform threads_per_block : Z) (batches_per_block : nat)
  : Z :=
  match batches_per_block with
  | O => 0
  | S n =>
      if threads_per_block <? u32 (threads_per_transform * Z.of_nat (S n))
      then shrink_batches threads_per_transform threads_per_block n
      else Z.of_nat (S n)
  end.

(** [compute_nregisters], in [double]. *)
Definition compute_nregisters (length : Z) (factors : list Z) (threads_per_transform : Z) : Z :=
  fold_left
    (λ max_registers width,
       let n :=
         u32 (sf_floor
                (f64_mul
                   (f64_of_Z
                      (sf_ceil (f64_div (f64_div (f64_of_Z length) (f64_of_Z width))
                                  (f64_of_Z threads_per_transform))))
                   (f64_of_Z width))) in
       if max_registers <? n then n else max_registers)
    factors 0.

Definition with_threads (s : StockhamGeneratorSpecs) (threads_per_transform threads_per_block : Z)
  : StockhamGeneratorSpecs :=
  {| length_ := length_ s; factors := factors s; length2d := length2d s;
     factors2d := factors2d s; threads_per_transform := threads_per_transform;
     threads_per_block := threads_per_block; half_lds := half_lds s |}.

(** The constructor [StockhamKernel(StockhamGeneratorSpecs& specs)].  A
    division by zero, which is undefined in the source, follows [Z.div]. *)
Definition StockhamKernel_new (s : StockhamGeneratorSpecs) : StockhamKernel :=
  let bytes_per_batch := u32 (length_ s * BYTES_PER_ELEMENT) in
  let bytes_per_batch := if half_lds s then bytes_per_batch / 2 else bytes_per_batch in
  let threads_per_transform :=
    if threads_per_transform s =? 0
    then threads_per_transform_search (length_ s) (threads_per_block s) (factors s)
    else threads_per_transform s in
  let batches_per_block := LDS_BYTE_LIMIT / bytes_per_batch in
  let batches_per_block :=
    shrink_batches threads_per_transform (threads_per_block s) (Z.to_nat batches_per_block) in
  let batches_per_block :=
    match factors2d s with
    | [] => batches_per_block
    | _ => Z.min batches_per_block (length2d s)
    end in
  let threads_per_block := u32 (threads_per_transform * batches_per_block) in
  let transforms_per_block := threads_per_block / threads_per_transform in
  {| specs := with_threads s threads_per_transform threads_per_block;
     nregisters := compute_nregisters (length_ s) (factors s) threads_per_transform;
     transforms_per_block := transforms_per_block |}.

(** *** Notions used to state the bound on [transforms_per_block] *)

(** [n] is the largest natural number that satisfies [P]. *)
Definition is_largest (P : Z → Prop) (n : Z) : Prop :=
  0 <= n ∧ P n ∧ ∀ m, 0 <= m -> P m -> m <= n.

(** The bound in the words of the specification, for the specification [s]
    given to the constructor and the kernel [k] that it builds, with
    [bytes_per_element] bytes for each element of a transform. *)
Definition block_bound (bytes_per_element : Z) (s : StockhamGeneratorSpecs)
    (k : StockhamKernel) (n : Z) : Prop :=
  threads_per_transform (specs k) * n <= threads_per_block s ∧
  n * length_ s * bytes_per_element <= LDS_BYTE_LIMIT ∧
  (factors2d s ≠ [] -> n <= length2d s).

(** The bytes that an element takes in the LDS: half of an element when the
    LDS holds one component at a time. *)
Definition lds_bytes_per_element (s : StockhamGeneratorSpecs) : Z :=
  if half_lds s then BYTES_PER_ELEMENT / 2 else BYTES_PER_ELEMENT.

(** Two kernel specifications of length 4096 and of length 64. *)
Definition specs_4096 : StockhamGeneratorSpecs :=
  {| length_ := 4096; factors := [16; 16; 16]; length2d := 0; factors2d := [];
     threads_per_transform := 256; threads_per_block := 256; half_lds := true |}.

Definition specs_64 : StockhamGeneratorSpecs :=
  {| length_ := 64; factors := [4; 4; 4]; length2d := 0; factors2d := [];
     threads_per_transform := 0; threads_per_block := 64; half_lds := false |}.

(** *** The variables of the generated source *)

Definition v_thread : Variable_ := {| name := "thread"; type := "size_t" |}.
Definition v_W : Variable_ := {| name := "W"; type := "scalar_type" |}.
Definition v_t : Variable_ := {| name := "t"; type := "scalar_type" |}.
Definition v_lstride : Variable_ := {| name := "lstride"; type := "const size_t" |}.
Definition v_R : Variable_ := {| name := "R"; type := "scalar_type" |}.
Definition v_lds_real : Variable_ := {| name := "lds_real"; type := "real_type_t<scalar_type>" |}.
Definition v_lds_complex : Variable_ := {| name := "lds_complex"; type := "scalar_type" |}.
Definition v_twiddles : Variable_ := {| name := "twiddles"; type := "const scalar_type" |}.
Definition v_stride_lds : Variable_ := {| name := "stride_lds"; type := "size_t" |}.
Definition v_offset_lds : Variable_ := {| name := "offset_lds"; type := "unsigned int" |}.
Definition v_write : Variable_ := {| name := "write"; type := "bool" |}.
Definition v_scalar_type : Variable_ := {| name := "scalar_type"; type := "typename" |}.
Definition v_lds_is_real : Variable_ := {| name := "lds_is_real"; type := "const bool" |}.
Definition v_stride_type : Variable_ := {| name := "sb"; type := "StrideBin" |}.
Definition v_thread_id : Variable_ := {| name := "threadIdx.x"; type := "unsigned int" |}.

Definition var (v : Variable_) : Expression := Var (name v).

Definition thread := var v_thread.
Definition W := var v_W.
Definition t := var v_t.
Definition lstride := var v_lstride.
Definition R := var v_R.
Definition lds_real := var v_lds_real.
Definition lds_complex := var v_lds_complex.
Definition twiddles := var v_twiddles.
Definition stride_lds := var v_stride_lds.
Definition offset_lds := var v_offset_lds.
Definition write := var v_write.
Definition lds_is_real := var v_lds_is_real.
Definition stride_type := var v_stride_type.
Definition thread_id := var v_thread_id.

Inductive Component := Component_NONE | Component_X | Component_Y.

#[global] Instance Component_eq_dec : EqDecision Component.
Proof. solve_decision. Defined.

(** Modelled from the spec: [product] is declared in [generator.h], outside
    of the sources at hand; the cumulative height of a pass is the product of
    the widths of the earlier passes. *)
Definition product (factors : list Z) : Z :=
  fold_left (λ acc f, u32 (acc * f)) factors 1.

(** *** The generators of the statements of one butterfly *)

Section Generator.

Context (tiling : Tiling) (kernel : StockhamKernel).
(** [std::to_string] of a [float]; its format is not modelled. *)
Context (float_to_string : spec_float → string).

Let length := length_ (specs kernel).
Let factors := factors (specs kernel).
Let threads_per_transform := threads_per_transform (specs kernel).

(** [if(hr == 0) hr = h;] *)
Definition register_block (h hr : Z) : Z := if hr =? 0 then h else hr.

Definition load_lds_generator (component : Component) (h hr width dt : Z) : StatementList :=
  let hr := register_block h hr in
  flat_map
    (λ w,
       let tid := Parens (Add (Add thread (Lit dt)) (Lit (u32 (h * threads_per_transform)))) in
       let idx := Add offset_lds (Multiply (Add tid (Lit (u32 (w * length) / width))) lstride) in
       match component with
       | Component_X =>
           [Assign (ComponentX (Index R (Lit (u32 (hr * width + w))))) (Index lds_real idx)]
       | Component_Y =>
           [Assign (ComponentY (Index R (Lit (u32 (hr * width + w))))) (Index lds_real idx)]
       | Component_NONE =>
           [Assign (Index R (Lit (u32 (hr * width + w)))) (Index lds_complex idx)]
       end)
    (seqZ 0 width).

Definition store_lds_generator (component : Component) (cumheight : Z) (h hr width dt : Z)
  : StatementList :=
  let hr := register_block h hr in
  flat_map
    (λ w,
       let tid := Add (Add thread (Lit dt)) (Lit (u32 (h * threads_per_transform))) in
       let idx :=
         Add offset_lds
           (Multiply
              (Add (Add (Multiply (Parens (Divide tid (Lit cumheight)))
                           (Lit (u32 (width * cumheight))))
                      (Modulus tid (Lit cumheight)))
                 (Lit (u32 (w * cumheight))))
              lstride) in
       match component with
       | Component_X =>
           [Assign (Index lds_real idx) (ComponentX (Index R (Lit (u32 (hr * width + w)))))]
       | Component_Y =>
           [Assign (Index lds_real idx) (ComponentY (Index R (Lit (u32 (hr * width + w)))))]
       | Component_NONE =>
           [Assign (Index lds_complex idx) (Index R (Lit (u32 (hr * width + w))))]
       end)
    (seqZ 0 width).

Definition apply_twiddle_generator (cumheight : Z) (h hr width dt : Z) : StatementList :=
  let hr := register_block h hr in
  flat_map
    (λ w,
       let tid := Add (Add thread (Lit dt)) (Lit (u32 (h * threads_per_transform))) in
       let tidx :=
         Add (Lit (u32 (cumheight - 1 + w - 1)))
           (Multiply (Lit (u32 (width - 1))) (Modulus tid (Lit cumheight))) in
       let ridx := u32 (hr * width + w) in
       [Assign W (Index twiddles tidx);
        Assign t (TwiddleMultiply (Index R (Lit ridx)) W);
        Assign (Index R (Lit ridx)) t])
    (seqZ 1 (width - 1)).

Definition butterfly_generator (h hr width dt : Z) : StatementList :=
  let hr := register_block h hr in
  [Butterfly true (map (λ w, Add R (Lit (u32 (hr * width + w)))) (seqZ 0 width))].

(** [add_work]: call the generator as many times as needed. *)
Definition add_work (generator : Z → Z → Z → Z → StatementList)
    (width : Z) (height : spec_float) (guard : bool) : StatementList :=
  let iheight := sf_floor height in
  let iheight :=
    if sf_gt_Z height iheight && (length / width <? threads_per_transform)
    then u32 (iheight + 1) else iheight in
  let work := flat_map (λ h, generator h 0 width 0) (seqZ 0 iheight) in
  let stmts :=
    if guard then
      [CommentLines ["more than enough threads, some do nothing"];
       if negb (threads_per_transform =? length / width)
       then If (And write (Less thread (Lit (length / width)))) work
       else If write work]
    else work in
  if sf_gt_Z height iheight && (threads_per_transform <? length / width)
  then
    let dt := u32 (iheight * threads_per_transform) in
    stmts ++
    [CommentLines ["not enough threads, some threads do extra work"];
     If (And write (Less (Add thread (Lit dt)) (Lit (length / width))))
        (generator 0 iheight width dt)]
  else stmts.

(** The butterflies of a pass that one thread handles, as the register blocks
    of the calls that [add_work] makes to the generator: the blocks
    [0 .. iheight - 1], and the block [iheight] when there are not enough
    threads. *)
Definition butterflies (width : Z) (height : spec_float) : list Z :=
  let iheight := sf_floor height in
  let iheight :=
    if sf_gt_Z height iheight && (length / width <? threads_per_transform)
    then u32 (iheight + 1) else iheight in
  seqZ 0 iheight
  ++ (if sf_gt_Z height iheight && (threads_per_transform <? length / width)
      then [iheight] else []).

(** The index of the twiddle that [apply_twiddle_generator] reads. *)
Definition twiddle_index (cumheight h width dt w : Z) : Expression :=
  Add (Lit (u32 (cumheight - 1 + w - 1)))
    (Multiply (Lit (u32 (width - 1)))
       (Modulus (Add (Add thread (Lit dt)) (Lit (u32 (h * threads_per_transform))))
          (Lit cumheight))).

(** The updates of one call of [apply_twiddle_generator]. *)
Definition call_updates (cumheight h hr width dt : Z)
  : list (Expression * Expression * Expression) :=
  map (λ w, (Lit (u32 (register_block h hr * width + w)),
             Lit (u32 (register_block h hr * width + w)),
             twiddle_index cumheight h width dt w))
    (seqZ 1 (width - 1)).

(** [static_cast<float>(length) / width / threads_per_transform] *)
Definition pass_height (width : Z) : spec_float :=
  f32_div (f32_div (f32_of_Z length) (f32_of_Z width)) (f32_of_Z threads_per_transform).

(** The statements that [generate_device_function] appends for the X or the Y
    component when the LDS holds reals only. *)
Definition store_half_component (npass : nat) (cumheight : Z) (component : Component)
  : StatementList :=
  let half_width := default 0 (factors !! npass) in
  let half_height := pass_height half_width in
  let half_width' := default 0 (factors !! S npass) in
  let half_height' := pass_height half_width' in
  add_work (store_lds_generator component cumheight) half_width half_height true
  ++ [SyncThreads]
  ++ add_work (load_lds_generator component) half_width' half_height' true
  ++ [SyncThreads].

(** The body of the loop over the passes in [generate_device_function]. *)
Definition generate_pass (npass : nat) : StatementList :=
  let width := default 0 (factors !! npass) in
  let height := pass_height width in
  let cumheight := product (take npass factors) in
  [LineBreak;
   CommentLines
     ["pass " +:+ pretty npass +:+ ", width " +:+ pretty width;
      "using " +:+ pretty threads_per_transform +:+ " threads we need to do "
        +:+ pretty (length / width) +:+ " radix-" +:+ pretty width +:+ " butterflies";
      "therefore each thread will do " +:+ float_to_string height +:+ " butterflies"];
   SyncThreads;
   If (Not lds_is_real) (add_work (load_lds_generator Component_NONE) width height false)]
  ++ (if (0 <? npass)%nat then add_work (apply_twiddle_generator cumheight) width height false
      else [])
  ++ add_work butterfly_generator width height false
  ++ (if (npass =? List.length factors - 1)%nat
      then large_twiddles_multiply tiling width cumheight else [])
  ++ (let store_half :=
        if (npass <? List.length factors - 1)%nat
        then store_half_component npass cumheight Component_X
             ++ store_half_component npass cumheight Component_Y
        else [] in
      let store_full :=
        SyncThreads
        :: add_work (store_lds_generator Component_NONE cumheight) width height true in
      [If (Not lds_is_real) store_full; Else store_half]).

Definition device_arguments : list Variable_ :=
  [v_R; v_lds_real; v_lds_complex; v_twiddles; v_stride_lds; v_offset_lds; v_write].

Definition device_templates : list Variable_ :=
  [v_scalar_type; v_lds_is_real; v_stride_type].

Definition device_prologue : StatementList :=
  [Declaration v_thread None;
   Declaration v_W None;
   Declaration v_t None;
   Declaration v_lstride
     (Some (Ternary (Parens (Equal stride_type (Literal "SB_UNIT")))
              (Parens (Lit 1)) (Parens stride_lds)));
   Assign thread (Modulus thread_id (Lit threads_per_transform))].

Definition generate_device_function : Function :=
  let function_name :=
    "forward_length" +:+ pretty length +:+ "_" +:+ tiling_name tiling +:+ "_device" in
  {| f_name := function_name;
     f_qualifier := "__device__";
     f_arguments := device_arguments;
     f_templates := device_templates;
     f_body :=
       if length =? 1 then []
       else device_prologue
            ++ flat_map generate_pass (seq 0 (List.length factors)) |}.

End Generator.

(** *** The statements of the generated source in the order of execution *)

#[global] Instance Expression_eq_dec : EqDecision Expression.
Proof. solve_decision. Defined.

(** Either every branch of the generated source is followed, or the branches
    that the template parameter [lds_is_real] selects. *)
Inductive mode := AnyBranch | LdsIsReal (real : bool).

(** The value of a condition that the template parameter decides. *)
Definition decided (m : mode) (c : Expression) : option bool :=
  match m with
  | AnyBranch => None
  | LdsIsReal real =>
      if decide (c = lds_is_real) then Some real
      else if decide (c = Not lds_is_real) then Some (negb real)
      else None
  end.

Definition decision_of (m : mode) (s : Statement) : option bool :=
  match s with
  | If c _ => decided m c
  | _ => None
  end.

(** The statements other than [If] and [Else] that a statement executes, each
    with a flag that tells whether every thread executes it: the body of an
    [If] whose condition is not decided by the mode may or may not run.
    [prev] is the decision of the [If] that an [Else] follows. *)
Fixpoint trace_stmt (m : mode) (certain : bool) (prev : option bool) (s : Statement)
  : list (bool * Statement) :=
  match s with
  | If c body =>
      match decided m c with
      | Some false => []
      | d =>
          (fix go (prev : option bool) (l : list Statement) : list (bool * Statement) :=
             match l with
             | [] => []
             | s' :: rest =>
                 trace_stmt m (certain && bool_decide (d = Some true)) prev s'
                 ++ go (decision_of m s') rest
             end) None body
      end
  | Else body =>
      match prev with
      | Some true => []
      | d =>
          (fix go (prev : option bool) (l : list Statement) : list (bool * Statement) :=
             match l with
             | [] => []
             | s' :: rest =>
                 trace_stmt m (certain && bool_decide (d = Some false)) prev s'
                 ++ go (decision_of m s') rest
             end) None body
      end
  | _ => [(certain, s)]
  end.

Fixpoint trace (m : mode) (certain : bool) (prev : option bool) (l : StatementList)
  : list (bool * Statement) :=
  match l with
  | [] => []
  | s :: rest => trace_stmt m certain prev s ++ trace m certain (decision_of m s) rest
  end.

(** Every statement of a statement list, the bodies of [If] and [Else]
    unfolded. *)
Definition statements (l : StatementList) : list Statement :=
  map snd (trace AnyBranch true None l).

(** *** The accesses to the LDS and the barriers *)

Inductive lds_event :=
| Barrier
| Store (c : Component)
| Load (c : Component)
| NoEvent.

#[global] Instance lds_event_eq_dec : EqDecision lds_event.
Proof. solve_decision. Defined.

Definition is_lds (e : Expression) : bool :=
  match e with
  | Index buf _ => bool_decide (buf = lds_real) || bool_decide (buf = lds_complex)
  | _ => false
  end.

(** The component of a register that an expression denotes. *)
Definition register_component (e : Expression) : Component :=
  match e with
  | ComponentX _ => Component_X
  | ComponentY _ => Component_Y
  | _ => Component_NONE
  end.

(** A barrier counts when every thread executes it. *)
Definition lds_event_of (cs : bool * Statement) : lds_event :=
  match cs with
  | (true, SyncThreads) => Barrier
  | (_, Assign lhs rhs) =>
      if is_lds lhs then Store (register_component rhs)
      else if is_lds rhs then Load (register_component lhs)
      else NoEvent
  | _ => NoEvent
  end.

(** The LDS accesses and barriers of a statement list, in the order of
    execution, when [lds_is_real] has the value [real]. *)
Definition lds_events (real : bool) (l : StatementList) : list lds_event :=
  map lds_event_of (trace (LdsIsReal real) true None l).

(** Between an event of [from] and a later event of [to] there is a barrier. *)
Definition separated (from to : lds_event → Prop) (tr : list lds_event) : Prop :=
  ∀ i j a b, (i < j)%nat -> tr !! i = Some a -> tr !! j = Some b -> from a -> to b ->
    ∃ k, (i < k < j)%nat ∧ tr !! k = Some Barrier.

(** Every load from the LDS comes after a barrier, with no store to the LDS
    between the barrier and the load. *)
Definition barrier_before_loads (tr : list lds_event) : Prop :=
  ∀ j c, tr !! j = Some (Load c) ->
    ∃ k, (k < j)%nat ∧ tr !! k = Some Barrier ∧
         ∀ i c', (k < i < j)%nat -> tr !! i ≠ Some (Store c').


(** *** The twiddle multiplications *)

(** What is known of the variables [W] and [t] of the generated source: the
    index of the twiddle that [W] holds, and the register and the twiddle index
    of the product that [t] holds. *)
Record twiddle_state := {
  W_holds : option Expression;
  t_holds : option (Expression * Expression)
}.

Definition twiddle_state_init : twiddle_state := {| W_holds := None; t_holds := None |}.

(** The effect of a statement on that knowledge, and the update
    [(dst, src, tidx)] that it makes when it stores
    [R[src] * twiddles[tidx]] to [R[dst]]. *)
Definition twiddle_step (st : twiddle_state) (s : Statement)
  : twiddle_state * list (Expression * Expression * Expression) :=
  match s with
  | Assign lhs rhs =>
      if decide (lhs = W) then
        ({| W_holds :=
              match rhs with
              | Index table tidx => if decide (table = twiddles) then Some tidx else None
              | _ => None
              end;
            t_holds := t_holds st |}, [])
      else if decide (lhs = t) then
        ({| W_holds := W_holds st;
            t_holds :=
              match rhs with
              | TwiddleMultiply (Index r src) w =>
                  if decide (r = R ∧ w = W) then pair src <$> W_holds st else None
              | _ => None
              end |}, [])
      else
        match lhs with
        | Index r dst =>
            if decide (r = R ∧ rhs = t) then
              (st, match t_holds st with
                   | Some (src, tidx) => [(dst, src, tidx)]
                   | None => []
                   end)
            else (st, [])
        | _ => (st, [])
        end
  | Declaration v _ =>
      if decide (var v = W ∨ var v = t) then (twiddle_state_init, []) else (st, [])
  | _ => (st, [])
  end.

Fixpoint twiddle_updates_from (st : twiddle_state) (l : list Statement)
  : list (Expression * Expression * Expression) :=
  match l with
  | [] => []
  | s :: rest =>
      let '(st', out) := twiddle_step st s in out ++ twiddle_updates_from st' rest
  end.

(** The updates [R[dst] = R[src] * twiddles[tidx]] of a statement list. *)
Definition twiddle_updates (l : StatementList) : list (Expression * Expression * Expression) :=
  twiddle_updates_from twiddle_state_init (statements l).

(** A statement that neither assigns [W] or [t] nor stores [t] to a register. *)
Definition twiddle_neutral (s : Statement) : Prop :=
  ∀ st, twiddle_step st s = (st, []).

(** The twiddle update that the specification gives for the register [w] of
    the butterfly [b] in a pass of width [width] and cumulative height
    [cumheight]: the register [b * width + w] is multiplied by the twiddle of
    index [cumheight - 1 + (w - 1) + (width - 1) * (t mod cumheight)], where
    [t = thread + b * threads_per_transform] is the work index of the
    thread. *)
Definition specified_update (threads_per_transform cumheight width : Z) (bw : Z * Z)
    (update : Expression * Expression * Expression) : Prop :=
  let '(b, w) := bw in
  let '(dst, src, tidx) := update in
  dst = Lit (b * width + w) ∧ src = Lit (b * width + w) ∧
  ∀ env : string → Z,
    eval env tidx =
    cumheight - 1 + (w - 1)
    + (width - 1) * ((env "thread" + b * threads_per_transform) mod cumheight).

(** A statement other than [If] and [Else]. *)
Definition simple (s : Statement) : Prop :=
  match s with
  | If _ _ | Else _ => False
  | _ => True
  end.

Definition not_else (s : Statement) : Prop :=
  match s with
  | Else _ => False
  | _ => True
  end.

(** A statement list that does not start with [Else]. *)
Definition starts_plain (l : StatementList) : Prop :=
  match l with
  | s :: _ => not_else s
  | [] => True
  end.


(** The knowledge of [W] and [t] after a statement list. *)
Definition twiddle_final (st : twiddle_state) (l : list Statement) : twiddle_state :=
  fold_left (λ st s, (twiddle_step st s).1) l st.

(** Every statement of a statement list, in any branch, leaves [W] and [t]
    alone. *)
Definition neutral_trace (l : StatementList) : Prop :=
  ∀ certain prev, Forall (λ cs, twiddle_neutral cs.2) (trace AnyBranch certain prev l).

(** A kernel of length 8 with the factors 4 and 2, run by two threads. *)
Definition kernel_8 : StockhamKernel :=
  StockhamKernel_new
    {| length_ := 8; factors := [4; 2]; length2d := 0; factors2d := [];
       threads_per_transform := 2; threads_per_block := 64; half_lds := true |}.

(** *** Notions used to state further properties of the kernel *)

(** A thread count that the search of the constructor can take: below the
    length and not above [threads_per_block], it divides the length, and
    every factor divides the number of elements that a thread gets. *)
Definition admissible_threads (length threads_per_block : Z) (factors : list Z) (t : Z)
  : Prop :=
  2 <= t < length ∧ t <= threads_per_block ∧ Z.divide t length ∧
  Forall (λ f, Z.divide f (length / t)) factors.

(** The index expression of the LDS cell that a statement stores to, and of
    the cell that it loads from. *)
Definition lds_store_index (s : Statement) : option Expression :=
  match s with
  | Assign (Index buf idx) _ => if is_lds (Index buf idx) then Some idx else None
  | _ => None
  end.

Definition lds_load_index (s : Statement) : option Expression :=
  match s with
  | Assign _ (Index buf idx) => if is_lds (Index buf idx) then Some idx else None
  | _ => None
  end.

(** The cell of the transform that the element [w] of the butterfly with the
    work index [tid] goes to after a pass of width [width] and cumulative
    height [cumheight], and the cell that it comes from before a pass. *)
Definition store_cell (cumheight width tid w : Z) : Z :=
  (tid / cumheight * width + w) * cumheight + tid mod cumheight.

Definition load_cell (length width tid w : Z) : Z := tid + w * length / width.

(** *** The barriers when the LDS holds complex elements *)

(** What the threads have done to the LDS since the last barrier. *)
Inductive lds_access := NoAccess | Loaded | Stored.

Definition is_store (e : lds_event) : Prop := ∃ c, e = Store c.
Definition is_load (e : lds_event) : Prop := ∃ c, e = Load c.

(** A check in one pass over the events that no load follows a store, and no
    store follows a load, without a barrier in between. *)
Fixpoint lds_sync_ok (last : lds_access) (tr : list lds_event) : option lds_access :=
  match tr with
  | [] => Some last
  | Barrier :: rest => lds_sync_ok NoAccess rest
  | Store _ :: rest =>
      match last with
      | Loaded => None
      | _ => lds_sync_ok Stored rest
      end
  | Load _ :: rest =>
      match last with
      | Stored => None
      | _ => lds_sync_ok Loaded rest
      end
  | NoEvent :: rest => lds_sync_ok last rest
  end.

(** The invariant of the check. *)
Definition lds_sync_invariant (last : lds_access) (tr : list lds_event) : Prop :=
  separated is_store is_load tr ∧
  separated is_load is_store tr ∧
  (last = Loaded → ∀ j c, tr !! j = Some (Store c) →
     ∃ k, (k < j)%nat ∧ tr !! k = Some Barrier) ∧
  (∀ j c, tr !! j = Some (Load c) →
     (∃ k, (k < j)%nat ∧ tr !! k = Some Barrier ∧
           ∀ i c', (k < i < j)%nat → tr !! i ≠ Some (Store c')) ∨
     (last ≠ Stored ∧ ∀ i c', (i < j)%nat → tr !! i ≠ Some (Store c'))).

End Stockham.

(** ** The cache of compiled kernels ([library/src/include/rtccache.h]) *)

Module RTC.

#[global] Instance byte_eq_dec : EqDecision Byte.byte := Byte.byte_eq_dec.

(** Modelled from the spec: the table [kernels] of the cache file, whose
    definition ([rtccache.cpp]) is outside of the sources at hand.  A row has
    the columns [name], [arch], [hip_version], [generator_sum], [code] and
    [timestamp]. *)
Record row := {
  name : string;
  arch : string;
  hip_version : Z;
  generator_sum : list Byte.byte;
  code : list Byte.byte;
  timestamp : Z
}.

(** Modelled from the spec: the key of a row,
    [(kernel_name, arch, toolchain_version, generator_hash)]. *)
Definition key : Type := string * string * Z * list Byte.byte.

Definition key_of (r : row) : key := (name r, arch r, hip_version r, generator_sum r).




(** Modelled from the spec: [put] inserts a row or replaces the row of the
    same key. *)
Definition put (kernels : list row) (r : row) : list row :=
  r :: filter (λ r', key_of r' ≠ key_of r) kernels.


End RTC.
(** ** The input of the accuracy tests ([clients/client_utils.h]) *)

Module Oracle.

(** A host buffer as the array of floating-point values that the source casts
    it to, zero where nothing has been written.  The buffers are indexed
    without bounds: an access outside of the allocated vector, which is
    undefined in the source, is not modelled. *)
Abbreviation buffer Tfloat := (gmap Z Tfloat).

(** [v[i]] for a vector of lengths or strides; a read outside of the vector,
    which is undefined in the source, gives 0. *)
Definition at_ (v : list Z) (i : Z) : Z := default 0 (vget v i).

(** The loop [for(auto i = first; i < bound; ++i)]. *)
Definition for_range {S} (first bound : Z) (body : Z → S → S) (s : S) : S :=
  fold_left (λ s i, body i s) (seqZ first (bound - first)) s.

Section Hermitian.

Context {Tfloat : Type}.
(** The value [0.0] and the negation of the floating-point type. *)
Context (zero : Tfloat) (neg : Tfloat → Tfloat).

Definition read (data : buffer Tfloat) (i : Z) : Tfloat := default zero (data !! i).

(** [data[e].imag(0.0)] on a buffer of [std::complex<Tfloat>], whose element
    [e] has its real part at [2 * e] and its imaginary part at [2 * e + 1];
    [base] is the offset of [data] in the buffer. *)
Definition imag0 (base e : Z) (data : buffer Tfloat) : buffer Tfloat :=
  <[2 * (base + e) + 1 := zero]> data.

(** [data[dst] = std::conj(data[src])] *)
Definition conj_assign (base dst src : Z) (data : buffer Tfloat) : buffer Tfloat :=
  let re := read data (2 * (base + src)) in
  let im := read data (2 * (base + src) + 1) in
  <[2 * (base + dst) + 1 := neg im]> (<[2 * (base + dst) := re]> data).

(** [if(c) s] *)
Definition when {S} (c : bool) (body : S → S) (s : S) : S := if c then body s else s.

Definition even (n : Z) : bool := n mod 2 =? 0.

(** The statements of [case 3] for interleaved data, before the fall-through. *)
Definition hermitian_case_3 (base : Z) (length istride : list Z) (data : buffer Tfloat)
  : buffer Tfloat :=
  let l0 := at_ length 0 in let l1 := at_ length 1 in let l2 := at_ length 2 in
  let s0 := at_ istride 0 in let s1 := at_ istride 1 in let s2 := at_ istride 2 in
  let h0 := sz (s0 * (l0 / 2)) in
  let h1 := sz (s1 * (l1 / 2)) in
  let h2 := sz (s2 * (l2 / 2)) in
  let data := when (even l2) (imag0 base h2) data in
  let data := when (even l0 && even l2) (imag0 base (sz (h0 + h2))) data in
  let data := when (even l1 && even l2) (imag0 base (sz (h1 + h2))) data in
  let data :=
    when (even l0 && even l1 && even l2) (imag0 base (sz (sz (h0 + h1) + h2))) data in
  (* y-axis *)
  let data :=
    for_range 1 (sz (l1 + 1) / 2)
      (λ j, conj_assign base (sz (s1 * sz (l1 - j))) (sz (s1 * j))) data in
  (* y-axis at x-nyquist *)
  let data :=
    when (even l0)
      (for_range 1 (sz (l1 + 1) / 2)
         (λ j, conj_assign base (sz (h0 + sz (s1 * sz (l1 - j)))) (sz (h0 + sz (s1 * j)))))
      data in
  (* x-axis *)
  let data :=
    for_range 1 (sz (l0 + 1) / 2)
      (λ i, conj_assign base (sz (s0 * sz (l0 - i))) (sz (s0 * i))) data in
  (* x-axis at y-nyquist *)
  let data :=
    when (even l1)
      (for_range 1 (sz (l0 + 1) / 2)
         (λ i, conj_assign base (sz (sz (s0 * sz (l0 - i)) + h1)) (sz (sz (s0 * i) + h1))))
      data in
  (* x-y plane *)
  let data :=
    for_range 1 (sz (l0 + 1) / 2)
      (λ i, for_range 1 l1
              (λ j, conj_assign base
                      (sz (sz (s0 * sz (l0 - i)) + sz (s1 * sz (l1 - j))))
                      (sz (sz (s0 * i) + sz (s1 * j)))))
      data in
  when (even l2)
    (λ data,
       (* x-axis at z-nyquist *)
       let data :=
         for_range 1 (sz (l0 + 1) / 2)
           (λ i, conj_assign base (sz (sz (s0 * sz (l0 - i)) + h2)) (sz (sz (s0 * i) + h2)))
           data in
       (* x-axis at yz-nyquist *)
       let data :=
         when (even l1)
           (for_range 1 (sz (l0 + 1) / 2)
              (λ i, conj_assign base (sz (sz (s0 * sz (l0 - i)) + h2))
                      (sz (sz (s0 * i) + h2))))
           data in
       (* y-axis at z-nyquist *)
       let data :=
         for_range 1 (sz (l1 + 1) / 2)
           (λ j, conj_assign base (sz (sz (s1 * sz (l1 - j)) + h2)) (sz (sz (s1 * j) + h2)))
           data in
       (* y-axis at xz-nyquist *)
       let data :=
         when (even l0)
           (for_range 1 (sz (l1 + 1) / 2)
              (λ j, conj_assign base
                      (sz (sz (h0 + sz (s1 * sz (l1 - j))) + h2))
                      (sz (sz (h0 + sz (s1 * j)) + h2))))
           data in
       (* x-y plane at z-nyquist *)
       for_range 1 (sz (l0 + 1) / 2)
         (λ i, for_range 1 l1
                 (λ j, conj_assign base
                         (sz (sz (sz (s0 * sz (l0 - i)) + sz (s1 * sz (l1 - j))) + h2))
                         (sz (sz (sz (s0 * i) + sz (s1 * j)) + h2))))
         data)
    data.

(** The statements of [case 2] for interleaved data, before the fall-through. *)
Definition hermitian_case_2 (base : Z) (length istride : list Z) (data : buffer Tfloat)
  : buffer Tfloat :=
  let l0 := at_ length 0 in let l1 := at_ length 1 in
  let s0 := at_ istride 0 in let s1 := at_ istride 1 in
  let h0 := sz (s0 * (l0 / 2)) in
  let h1 := sz (s1 * (l1 / 2)) in
  let data := when (even l1) (imag0 base h1) data in
  let data := when (even l0 && even l1) (imag0 base (sz (h0 + h1))) data in
  let data :=
    for_range 1 (sz (l0 + 1) / 2)
      (λ i, conj_assign base (sz (s0 * sz (l0 - i))) (sz (s0 * i))) data in
  when (even l1)
    (for_range 1 (sz (l0 + 1) / 2)
       (λ i, conj_assign base (sz (sz (s0 * sz (l0 - i)) + h1)) (sz (sz (s0 * i) + h1))))
    data.

(** The statements of [case 1] for interleaved data. *)
Definition hermitian_case_1 (base : Z) (length istride : list Z) (data : buffer Tfloat)
  : buffer Tfloat :=
  let l0 := at_ length 0 in
  let s0 := at_ istride 0 in
  let data := imag0 base 0 data in
  when (even l0) (imag0 base (sz (s0 * (l0 / 2)))) data.

(** One iteration of the loop over the batches for interleaved data: the
    [switch] over the rank, with its fall-through from 3 to 2 to 1. *)
Definition hermitian_interleaved_batch (length istride : list Z) (idist ibatch : Z)
    (data : buffer Tfloat) : result (buffer Tfloat) :=
  let base := sz (ibatch * idist) in
  match vsize length with
  | 3 => Ok (hermitian_case_1 base length istride
               (hermitian_case_2 base length istride
                  (hermitian_case_3 base length istride data)))
  | 2 => Ok (hermitian_case_1 base length istride
               (hermitian_case_2 base length istride data))
  | 1 => Ok (hermitian_case_1 base length istride data)
  | _ => Throw "Invalid dimension for imposeHermitianSymmetry"
  end.

(** One iteration of the loop over the batches for planar data; [idata] is
    the buffer of the imaginary parts. *)
Definition hermitian_planar_batch (length istride : list Z) (idist ibatch : Z)
    (idata : buffer Tfloat) : result (buffer Tfloat) :=
  let base := sz (ibatch * idist) in
  match vsize length with
  | 3 => Throw "Not implemented"
  | 2 => Throw "Not implemented"
  | 1 =>
      let idata := <[base := zero]> idata in
      Ok (when (even (at_ length 0))
            (λ idata, <[base + sz (at_ istride 0 * (at_ length 0 / 2)) := zero]> idata)
            idata)
  | _ => Throw "Invalid dimension for imposeHermitianSymmetry"
  end.

(** The loop [for(auto ibatch = 0; ibatch < nbatch; ++ibatch)] with a body
    that can throw. *)
Fixpoint batches (body : Z → buffer Tfloat → result (buffer Tfloat)) (ibatches : list Z)
    (data : buffer Tfloat) : result (buffer Tfloat) :=
  match ibatches with
  | [] => Ok data
  | ibatch :: rest => data' ← body ibatch data; batches body rest data'
  end.

(** [impose_hermitian_symmetry]: given the buffer of complex values, or the
    two buffers of the planar format, impose Hermitian symmetry. *)
Definition impose_hermitian_symmetry (vals : list (buffer Tfloat))
    (length istride : list Z) (idist nbatch : Z) : result (list (buffer Tfloat)) :=
  match vals with
  | [data] =>
      data' ← batches (hermitian_interleaved_batch length istride idist)
                 (seqZ 0 nbatch) data;
      Ok [data']
  | [rdata; idata] =>
      idata' ← batches (hermitian_planar_batch length istride idist)
                  (seqZ 0 nbatch) idata;
      Ok [rdata; idata']
  | _ => Throw "Invalid data type"
  end.

End Hermitian.

(** *** The generator [std::mt19937]

    The engine of the C++ standard library,
    [mersenne_twister_engine<uint_fast32_t, 32, 624, 397, 31, 0x9908b0df, 11,
    0xffffffff, 7, 0x9d2c5680, 15, 0xefc60000, 18, 1812433253>], as the
    standard defines it: the state is the sequence of the 624 most recent
    values [x], a transition appends the next value of the recurrence, and
    the result is that value tempered. *)

Definition mt19937 := list Z.

Fixpoint mt19937_seed_loop (n : nat) (i prev : Z) : list Z :=
  match n with
  | O => []
  | S n =>
      let x := u32 (1812433253 * Z.lxor prev (Z.shiftr prev 30) + i) in
      x :: mt19937_seed_loop n (i + 1) x
  end.

(** [std::mt19937 gen(value)] *)
Definition mt19937_seed (value : Z) : mt19937 :=
  let x0 := u32 value in
  x0 :: mt19937_seed_loop 623 1 x0.

Definition mt19937_temper (x : Z) : Z :=
  let z := Z.lxor x (Z.land (Z.shiftr x 11) 0xffffffff) in
  let z := Z.lxor z (Z.land (u32 (Z.shiftl z 7)) 0x9d2c5680) in
  let z := Z.lxor z (Z.land (u32 (Z.shiftl z 15)) 0xefc60000) in
  Z.lxor z (Z.shiftr z 18).

(** [gen()]: the result and the generator after the call. *)
Definition mt19937_next (gen : mt19937) : Z * mt19937 :=
  match gen with
  | x0 :: rest =>
      let x1 := default 0 (rest !! 0%nat) in
      let xm := default 0 (rest !! 396%nat) in
      let y := Z.lor (Z.land x0 0x80000000) (Z.land x1 0x7fffffff) in
      let x := Z.lxor (Z.lxor xm (Z.shiftr y 1)) (if Z.odd y then 0x9908b0df else 0) in
      (mt19937_temper x, rest ++ [x])
  | [] => (0, [])
  end.

(** [gen.max()] *)
Definition mt19937_max : Z := 4294967295.

(** [gen.discard(n)] *)
Fixpoint mt19937_discard (n : nat) (gen : mt19937) : mt19937 :=
  match n with
  | O => gen
  | S n => mt19937_discard n (snd (mt19937_next gen))
  end.

(** The result of the call number [n], from 0, of a generator. *)
Definition mt19937_draw (gen : mt19937) (n : nat) : Z :=
  fst (mt19937_next (mt19937_discard n gen)).

(** *** Indices of one, two and three dimensions

    The templates over [T1], [std::tuple<T1, T1>] and
    [std::tuple<T1, T1, T1>], with [T1 = size_t]. *)

Class CountIters (T : Type) := count_iters : T → Z.

#[global] Instance count_iters_1 : CountIters Z := λ i, i.
#[global] Instance count_iters_2 : CountIters (Z * Z) := λ i, sz (fst i * snd i).
#[global] Instance count_iters_3 : CountIters (Z * Z * Z) :=
  λ i, sz (sz (fst (fst i) * snd (fst i)) * snd i).

(** [compute_partition_count]; [openmp] is [None] where
    [BUILD_CLIENTS_TESTS_OPENMP] is not defined, and holds the result of
    [omp_get_num_procs()] where it is. *)
Definition compute_partition_count {T} `{CountIters T} (openmp : option Z) (length : T) : Z :=
  match openmp with
  | Some procs =>
      let iters := count_iters length in
      let hw_threads := Z.min 8 (sz procs) in
      if hw_threads =? 0 then 1
      else Z.min hw_threads (sz (iters + 2048 + 1) / 2048)
  | None => 1
  end.

(** The loop of [partition_base]. *)
Fixpoint partition_loop (n : nat) (cur_partition partition_size : Z) : list (Z * Z) :=
  match n with
  | O => []
  | S n =>
      (cur_partition, sz (cur_partition + partition_size))
        :: partition_loop n (sz (cur_partition + partition_size)) partition_size
  end.

(** [ret.back().second = length] *)
Fixpoint set_back_second (ret : list (Z * Z)) (length : Z) : list (Z * Z) :=
  match ret with
  | [] => []
  | [p] => [(fst p, length)]
  | p :: rest => p :: set_back_second rest length
  end.

(** [partition_base]; with no part the division by [num_parts] and
    [ret.back()] are undefined. *)
Definition partition_base (length num_parts : Z) : result (list (Z * Z)) :=
  let num_parts := Z.min length num_parts in
  if num_parts =? 0 then Undef
  else
    let partition_size := length / num_parts in
    Ok (set_back_second (partition_loop (Z.to_nat num_parts) 0 partition_size) length).

Class RowMajor (T : Type) `{CountIters T} := {
  partition_rowmajor : option Z → T → result (list (T * T));
  compute_index : T → T → Z → Z;
  increment_rowmajor : T → T → bool * T
}.

(** Modelled from the spec: [increment_rowmajor], that [set_input] calls, and
    the [increment_base] under it are defined outside of the sources at hand.
    The input generator visits the elements of a descriptor, whose strides are
    row-major; the functions are modelled as the step to the next index below
    [length] in that order, the last axis first, and tell whether there was
    one. *)
Definition increment_base (index length : Z) : bool * Z :=
  if index <? sz (length - 1) then (true, sz (index + 1)) else (false, 0).

Definition partition_rowmajor_1 (openmp : option Z) (length : Z) : result (list (Z * Z)) :=
  partition_base length (compute_partition_count openmp length).

Definition compute_index_1 (length stride base : Z) : Z := sz (sz (length * stride) + base).

#[global] Instance row_major_1 : RowMajor Z := {|
  partition_rowmajor := partition_rowmajor_1;
  compute_index := compute_index_1;
  increment_rowmajor := increment_base
|}.

Definition partition_rowmajor_2 (openmp : option Z) (length : Z * Z)
  : result (list ((Z * Z) * (Z * Z))) :=
  partitions ← partition_base (fst length) (compute_partition_count openmp length);
  Ok (map (λ p : Z * Z, ((fst p, 0), (snd p, snd length))) partitions).

Definition compute_index_2 (length stride : Z * Z) (base : Z) : Z :=
  sz (sz (sz (fst length * fst stride) + sz (snd length * snd stride)) + base).

Definition increment_rowmajor_2 (index length : Z * Z) : bool * (Z * Z) :=
  let '(more, i1) := increment_base (snd index) (snd length) in
  if more then (true, (fst index, i1))
  else
    let '(more, i0) := increment_base (fst index) (fst length) in
    (more, (i0, i1)).

#[global] Instance row_major_2 : RowMajor (Z * Z) := {|
  partition_rowmajor := partition_rowmajor_2;
  compute_index := compute_index_2;
  increment_rowmajor := increment_rowmajor_2
|}.

Definition partition_rowmajor_3 (openmp : option Z) (length : Z * Z * Z)
  : result (list ((Z * Z * Z) * (Z * Z * Z))) :=
  partitions ← partition_base (fst (fst length)) (compute_partition_count openmp length);
  Ok (map (λ p : Z * Z, ((fst p, 0, 0), (snd p, snd (fst length), snd length))) partitions).

Definition compute_index_3 (length stride : Z * Z * Z) (base : Z) : Z :=
  sz (sz (sz (sz (fst (fst length) * fst (fst stride))
              + sz (snd (fst length) * snd (fst stride)))
          + sz (snd length * snd stride))
      + base).

Definition increment_rowmajor_3 (index length : Z * Z * Z) : bool * (Z * Z * Z) :=
  let '(more, i2) := increment_base (snd index) (snd length) in
  if more then (true, (fst index, i2))
  else
    let '(more, i1) := increment_base (snd (fst index)) (snd (fst length)) in
    if more then (true, (fst (fst index), i1, i2))
    else
      let '(more, i0) := increment_base (fst (fst index)) (fst (fst length)) in
      (more, (i0, i1, i2)).

#[global] Instance row_major_3 : RowMajor (Z * Z * Z) := {|
  partition_rowmajor := partition_rowmajor_3;
  compute_index := compute_index_3;
  increment_rowmajor := increment_rowmajor_3
|}.

(** *** [set_input] *)

(** The function returns or throws, calls [abort()], or has a loop
    [do ... while(increment_rowmajor(index, length))] that has not ended
    within the given number of iterations. *)
Inductive run (A : Type) : Type :=
| Done (r : result A)
| Aborted
| OutOfFuel.
Arguments Done {A} r.
Arguments Aborted {A}.
Arguments OutOfFuel {A}.

(** [do body while(increment_rowmajor(index, length))] on a state [S]. *)
Fixpoint do_while {T S} `{RowMajor T} (fuel : nat) (body : T → S → S) (index length : T)
    (s : S) : option S :=
  match fuel with
  | O => None
  | S fuel =>
      let s := body index s in
      let '(more, index) := increment_rowmajor index length in
      if more then do_while fuel body index length s else Some s
  end.

(** The indices that such a loop visits. *)
Fixpoint visited {T} `{RowMajor T} (fuel : nat) (index length : T) : option (list T) :=
  match fuel with
  | O => None
  | S fuel =>
      let '(more, index') := increment_rowmajor index length in
      if more then (index ::.) <$> visited fuel index' length else Some [index]
  end.

Section SetInput.

(** The floating-point type, with the conversion [(Tfloat)n] of an integer
    and the division. *)
Context {Tfloat : Type} (of_integer : Z → Tfloat) (divide : Tfloat → Tfloat → Tfloat).
(** Whether [BUILD_CLIENTS_TESTS_OPENMP] is defined, and the number of
    processors then. *)
Context (openmp : option Z).
(** Whether the compiler evaluates the first argument of the constructor
    [std::complex<Tfloat> val(..., ...)] before the second one: the order is
    unspecified. *)
Context (first_argument_first : bool).
Context {T : Type} `{RowMajor T}.

(** [(Tfloat)g / (Tfloat)gen.max()] for a result [g] of the generator. *)
Definition unit_value (g : Z) : Tfloat := divide (of_integer g) (of_integer mt19937_max).

(** The body of the loop over the elements for interleaved data. *)
Definition body_interleaved (istride : T) (i_base : Z) (index : T)
    (s : mt19937 * buffer Tfloat) : mt19937 * buffer Tfloat :=
  let '(gen, idata) := s in
  let i := compute_index index istride i_base in
  let '(gx, gen) := mt19937_next gen in
  let x := unit_value gx in
  let '(gy, gen) := mt19937_next gen in
  let y := unit_value gy in
  (gen, <[2 * i + 1 := y]> (<[2 * i := x]> idata)).

(** The body of the loop over the elements for planar data. *)
Definition body_planar (istride : T) (i_base : Z) (index : T)
    (s : mt19937 * (buffer Tfloat * buffer Tfloat))
  : mt19937 * (buffer Tfloat * buffer Tfloat) :=
  let '(gen, (ireal, iimag)) := s in
  let i := compute_index index istride i_base in
  let '(g1, gen) := mt19937_next gen in
  let '(g2, gen) := mt19937_next gen in
  let '(re, im) := if first_argument_first then (g1, g2) else (g2, g1) in
  (gen, (<[i := unit_value re]> ireal, <[i := unit_value im]> iimag)).

(** The body of the loop over the elements for real data. *)
Definition body_real (istride : T) (i_base : Z) (index : T)
    (s : mt19937 * buffer Tfloat) : mt19937 * buffer Tfloat :=
  let '(gen, idata) := s in
  let i := compute_index index istride i_base in
  let '(g, gen) := mt19937_next gen in
  (gen, <[i := unit_value g]> idata).

(** One iteration of the loop over the partitions.  The iterations run in
    parallel under OpenMP; they are taken in order here. *)
Definition fill_partition {D} (fuel : nat) (body : T → Z → T → mt19937 * D → mt19937 * D)
    (istride : T) (i_base : Z) (partition : T * T) (data : D) : option D :=
  let index := fst partition in
  let length := snd partition in
  let gen := mt19937_seed (compute_index index istride i_base) in
  snd <$> do_while fuel (body istride i_base) index length (gen, data).

Fixpoint fill_partitions {D} (fuel : nat) (body : T → Z → T → mt19937 * D → mt19937 * D)
    (istride : T) (i_base : Z) (partitions : list (T * T)) (data : D) : option D :=
  match partitions with
  | [] => Some data
  | partition :: rest =>
      data ← fill_partition fuel body istride i_base partition data;
      fill_partitions fuel body istride i_base rest data
  end.

(** The loop [for(auto b = 0; b < nbatch; b++, i_base += idist)], for the
    [batches] iterations that remain. *)
Fixpoint fill_batches {D} (fuel : nat) (body : T → Z → T → mt19937 * D → mt19937 * D)
    (istride : T) (idist : Z) (partitions : list (T * T)) (batches : nat) (i_base : Z)
    (data : D) : option D :=
  match batches with
  | O => Some data
  | S batches =>
      data ← fill_partitions fuel body istride i_base partitions data;
      fill_batches fuel body istride idist partitions batches (sz (i_base + idist)) data
  end.

Definition finish {D} (r : option D) (store : D → option (list (buffer Tfloat)))
  : run (list (buffer Tfloat)) :=
  match r with
  | Some data => Done (checked (store data))
  | None => OutOfFuel
  end.

(** [set_input] for an index type [T]. *)
Definition set_input (fuel : nat) (input : list (buffer Tfloat))
    (itype : Client.rocfft_array_type) (whole_length istride : T) (idist nbatch : Z)
  : run (list (buffer Tfloat)) :=
  match itype with
  | Client.rocfft_array_type_complex_interleaved
  | Client.rocfft_array_type_hermitian_interleaved =>
      match vget input 0, partition_rowmajor openmp whole_length with
      | Some idata, Ok partitions =>
          finish
            (fill_batches fuel body_interleaved istride idist partitions (Z.to_nat nbatch)
               0 idata)
            (λ idata, vset input 0 idata)
      | None, _ => Done Undef
      | _, Throw msg => Done (Throw msg)
      | _, Undef => Done Undef
      end
  | Client.rocfft_array_type_complex_planar
  | Client.rocfft_array_type_hermitian_planar =>
      match vget input 0, vget input 1, partition_rowmajor openmp whole_length with
      | Some ireal, Some iimag, Ok partitions =>
          finish
            (fill_batches fuel body_planar istride idist partitions (Z.to_nat nbatch)
               0 (ireal, iimag))
            (λ data, input ← vset input 0 (fst data); vset input 1 (snd data))
      | None, _, _ | _, None, _ => Done Undef
      | _, _, Throw msg => Done (Throw msg)
      | _, _, Undef => Done Undef
      end
  | Client.rocfft_array_type_real =>
      match vget input 0, partition_rowmajor openmp whole_length with
      | Some idata, Ok partitions =>
          finish
            (fill_batches fuel body_real istride idist partitions (Z.to_nat nbatch) 0 idata)
            (λ idata, vset input 0 idata)
      | None, _ => Done Undef
      | _, Throw msg => Done (Throw msg)
      | _, Undef => Done Undef
      end
  | Client.rocfft_array_type_unset =>
      Done (Throw "Input layout format not yet supported")
  end.

End SetInput.

Section SetInputVector.

Context {Tfloat : Type} (of_integer : Z → Tfloat) (divide : Tfloat → Tfloat → Tfloat).
Context (openmp : option Z) (first_argument_first : bool).

(** [set_input] for the vectors of a descriptor: the dispatch on the rank. *)
Definition set_input_vector (fuel : nat) (input : list (buffer Tfloat))
    (itype : Client.rocfft_array_type) (length istride : list Z) (idist nbatch : Z)
  : run (list (buffer Tfloat)) :=
  match length, istride with
  | [l0], s0 :: _ =>
      set_input of_integer divide openmp first_argument_first fuel input itype
        l0 s0 idist nbatch
  | [l0; l1], s0 :: s1 :: _ =>
      set_input of_integer divide openmp first_argument_first fuel input itype
        (l0, l1) (s0, s1) idist nbatch
  | [l0; l1; l2], s0 :: s1 :: s2 :: _ =>
      set_input of_integer divide openmp first_argument_first fuel input itype
        (l0, l1, l2) (s0, s1, s2) idist nbatch
  | [_], _ | [_; _], _ | [_; _; _], _ => Done Undef
  | _, _ => Aborted
  end.

End SetInputVector.

(** *** What [set_input] stores

    A stored element: its index in the buffer, the seed of the generator that
    gave its value, and how many elements that generator served before. *)
Record fill := Fill { fill_index : Z; fill_seed : Z; fill_position : nat }.

Section Fills.

Context {Tfloat : Type} (of_integer : Z → Tfloat) (divide : Tfloat → Tfloat → Tfloat).
Context (first_argument_first : bool).
Context {T : Type} `{RowMajor T}.

(** The elements of a partition that starts at [first] and has the cells
    [cells], the first one being number [from] of its generator: one generator
    for the partition, seeded with the index of [first]. *)
Definition partition_fills_from (istride : T) (i_base : Z) (first : T) (from : nat)
    (cells : list T) : list fill :=
  imap (λ k c, Fill (compute_index c istride i_base) (compute_index first istride i_base)
                 (from + k))
    cells.

Definition partition_fills (istride : T) (i_base : Z) (cells_of : T * T → list T)
    (partition : T * T) : list fill :=
  partition_fills_from istride i_base (fst partition) 0 (cells_of partition).

(** The elements of all batches, in the order of the loops. *)
Definition fills_from (istride : T) (idist : Z) (cells_of : T * T → list T)
    (partitions : list (T * T)) (first_batch batches : nat) : list fill :=
  b ← seq first_batch batches;
  partition ← partitions;
  partition_fills istride (sz (Z.of_nat b * idist)) cells_of partition.

Definition fills (istride : T) (idist nbatch : Z) (cells_of : T * T → list T)
    (partitions : list (T * T)) : list fill :=
  fills_from istride idist cells_of partitions 0 (Z.to_nat nbatch).

Definition store_real (idata : buffer Tfloat) (f : fill) : buffer Tfloat :=
  let gen := mt19937_seed (fill_seed f) in
  <[fill_index f := unit_value of_integer divide (mt19937_draw gen (fill_position f))]> idata.

Definition store_interleaved (idata : buffer Tfloat) (f : fill) : buffer Tfloat :=
  let gen := mt19937_seed (fill_seed f) in
  let x := unit_value of_integer divide (mt19937_draw gen (2 * fill_position f)) in
  let y := unit_value of_integer divide (mt19937_draw gen (2 * fill_position f + 1)) in
  <[2 * fill_index f + 1 := y]> (<[2 * fill_index f := x]> idata).

Definition store_planar (data : buffer Tfloat * buffer Tfloat) (f : fill)
  : buffer Tfloat * buffer Tfloat :=
  let gen := mt19937_seed (fill_seed f) in
  let g1 := mt19937_draw gen (2 * fill_position f) in
  let g2 := mt19937_draw gen (2 * fill_position f + 1) in
  let re := if first_argument_first then g1 else g2 in
  let im := if first_argument_first then g2 else g1 in
  (<[fill_index f := unit_value of_integer divide re]> (fst data),
   <[fill_index f := unit_value of_integer divide im]> (snd data)).

(** A loop body that takes [draws] results of the generator for an element
    and stores them as [store] says. *)
Definition body_stores {D} (draws : nat)
    (body : T → Z → T → mt19937 * D → mt19937 * D) (store : D → fill → D) : Prop :=
  ∀ istride i_base index seed k data,
    body istride i_base index (mt19937_discard (draws * k) (mt19937_seed seed), data)
    = (mt19937_discard (draws * S k) (mt19937_seed seed),
       store data (Fill (compute_index index istride i_base) seed k)).

(** The buffers after the elements [fs] have been stored. *)
Definition stored (itype : Client.rocfft_array_type) (input : list (buffer Tfloat))
    (fs : list fill) : result (list (buffer Tfloat)) :=
  match itype with
  | Client.rocfft_array_type_complex_interleaved
  | Client.rocfft_array_type_hermitian_interleaved =>
      match input with
      | idata :: rest => Ok (fold_left store_interleaved fs idata :: rest)
      | [] => Undef
      end
  | Client.rocfft_array_type_complex_planar
  | Client.rocfft_array_type_hermitian_planar =>
      match input with
      | ireal :: iimag :: rest =>
          let data := fold_left store_planar fs (ireal, iimag) in
          Ok (fst data :: snd data :: rest)
      | _ => Undef
      end
  | Client.rocfft_array_type_real =>
      match input with
      | idata :: rest => Ok (fold_left store_real fs idata :: rest)
      | [] => Undef
      end
  | Client.rocfft_array_type_unset => Throw "Input layout format not yet supported"
  end.

End Fills.

(** The cells of a partition of one dimension, and of two. *)
Definition cells_1 (partition : Z * Z) : list Z :=
  seqZ (fst partition) (snd partition - fst partition).

Definition cells_2 (partition : (Z * Z) * (Z * Z)) : list (Z * Z) :=
  i0 ← seqZ (fst (fst partition)) (fst (snd partition) - fst (fst partition));
  i1 ← seqZ 0 (snd (snd partition));
  [(i0, i1)].

(** The lengths of rank 1 and 2 that are positive and whose number of
    elements, with the 2049 that [compute_partition_count] adds, fits
    [size_t]. *)
Definition valid_lengths (length : list Z) : Prop :=
  match length with
  | [l0] => 1 <= l0 ∧ l0 + 2049 < 2 ^ 64
  | [l0; l1] => 1 <= l0 ∧ 1 <= l1 ∧ l0 * l1 + 2049 < 2 ^ 64
  | _ => False
  end.

(** The elements stored for a descriptor of rank 1 or 2: those of the
    partitions of its lengths. *)
Definition descriptor_fills (openmp : option Z) (length istride : list Z) (idist nbatch : Z)
  : list fill :=
  match length, istride with
  | [l0], s0 :: _ =>
      match partition_rowmajor openmp l0 with
      | Ok partitions => fills s0 idist nbatch cells_1 partitions
      | _ => []
      end
  | [l0; l1], s0 :: s1 :: _ =>
      match partition_rowmajor openmp (l0, l1) with
      | Ok partitions => fills (s0, s1) idist nbatch cells_2 partitions
      | _ => []
      end
  | _, _ => []
  end.

(** The indices of all elements of one batch of such a descriptor, in
    row-major order. *)
Definition descriptor_indices (length istride : list Z) (i_base : Z) : list Z :=
  match length, istride with
  | [l0], s0 :: _ => (λ i, compute_index i s0 i_base) <$> seqZ 0 l0
  | [l0; l1], s0 :: s1 :: _ =>
      i0 ← seqZ 0 l0; i1 ← seqZ 0 l1; [compute_index (i0, i1) (s0, s1) i_base]
  | _, _ => []
  end.

(** Partitions that follow one another from [lo] to [hi], none empty. *)
Fixpoint contiguous (lo : Z) (partitions : list (Z * Z)) (hi : Z) : Prop :=
  match partitions with
  | [] => lo = hi
  | p :: rest => fst p = lo ∧ lo < snd p ∧ contiguous (snd p) rest hi
  end.

(** The same elements, each with a generator of its own that is seeded with
    the index of the element. *)
Definition own_index_fills (fs : list fill) : list fill :=
  (λ f, Fill (fill_index f) (fill_index f) 0) <$> fs.

(** The cells of a partition of three dimensions. *)
Definition cells_3 (partition : (Z * Z * Z) * (Z * Z * Z)) : list (Z * Z * Z) :=
  i0 ← seqZ (fst (fst (fst partition)))
         (fst (fst (snd partition)) - fst (fst (fst partition)));
  i1 ← seqZ 0 (snd (fst (snd partition)));
  i2 ← seqZ 0 (snd (snd partition));
  [(i0, i1, i2)].

(** The types [float] and [double]. *)
Definition float_of_integer (n : Z) : spec_float := binary_normalize 24 128 n 0 false.
Definition float_divide : spec_float → spec_float → spec_float := SFdiv 24 128.
Definition double_of_integer (n : Z) : spec_float := binary_normalize 53 1024 n 0 false.
Definition double_divide : spec_float → spec_float → spec_float := SFdiv 53 1024.

(** *** Notions used to state the effect of [impose_hermitian_symmetry] *)

(** The indices of the floating-point values that the rank 1 sets to zero in
    the batch [ibatch] of interleaved data: the imaginary parts of the element
    0 and, for an even length, of the element [istride[0] * (length[0] / 2)]. *)
Definition zeroed_interleaved (l0 s0 idist ibatch : Z) : list Z :=
  let base := sz (ibatch * idist) in
  (2 * (base + 0) + 1)
    :: (if even l0 then [2 * (base + sz (s0 * (l0 / 2))) + 1] else []).

(** The same for planar data, in the buffer of the imaginary parts. *)
Definition zeroed_planar (l0 s0 idist ibatch : Z) : list Z :=
  let base := sz (ibatch * idist) in
  base :: (if even l0 then [base + sz (s0 * (l0 / 2))] else []).

(** *** [copy_buffers]

    A pointer of the source into a host buffer, [Tval*] with [Tval] a
    floating-point type or [std::complex] of it, as the way to read and to
    write the element [e]: the element of a pointer to [std::complex<Tfloat>]
    has its real part at [2 * e] and its imaginary part at [2 * e + 1].  The
    input and the output buffers do not overlap. *)
Record pointer (Tfloat Tval : Type) := {
  load : buffer Tfloat → Z → Tval;
  store : Z → Tval → buffer Tfloat → buffer Tfloat
}.
Arguments load {Tfloat Tval} _ _ _.
Arguments store {Tfloat Tval} _ _ _ _.

Section CopyBuffers.

Context {Tfloat : Type} (zero : Tfloat).
Context (openmp : option Z).

Definition scalar_pointer : pointer Tfloat Tfloat :=
  {| load := read zero; store := λ e v data, <[e := v]> data |}.

Definition complex_pointer : pointer Tfloat (Tfloat * Tfloat) :=
  {| load := λ data e, (read zero data (2 * e), read zero data (2 * e + 1));
     store := λ e v data, <[2 * e + 1 := snd v]> (<[2 * e := fst v]> data) |}.

Section Loops.

Context {T : Type} `{RowMajor T} `{EqDecision T}.

(** The loop over the partitions, which run in parallel under OpenMP; they
    are taken in order here. *)
Fixpoint copy_partitions {S} (fuel : nat) (body : T → S → S) (partitions : list (T * T))
    (s : S) : option S :=
  match partitions with
  | [] => Some s
  | partition :: rest =>
      s ← do_while fuel body (fst partition) (snd partition) s;
      copy_partitions fuel body rest s
  end.

(** The loop [for(size_t b = 0; b < nbatch; b++, idx_base += idist,
    odx_base += odist)], for the [batches] iterations that remain. *)
Fixpoint copy_batches {S} (fuel : nat) (body : Z → Z → T → S → S) (idist odist : Z)
    (partitions : list (T * T)) (batches : nat) (idx_base odx_base : Z) (s : S) : option S :=
  match batches with
  | O => Some s
  | S batches =>
      s ← copy_partitions fuel (body idx_base odx_base) partitions s;
      copy_batches fuel body idist odist partitions batches
        (sz (idx_base + idist)) (sz (odx_base + odist)) s
  end.

(** The loops of the three functions, around the body [body] of the loop over
    the elements. *)
Definition copy_loops {S} (fuel : nat) (body : Z → Z → T → S → S) (whole_length : T)
    (nbatch idist odist : Z) (s : S) : run S :=
  match partition_rowmajor openmp whole_length with
  | Ok partitions =>
      match copy_batches fuel body idist odist partitions (Z.to_nat nbatch) 0 0 s with
      | Some s => Done (Ok s)
      | None => OutOfFuel
      end
  | Throw msg => Done (Throw msg)
  | Undef => Done Undef
  end.

(** [idx] and [odx] in the body of the loop over the elements. *)
Definition copy_idx (istride : T) (idx_base : Z) (index : T) : Z :=
  compute_index index istride idx_base.

Definition copy_odx (istride ostride : T) (idist odist idx_base odx_base : Z) (index : T)
  : Z :=
  let idx_equals_odx := bool_decide (istride = ostride) && bool_decide (idist = odist) in
  if idx_equals_odx then copy_idx istride idx_base index
  else compute_index index ostride odx_base.

(** [copy_buffers_1to1]: the input and the output have the same type. *)
Definition copy_buffers_1to1 {Tval} (ptr : pointer Tfloat Tval) (fuel : nat)
    (input output : buffer Tfloat) (whole_length : T) (nbatch : Z) (istride : T) (idist : Z)
    (ostride : T) (odist : Z) (ioffset ooffset : list Z) : run (buffer Tfloat) :=
  copy_loops fuel
    (λ idx_base odx_base index output,
       let idx := copy_idx istride idx_base index in
       let odx := copy_odx istride ostride idist odist idx_base odx_base index in
       store ptr (sz (odx + at_ ooffset 0)) (load ptr input (sz (idx + at_ ioffset 0))) output)
    whole_length nbatch idist odist output.

(** [copy_buffers_2to1]: the input is planar and the output is interleaved. *)
Definition copy_buffers_2to1 (fuel : nat) (input0 input1 output : buffer Tfloat)
    (whole_length : T) (nbatch : Z) (istride : T) (idist : Z) (ostride : T) (odist : Z)
    (ioffset ooffset : list Z) : run (buffer Tfloat) :=
  copy_loops fuel
    (λ idx_base odx_base index output,
       let idx := copy_idx istride idx_base index in
       let odx := copy_odx istride ostride idist odist idx_base odx_base index in
       store complex_pointer (sz (odx + at_ ooffset 0))
         (load scalar_pointer input0 (sz (idx + at_ ioffset 0)),
          load scalar_pointer input1 (sz (idx + at_ ioffset 1)))
         output)
    whole_length nbatch idist odist output.

(** [copy_buffers_1to2]: the input is interleaved and the output is planar. *)
Definition copy_buffers_1to2 (fuel : nat) (input output0 output1 : buffer Tfloat)
    (whole_length : T) (nbatch : Z) (istride : T) (idist : Z) (ostride : T) (odist : Z)
    (ioffset ooffset : list Z) : run (buffer Tfloat * buffer Tfloat) :=
  copy_loops fuel
    (λ idx_base odx_base index (output : buffer Tfloat * buffer Tfloat),
       let idx := copy_idx istride idx_base index in
       let odx := copy_odx istride ostride idist odist idx_base odx_base index in
       let v := load complex_pointer input (sz (idx + at_ ioffset 0)) in
       (store scalar_pointer (sz (odx + at_ ooffset 0)) (fst v) (fst output),
        store scalar_pointer (sz (odx + at_ ooffset 1)) (snd v) (snd output)))
    whole_length nbatch idist odist (output0, output1).

End Loops.

(** The rest of a function after a call that may not return. *)
Definition run_bind {A B} (r : run A) (f : A → run B) : run B :=
  match r with
  | Done (Ok a) => f a
  | Done (Throw msg) => Done (Throw msg)
  | Done Undef => Done Undef
  | Aborted => Aborted
  | OutOfFuel => OutOfFuel
  end.

Section Dispatch.

Context {T : Type} `{RowMajor T} `{EqDecision T}.

(** The loop [for(int idx = 0; idx < input.size(); ++idx)] of [copy_buffers],
    for the [n] iterations that remain. *)
Fixpoint copy_each (fuel : nat) (input : list (buffer Tfloat)) (length : T) (nbatch : Z)
    (istride : T) (idist : Z) (ostride : T) (odist : Z) (ioffset ooffset : list Z)
    (n : nat) (idx : Z) (output : list (buffer Tfloat)) : run (list (buffer Tfloat)) :=
  match n with
  | O => Done (Ok output)
  | S n =>
      match vget input idx, vget output idx with
      | Some i, Some o =>
          run_bind
            (copy_buffers_1to1 scalar_pointer fuel i o length nbatch istride idist
               ostride odist ioffset ooffset)
            (λ o,
               match vset output idx o with
               | Some output =>
                   copy_each fuel input length nbatch istride idist ostride odist
                     ioffset ooffset n (idx + 1) output
               | None => Done Undef
               end)
      | _, _ => Done Undef
      end
  end.

(** [copy_buffers] for an index type: the dispatch on the types.  The cases
    of the two precisions differ by the floating-point type only, which is
    [Tfloat] here. *)
Definition copy_buffers (fuel : nat) (input output : list (buffer Tfloat)) (length : T)
    (nbatch : Z) (itype : Client.rocfft_array_type) (istride : T) (idist : Z)
    (otype : Client.rocfft_array_type) (ostride : T) (odist : Z)
    (ioffset ooffset : list Z) : run (list (buffer Tfloat)) :=
  if decide (itype = otype) then
    match itype with
    | Client.rocfft_array_type_complex_interleaved
    | Client.rocfft_array_type_hermitian_interleaved =>
        match vget input 0, vget output 0 with
        | Some i, Some o =>
            run_bind
              (copy_buffers_1to1 complex_pointer fuel i o length nbatch istride idist
                 ostride odist ioffset ooffset)
              (λ o, Done (checked (vset output 0 o)))
        | _, _ => Done Undef
        end
    | Client.rocfft_array_type_real
    | Client.rocfft_array_type_complex_planar
    | Client.rocfft_array_type_hermitian_planar =>
        copy_each fuel input length nbatch istride idist ostride odist ioffset ooffset
          (List.length input) 0 output
    | Client.rocfft_array_type_unset => Done (Throw "Invalid data type")
    end
  else if bool_decide (itype = Client.rocfft_array_type_complex_interleaved
                       ∧ otype = Client.rocfft_array_type_complex_planar)
          || bool_decide (itype = Client.rocfft_array_type_hermitian_interleaved
                          ∧ otype = Client.rocfft_array_type_hermitian_planar)
  then
    match vget input 0, vget output 0, vget output 1 with
    | Some i, Some o0, Some o1 =>
        run_bind
          (copy_buffers_1to2 fuel i o0 o1 length nbatch istride idist ostride odist
             ioffset ooffset)
          (λ o, Done (checked (output ← vset output 0 (fst o); vset output 1 (snd o))))
    | _, _, _ => Done Undef
    end
  else if bool_decide (itype = Client.rocfft_array_type_complex_planar
                       ∧ otype = Client.rocfft_array_type_complex_interleaved)
          || bool_decide (itype = Client.rocfft_array_type_hermitian_planar
                          ∧ otype = Client.rocfft_array_type_hermitian_interleaved)
  then
    match vget input 0, vget input 1, vget output 0 with
    | Some i0, Some i1, Some o =>
        run_bind
          (copy_buffers_2to1 fuel i0 i1 o length nbatch istride idist ostride odist
             ioffset ooffset)
          (λ o, Done (checked (vset output 0 o)))
    | _, _, _ => Done Undef
    end
  else Done (Throw "Invalid input and output types.").

End Dispatch.

(** [copy_buffers] for the vectors of a descriptor: the dispatch on the
    rank. *)
Definition copy_buffers_vector (fuel : nat) (input output : list (buffer Tfloat))
    (length : list Z) (nbatch : Z) (itype : Client.rocfft_array_type) (istride : list Z)
    (idist : Z) (otype : Client.rocfft_array_type) (ostride : list Z) (odist : Z)
    (ioffset ooffset : list Z) : run (list (buffer Tfloat)) :=
  match length, istride, ostride with
  | [l0], s0 :: _, t0 :: _ =>
      copy_buffers fuel input output l0 nbatch itype s0 idist otype t0 odist ioffset ooffset
  | [l0; l1], s0 :: s1 :: _, t0 :: t1 :: _ =>
      copy_buffers fuel input output (l0, l1) nbatch itype (s0, s1) idist otype (t0, t1)
        odist ioffset ooffset
  | [l0; l1; l2], s0 :: s1 :: s2 :: _, t0 :: t1 :: t2 :: _ =>
      copy_buffers fuel input output (l0, l1, l2) nbatch itype (s0, s1, s2) idist otype
        (t0, t1, t2) odist ioffset ooffset
  | [_], _, _ | [_; _], _, _ | [_; _; _], _, _ => Done Undef
  | _, _, _ => Aborted
  end.

(** *** Notions used to state the effect of [copy_buffers] *)


End CopyBuffers.


(** The index in the input and the index in the output of every element of
    one batch of a descriptor, in row-major order. *)
Definition batch_cells (length istride ostride : list Z) (idx_base odx_base : Z)
  : list (Z * Z) :=
  match length, istride, ostride with
  | [l0], s0 :: _, t0 :: _ =>
      i0 ← seqZ 0 l0;
      [(compute_index i0 s0 idx_base, compute_index i0 t0 odx_base)]
  | [l0; l1], s0 :: s1 :: _, t0 :: t1 :: _ =>
      i0 ← seqZ 0 l0; i1 ← seqZ 0 l1;
      [(compute_index (i0, i1) (s0, s1) idx_base,
        compute_index (i0, i1) (t0, t1) odx_base)]
  | [l0; l1; l2], s0 :: s1 :: s2 :: _, t0 :: t1 :: t2 :: _ =>
      i0 ← seqZ 0 l0; i1 ← seqZ 0 l1; i2 ← seqZ 0 l2;
      [(compute_index (i0, i1, i2) (s0, s1, s2) idx_base,
        compute_index (i0, i1, i2) (t0, t1, t2) odx_base)]
  | _, _, _ => []
  end.

(** The same for all batches, batch after batch. *)
Definition copy_cells (length istride ostride : list Z) (idist odist nbatch : Z)
  : list (Z * Z) :=
  b ← seq 0 (Z.to_nat nbatch);
  batch_cells length istride ostride (sz (Z.of_nat b * idist)) (sz (Z.of_nat b * odist)).

End Oracle.
(** ** The array formats of the kernels ([library/src/device/kernels/array_format.h]) *)

Module ArrayFormat.

Definition is_complex_planar (type : Client.rocfft_array_type) : bool :=
  bool_decide (type = Client.rocfft_array_type_complex_planar)
  || bool_decide (type = Client.rocfft_array_type_hermitian_planar).

Definition is_complex_interleaved (type : Client.rocfft_array_type) : bool :=
  bool_decide (type = Client.rocfft_array_type_complex_interleaved)
  || bool_decide (type = Client.rocfft_array_type_hermitian_interleaved).

(** The memory that the pointers of a kernel point into, by the address of
    its cells of the real type; a cell that is not in the map is not
    allocated, and an access to it is undefined. *)
Abbreviation memory Treal := (gmap Z Treal).

Section Planar.

(** The real type of the precision, [real_type_t<PRECISION>]. *)
Context {Treal : Type}.

(** [struct planar]: the pointers to the array of the real parts and to the
    array of the imaginary parts. *)
Record planar := { R : Z; I : Z }.

(** [float2] and [double2] *)
Record complex := { x : Treal; y : Treal }.

(** [Handler<planar<...>, cbtype>::read]; the callbacks are not used. *)
Definition read (mem : memory Treal) (in_ : planar) (idx : Z) : option complex :=
  tx ← mem !! (R in_ + idx);
  ty ← mem !! (I in_ + idx);
  Some {| x := tx; y := ty |}.

(** [ptr[idx] = v] *)
Definition store (mem : memory Treal) (address : Z) (v : Treal) : option (memory Treal) :=
  if decide (is_Some (mem !! address)) then Some (<[address := v]> mem) else None.

(** [Handler<planar<...>, cbtype>::write] *)
Definition write (mem : memory Treal) (out : planar) (idx : Z) (v : complex)
  : option (memory Treal) :=
  mem ← store mem (R out + idx) (x v);
  store mem (I out + idx) (y v).

End Planar.

Arguments complex : clear implicits.

End ArrayFormat.

(** * Properties *)

(** ** Machine integers and vectors *)

Lemma sz_small z : is_sz z -> sz z = z.
Proof. unfold is_sz, sz. intros H. apply Z.mod_small. lia. Qed.

Lemma u32_small z : is_u32 z -> u32 z = z.
Proof. unfold is_u32, u32. intros H. apply Z.mod_small. lia. Qed.

Lemma sz_range z : is_sz (sz z).
Proof. unfold is_sz, sz. apply Z.mod_pos_bound. lia. Qed.

Lemma u32_range z : is_u32 (u32 z).
Proof. unfold is_u32, u32. apply Z.mod_pos_bound. lia. Qed.

Lemma vget_nat {A} (v : list A) (i : nat) : vget v (Z.of_nat i) = v !! i.
Proof.
  unfold vget. destruct (decide (0 <= Z.of_nat i)) as [_|H]; [|lia].
  by rewrite Nat2Z.id.
Qed.

Lemma vget_nat_succ {A} (v : list A) (i : nat) : vget v (Z.of_nat i + 1) = v !! S i.
Proof. replace (Z.of_nat i + 1) with (Z.of_nat (S i)) by lia. apply vget_nat. Qed.

Lemma vset_nat {A} (v : list A) (i : nat) (x : A) :
  (i < length v)%nat -> vset v (Z.of_nat i) x = Some (<[i := x]> v).
Proof.
  intros H. unfold vset.
  destruct (decide (0 <= Z.of_nat i < Z.of_nat (length v))) as [_|H']; [|lia].
  by rewrite Nat2Z.id.
Qed.

Lemma vget_Some_range {A} (v : list A) (i : Z) (x : A) :
  vget v i = Some x -> 0 <= i < vsize v.
Proof.
  unfold vget, vsize. destruct (decide (0 <= i)) as [Hi|]; [|done].
  intros H%lookup_lt_Some. lia.
Qed.

Lemma vget_is_Some {A} (v : list A) (i : Z) :
  0 <= i < vsize v -> is_Some (vget v i).
Proof.
  unfold vget, vsize. intros H. destruct (decide (0 <= i)); [|lia].
  apply lookup_lt_is_Some. lia.
Qed.


Lemma vback_last (v : list Z) : Client.vback v = last v.
Proof.
  unfold Client.vback, vsize. destruct v as [|x v]; [done|].
  replace (Z.of_nat (length (x :: v)) - 1) with (Z.of_nat (length v))
    by (simpl length; lia).
  rewrite vget_nat, last_lookup. done.
Qed.

(** ** The client parameter container *)

Section ClientFacts.
Import Client.




Lemma samestride_loop_total (a b : list Z) (n : nat) :
  ∀ i same, 0 <= i -> i + Z.of_nat n <= vsize a -> i + Z.of_nat n <= vsize b ->
    is_Some (samestride_loop a b i n same).
Proof.
  induction n as [|n IH]; intros i same Hi Ha Hb; simpl; [by eexists|].
  destruct (vget_is_Some a i) as [x ->]; [lia|].
  destruct (vget_is_Some b i) as [y ->]; [lia|]. simpl.
  apply IH; lia.
Qed.




End ClientFacts.



(** The validated real forward in-place request of length 8 with three
    batches: the input layout alone covers 28 reals (224 bytes), and the
    reported input buffer has the 240 bytes of the 15 complex outputs. *)
Example ibuffer_sizes_r2c_8 :
  Client.validate Client.params_r2c_8 = Some Client.params_r2c_8_validated ∧
  Client.ibuffer_sizes Client.params_r2c_8_validated = Some [240] ∧
  Client.scale_sizes (Client.isize Client.params_r2c_8_validated)
    (Client.var_size Client.rocfft_precision_double Client.rocfft_array_type_real) 0 1
  = Some [224].
Proof. by vm_compute. Qed.



Section StrideFacts.
Import Client.

(** The loop of [compute_stride] started at [start] leaves the strides from
    [start] on as they are and sets each earlier one from its successor. *)
Lemma stride_loop_spec (length : list Z) (dim : Z) (rcpadding : bool) (start : nat) :
  ∀ stride : list Z,
    (start < List.length length)%nat ->
    List.length stride = List.length length ->
    ∃ stride' : list Z,
      stride_loop start length stride dim rcpadding = Some stride' ∧
      List.length stride' = List.length length ∧
      (∀ j, (start <= j)%nat -> stride' !! j = stride !! j) ∧
      (∀ i, (i < start)%nat ->
         ∃ s l, stride' !! S i = Some s ∧ length !! S i = Some l ∧
                stride' !! i = Some (sz (s * lengthip1_of rcpadding dim i l))).
Proof.
  induction start as [|i IH]; intros stride Hlt Hlen.
  - exists stride. split_and!; [done..|]. intros i Hi. lia.
  - simpl. rewrite !vget_nat_succ.
    destruct (lookup_lt_is_Some_2 length (S i)) as [l Hl]; [lia|].
    destruct (lookup_lt_is_Some_2 stride (S i)) as [s Hs]; [lia|].
    rewrite Hl, Hs. simpl.
    rewrite vset_nat by lia. simpl.
    fold (lengthip1_of rcpadding dim i l).
    set (v := sz (s * lengthip1_of rcpadding dim i l)).
    destruct (IH (<[i := v]> stride)) as (stride' & Hrun & Hlen' & Hkeep & Hrel);
      [lia|by rewrite length_insert|].
    exists stride'. split_and!; [done..| |].
    + intros j Hj. rewrite Hkeep by lia. apply list_lookup_insert_ne. lia.
    + intros k Hk. destruct (decide (k = i)) as [->|Hne].
      * exists s, l. split_and!; [|done|].
        -- rewrite Hkeep by lia. rewrite list_lookup_insert_ne by lia. done.
        -- rewrite Hkeep by lia. apply list_lookup_insert_eq. lia.
      * apply Hrel. lia.
Qed.

(** [compute_stride] without given strides. *)
Lemma compute_stride_unspecified (length : list Z) (rcpadding : bool) :
  length ≠ [] ->
  ∃ stride : list Z,
    compute_stride length [] rcpadding = Some stride ∧
    List.length stride = List.length length ∧
    last stride = Some 1 ∧
    (∀ i, (S i < List.length length)%nat ->
       ∃ s l, stride !! S i = Some s ∧ length !! S i = Some l ∧
              stride !! i = Some (sz (s * lengthip1_of rcpadding (vsize length) i l))).
Proof.
  intros Hne. unfold compute_stride.
  assert (0 < List.length length)%nat as Hpos by (destruct length; [done|simpl; lia]).
  destruct (decide (vsize [] = 0)) as [_|]; [|done].
  replace (vsize length - 1) with (Z.of_nat (Nat.pred (List.length length)))
    by (unfold vsize; lia).
  rewrite vset_nat by (rewrite length_replicate; lia). simpl.
  destruct (decide (vsize [] < vsize length)) as [_|H]; [|unfold vsize in H; simpl in H; lia].
  replace (Z.to_nat (vsize length - 1 - vsize []))
    with (Nat.pred (List.length length)) by (unfold vsize; simpl; lia).
  destruct (stride_loop_spec length (vsize length) rcpadding (Nat.pred (List.length length))
              (<[Nat.pred (List.length length) := 1]> (replicate (List.length length) 0)))
    as (stride & Hrun & Hlen & Hkeep & Hrel);
    [lia|by rewrite length_insert, length_replicate|].
  exists stride. split_and!; [done..| |].
  - rewrite last_lookup, Hlen, Hkeep by lia.
    apply list_lookup_insert_eq. rewrite length_replicate. lia.
  - intros i Hi. apply Hrel. lia.
Qed.

End StrideFacts.
Section StrideFacts2.
Import Client.

Lemma list_prod_pos (v : list Z) : Forall (λ l, 1 <= l) v -> 1 <= list_prod v.
Proof. induction 1 as [|x v Hx _ IH]; simpl; nia. Qed.




End StrideFacts2.
Section StrideFacts3.
Import Client.





End StrideFacts3.
Section StrideFacts4.
Import Client.








End StrideFacts4.



Example compute_istride_r2c_3d :
  Client.istride <$> Client.compute_istride Client.params_r2c_3d = Some [40; 8; 1].
Proof. reflexivity. Qed.

(** ** The breakdown of a length into passes *)

Section BreakdownFacts.
Import KernelGen.

Lemma picks_divides (cnPerWI R c : Z) :
  1 <= cnPerWI -> 1 <= c ->
  picks cnPerWI R c = true ↔ Z.divide c R ∧ Z.divide c cnPerWI.
Proof.
  intros Hcn Hc. unfold picks.
  rewrite andb_true_iff, negb_true_iff, orb_false_iff, negb_false_iff.
  rewrite Z.ltb_ge, !Z.eqb_eq.
  assert (c ≠ 0) as Hc0 by lia.
  pose proof (Z.mod_divide R c Hc0) as HR.
  pose proof (Z.mod_divide cnPerWI c Hc0) as Hcn'.
  split; [tauto|]. intros [HdR Hdcn]. split_and!; [|tauto..].
  destruct Hdcn as [q Hq]. assert (1 <= q) by nia. nia.
Qed.

(** The loop of [pick_radix] returns the first candidate that passes the test. *)
Lemma pick_radix_first (cnPerWI R : Z) (candidates : list Z) :
  ∀ rad0, Exists (λ c, picks cnPerWI R c = true) candidates ->
    ∃ pre post,
      candidates = pre ++ pick_radix cnPerWI R candidates rad0 :: post ∧
      picks cnPerWI R (pick_radix cnPerWI R candidates rad0) = true ∧
      Forall (λ c, picks cnPerWI R c = false) pre.
Proof.
  induction candidates as [|c rest IH]; intros rad0 Hex; [by inversion Hex|].
  simpl. destruct (picks cnPerWI R c) eqn:Hc.
  - exists [], rest. unfold picks in Hc.
    apply andb_true_iff in Hc as [Hc1%negb_true_iff Hc2]. rewrite Hc1, Hc2.
    split_and!; [done| |constructor].
    unfold picks. by rewrite Hc1, Hc2.
  - assert (Exists (λ c, picks cnPerWI R c = true) rest) as Hex'.
    { inversion Hex; subst; [congruence|done]. }
    destruct (IH c Hex') as (pre & post & Heq & Hpick & Hpre).
    assert (pick_radix cnPerWI R rest c =
            (if (cnPerWI <? c) || negb (cnPerWI mod c =? 0)
             then pick_radix cnPerWI R rest c
             else if R mod c =? 0 then c else pick_radix cnPerWI R rest c)) as <-.
    { unfold picks in Hc. destruct (_ || _); [done|]. simpl in Hc. by rewrite Hc. }
    exists (c :: pre), post. split_and!; [by rewrite Heq at 1|done|by constructor].
Qed.

Lemma descending_split (pre post : list Z) (r : Z) :
  StronglySorted (λ a b, b <= a) (pre ++ r :: post) -> Forall (λ c, c <= r) post.
Proof.
  induction pre as [|a pre IH]; simpl; intros Hs.
  - by apply StronglySorted_inv in Hs as [_ H].
  - apply StronglySorted_inv in Hs as [Hs _]. auto.
Qed.

Lemma cRad_descending : StronglySorted (λ a b, b <= a) cRad.
Proof. unfold cRad. repeat (constructor; [|repeat constructor; lia]). constructor. Qed.

Lemma cRad_positive : Forall (λ c, 1 <= c) cRad.
Proof. unfold cRad. repeat constructor; lia. Qed.

(** The radix that the loop picks is the largest candidate that divides the
    remaining length and [cnPerWI]. *)
Lemma pick_radix_largest (cnPerWI R : Z) :
  1 <= cnPerWI -> largest_candidate cRad cnPerWI R (pick_radix cnPerWI R cRad 0).
Proof.
  intros Hcn.
  destruct (pick_radix_first cnPerWI R cRad 0) as (pre & post & Heq & Hpick & Hpre).
  { apply Exists_exists. exists 1. split; [unfold cRad; repeat constructor|].
    apply picks_divides; [lia..|]. split; apply Z.divide_1_l. }
  set (rad := pick_radix cnPerWI R cRad 0) in *.
  assert (rad ∈ cRad) as Hin by (rewrite Heq; apply elem_of_app; right; constructor).
  assert (1 <= rad) as Hpos by by apply (proj1 (Forall_forall _ _) cRad_positive).
  apply picks_divides in Hpick as [HR Hcn']; [|done..].
  split_and!; [done..|]. intros c Hc HcR Hccn.
  assert (1 <= c) as Hcpos by by apply (proj1 (Forall_forall _ _) cRad_positive).
  assert (picks cnPerWI R c = true) as Hcpick by by apply picks_divides.
  rewrite Heq in Hc. apply elem_of_app in Hc as [Hc|Hc].
  - apply (proj1 (Forall_forall _ _) Hpre) in Hc. congruence.
  - apply elem_of_cons in Hc as [->|Hc]; [lia|].
    pose proof cRad_descending as Hs. rewrite Heq in Hs.
    apply descending_split in Hs. by apply (proj1 (Forall_forall _ _) Hs).
Qed.


Lemma largest_candidate_cRad_pos (cnPerWI R rad : Z) :
  largest_candidate cRad cnPerWI R rad -> 1 <= rad.
Proof. intros [Hin _]. by apply (proj1 (Forall_forall _ _) cRad_positive). Qed.











End BreakdownFacts.



(** The length 16 of the table with [fft_MaxWorkGroupSize >= 256]: the passes
    have the radices of the table. *)
Example breakdown_table_16 :
  ∃ b, KernelGen.breakdown KernelGen.table_16 false 0 256 16 16 = KernelGen.Returned b ∧
       map KernelGen.radix (KernelGen.b_passes b) = [4; 4].
Proof. eexists. split; reflexivity. Qed.

(** The length 17, for which no candidate other than 1 divides the length:
    every iteration takes the radix 1 and leaves the remainder 17. *)
Example breakdown_17_does_not_return (ndebug : bool) (fuel : nat) :
  KernelGen.breakdown [] ndebug fuel 256 17 17 = KernelGen.OutOfFuel.
Proof.
  unfold KernelGen.breakdown. simpl.
  assert (∀ pid LS radices passes,
            KernelGen.generate_passes ndebug fuel 17 pid LS 17 radices passes
            = KernelGen.OutOfFuel) as ->; [|done].
  induction fuel as [|fuel IH]; intros pid LS radices passes; [done|].
  cbn [KernelGen.generate_passes].
  change (KernelGen.pick_radix 17 17 KernelGen.cRad 0) with 1.
  change (17 / 1) with 17. unfold KernelGen.assert.
  change (17 mod 1 =? 0) with true. change (1 <=? 17) with true.
  rewrite !orb_true_r. change (17 =? 1) with false. cbv iota. apply IH.
Qed.


(** ** The constructor of the Stockham kernel *)

Section KernelSizeFacts.
Import Stockham.

Lemma threads_per_transform_fold_range (length threads_per_block : Z) (factors ts : list Z) :
  ∀ acc, 1 <= acc <= Z.max 1 threads_per_block ->
    Forall (λ t, 2 <= t) ts ->
    1 <= fold_left (threads_per_transform_step length threads_per_block factors) ts acc
      <= Z.max 1 threads_per_block.
Proof.
  induction ts as [|t ts IH]; intros acc Hacc Hts; simpl; [done|].
  apply Forall_cons in Hts as [Ht Hts]. apply IH; [|done].
  unfold threads_per_transform_step.
  destruct (Z.ltb_spec threads_per_block t); [done|].
  destruct (_ && _); [lia|done].
Qed.

Lemma threads_per_transform_search_range (length threads_per_block : Z) (factors : list Z) :
  1 <= threads_per_transform_search length threads_per_block factors
    <= Z.max 1 threads_per_block.
Proof.
  apply threads_per_transform_fold_range; [lia|].
  apply Forall_forall. intros t Ht%elem_of_seqZ. lia.
Qed.

(** The loop that shrinks [batches_per_block] stops at the largest count, not
    above the initial one, whose threads fit the block. *)
Lemma shrink_batches_largest (tpt limit : Z) (n : nat) :
  1 <= tpt -> 0 <= limit -> tpt * Z.of_nat n < 2 ^ 32 ->
  let r := shrink_batches tpt limit n in
  0 <= r <= Z.of_nat n ∧ tpt * r <= limit ∧
  ∀ m, 0 <= m <= Z.of_nat n -> tpt * m <= limit -> m <= r.
Proof.
  intros Htpt Hlimit. induction n as [|n IH]; intros Hfit; simpl.
  - split_and!; lia.
  - rewrite u32_small by (unfold is_u32; lia).
    destruct (Z.ltb_spec limit (tpt * Z.of_nat (S n))) as [Hgt|Hle].
    + destruct IH as (Hr & Hok & Hmax); [lia|].
      split_and!; [lia..|]. intros m Hm Hfitm.
      apply Hmax; [|done]. 
      assert (m ≠ Z.of_nat (S n)) by (intros ->; lia). lia.
    + split_and!; lia.
Qed.

End KernelSizeFacts.

(** C3, as the code has it.  [transforms_per_block] is the largest count such
    that [threads_per_transform * transforms_per_block] does not exceed the
    thread limit of the block and
    [transforms_per_block * length * bytes_per_element] does not exceed the
    32 KiB of LDS, where an element takes 16 bytes, or 8 bytes when
    [half_lds] is set; with factors for a second dimension it is bounded by
    the length of that dimension as well.  The sizes are such that the
    32-bit products of the constructor do not wrap around. *)
Theorem transforms_per_block_largest (s : Stockham.StockhamGeneratorSpecs) :
  1 <= Stockham.length_ s < 2 ^ 28 ->
  0 <= Stockham.threads_per_transform s < 2 ^ 20 ->
  0 <= Stockham.threads_per_block s < 2 ^ 20 ->
  0 <= Stockham.length2d s ->
  Stockham.is_largest
    (Stockham.block_bound (Stockham.lds_bytes_per_element s) s (Stockham.StockhamKernel_new s))
    (Stockham.transforms_per_block (Stockham.StockhamKernel_new s)).
Proof.
  intros Hlen Htpt Hlimit Hl2.
  unfold Stockham.StockhamKernel_new, Stockham.is_largest, Stockham.block_bound.
  cbn [Stockham.transforms_per_block Stockham.specs Stockham.threads_per_transform
       Stockham.with_threads].
  set (tpt := if Stockham.threads_per_transform s =? 0 then _ else _).
  assert (1 <= tpt < 2 ^ 20) as Htpt'.
  { subst tpt. destruct (Z.eqb_spec (Stockham.threads_per_transform s) 0); [|lia].
    pose proof (threads_per_transform_search_range (Stockham.length_ s)
                  (Stockham.threads_per_block s) (Stockham.factors s)). lia. }
  set (bytes := if Stockham.half_lds s then _ else _).
  assert (bytes = Stockham.length_ s * Stockham.lds_bytes_per_element s ∧ 8 <= bytes)
    as [Hbytes Hbytes8].
  { subst bytes. unfold Stockham.lds_bytes_per_element, Stockham.BYTES_PER_ELEMENT.
    rewrite u32_small by (unfold is_u32; lia).
    destruct (Stockham.half_lds s).
    - change (16 / 2) with 8.
      replace (Stockham.length_ s * 16) with (Stockham.length_ s * 8 * 2) by lia.
      rewrite Z.div_mul by lia. lia.
    - lia. }
  set (bpb0 := Stockham.LDS_BYTE_LIMIT / bytes).
  assert (0 <= bpb0 <= 4096) as Hbpb0.
  { subst bpb0. unfold Stockham.LDS_BYTE_LIMIT. split.
    - apply Z.div_pos; lia.
    - apply Z.div_le_upper_bound; lia. }
  assert (∀ m, 0 <= m -> (m * bytes <= Stockham.LDS_BYTE_LIMIT ↔ m <= bpb0)) as Hlds.
  { intros m Hm. subst bpb0. split.
    - intros H. apply Z.div_le_lower_bound; lia.
    - intros H. pose proof (Z.mul_div_le Stockham.LDS_BYTE_LIMIT bytes ltac:(lia)).
      nia. }
  pose proof (shrink_batches_largest tpt (Stockham.threads_per_block s) (Z.to_nat bpb0)
                ltac:(lia) ltac:(lia) ltac:(nia)) as Hshrink.
  simpl in Hshrink. rewrite Z2Nat.id in Hshrink by lia.
  set (r := Stockham.shrink_batches tpt _ _) in *.
  destruct Hshrink as (Hr & Hrfit & Hrmax).
  set (r2 := match Stockham.factors2d s with [] => r | _ => _ end).
  assert (0 <= r2 <= r ∧ (Stockham.factors2d s ≠ [] -> r2 <= Stockham.length2d s)
          ∧ ∀ m, m <= r -> (Stockham.factors2d s ≠ [] -> m <= Stockham.length2d s) -> m <= r2)
    as (Hr2 & Hr2d & Hr2max).
  { subst r2. destruct (Stockham.factors2d s) as [|f fs].
    - split_and!; [lia..|done|auto].
    - split_and!; [lia..| |]; intros; [lia|].
      assert (m <= Stockham.length2d s) by auto. lia. }
  rewrite u32_small by (unfold is_u32; nia).
  rewrite (Z.mul_comm tpt r2), Z.div_mul by lia.
  split_and!; [lia|nia| |done|].
  - rewrite <- Z.mul_assoc, <- Hbytes. apply Hlds; lia.
  - intros m Hm (Hmfit & Hmlds & Hm2d).
    rewrite <- Z.mul_assoc, <- Hbytes in Hmlds. apply Hlds in Hmlds; [|done].
    apply Hr2max; [|done]. apply Hrmax; [lia|done].
Qed.

Lemma transforms_per_block_largest_witness :
  Stockham.is_largest
    (Stockham.block_bound (Stockham.lds_bytes_per_element Stockham.specs_4096)
       Stockham.specs_4096 (Stockham.StockhamKernel_new Stockham.specs_4096))
    (Stockham.transforms_per_block (Stockham.StockhamKernel_new Stockham.specs_4096)).
Proof.
  apply (transforms_per_block_largest Stockham.specs_4096); simpl; lia.
Defined.

(** C3, as the specification has it, with the 16 bytes of [BYTES_PER_ELEMENT]
    for each element: the kernel of length 4096 with [half_lds] runs one
    transform per block, whose 4096 elements of 16 bytes exceed 32 KiB. *)
Lemma transforms_per_block_not_full_elements :
  Stockham.transforms_per_block (Stockham.StockhamKernel_new Stockham.specs_4096) = 1 ∧
  ¬ Stockham.is_largest
      (Stockham.block_bound Stockham.BYTES_PER_ELEMENT Stockham.specs_4096
         (Stockham.StockhamKernel_new Stockham.specs_4096))
      (Stockham.transforms_per_block (Stockham.StockhamKernel_new Stockham.specs_4096)).
Proof.
  split; [reflexivity|].
  intros (_ & (_ & Hlds & _) & _). vm_compute in Hlds. by apply Hlds.
Qed.

(** ** The generated device function *)

Section TraceFacts.
Import Stockham.

Lemma trace_stmt_If (m : mode) (certain : bool) (prev : option bool)
    (c : Expression) (body : StatementList) :
  trace_stmt m certain prev (If c body) =
  match decided m c with
  | Some false => []
  | d => trace m (certain && bool_decide (d = Some true)) None body
  end.
Proof.
  simpl. destruct (decided m c) as [[|]|]; [|done|];
    set (certain' := certain && _);
    generalize (@None bool); induction body as [|s body IH]; intros p; simpl;
    try done; f_equal; apply IH.
Qed.

Lemma trace_stmt_Else (m : mode) (certain : bool) (prev : option bool)
    (body : StatementList) :
  trace_stmt m certain prev (Else body) =
  match prev with
  | Some true => []
  | d => trace m (certain && bool_decide (d = Some false)) None body
  end.
Proof.
  simpl. destruct prev as [[|]|]; [done| |];
    set (certain' := certain && _);
    generalize (@None bool); induction body as [|s body IH]; intros p; simpl;
    try done; f_equal; apply IH.
Qed.

Lemma trace_stmt_simple (m : mode) (certain : bool) (prev : option bool) (s : Statement) :
  simple s -> trace_stmt m certain prev s = [(certain, s)].
Proof. by destruct s. Qed.

Lemma simple_decision (m : mode) (s : Statement) : simple s -> decision_of m s = None.
Proof. by destruct s. Qed.

Lemma trace_simple (m : mode) (certain : bool) (l : StatementList) :
  Forall simple l -> ∀ prev, trace m certain prev l = map (pair certain) l.
Proof.
  induction 1 as [|s l Hs Hl IH]; intros prev; [done|].
  simpl. by rewrite trace_stmt_simple, IH.
Qed.

Lemma trace_stmt_prev (m : mode) (certain : bool) (prev prev' : option bool) (s : Statement) :
  not_else s -> trace_stmt m certain prev s = trace_stmt m certain prev' s.
Proof. by destruct s. Qed.

Lemma trace_prev (m : mode) (certain : bool) (prev prev' : option bool) (l : StatementList) :
  starts_plain l -> trace m certain prev l = trace m certain prev' l.
Proof.
  destruct l as [|s l]; [done|]. simpl. intros Hs.
  by rewrite (trace_stmt_prev m certain prev prev' s Hs).
Qed.

Lemma trace_app (m : mode) (certain : bool) (l1 l2 : StatementList) :
  starts_plain l2 ->
  ∀ prev, trace m certain prev (l1 ++ l2) = trace m certain prev l1 ++ trace m certain None l2.
Proof.
  intros Hl2. induction l1 as [|s l1 IH]; intros prev; simpl.
  - by apply trace_prev.
  - by rewrite IH, app_assoc.
Qed.

Lemma decided_any (c : Expression) : decided AnyBranch c = None.
Proof. done. Qed.

Lemma decision_of_any (s : Statement) : decision_of AnyBranch s = None.
Proof. by destruct s. Qed.

Lemma trace_any_app (certain : bool) (l1 l2 : StatementList) :
  trace AnyBranch certain None (l1 ++ l2) =
  trace AnyBranch certain None l1 ++ trace AnyBranch certain None l2.
Proof.
  induction l1 as [|s l1 IH]; simpl; [done|].
  by rewrite decision_of_any, IH, app_assoc.
Qed.

Lemma statements_app (l1 l2 : StatementList) :
  statements (l1 ++ l2) = statements l1 ++ statements l2.
Proof. unfold statements. by rewrite trace_any_app, map_app. Qed.

Lemma statements_simple (l : StatementList) : Forall simple l -> statements l = l.
Proof.
  intros Hl. unfold statements. rewrite trace_simple by done.
  rewrite map_map. simpl. apply map_id.
Qed.

Lemma Forall_flat_map {A B} (Q : B → Prop) (f : A → list B) (l : list A) :
  (∀ x, Forall Q (f x)) -> Forall Q (flat_map f l).
Proof.
  intros Hf. induction l as [|x l IH]; simpl; [constructor|].
  apply Forall_app. auto.
Qed.

Section AddWork.

Context (kernel : StockhamKernel).
Context (gen : Z → Z → Z → Z → StatementList).
Context (P : bool * Statement → Prop).
Hypothesis P_comment : ∀ c lines, P (c, CommentLines lines).
Hypothesis P_gen : ∀ h hr w dt, Forall (λ s, simple s ∧ ∀ c, P (c, s)) (gen h hr w dt).

Lemma gen_simple (h hr w dt : Z) : Forall simple (gen h hr w dt).
Proof. eapply Forall_impl; [apply P_gen|]. by intros s [? ?]. Qed.

Lemma gen_trace (m : mode) (certain : bool) (prev : option bool) (h hr w dt : Z) :
  Forall P (trace m certain prev (gen h hr w dt)).
Proof.
  rewrite trace_simple by apply gen_simple.
  apply Forall_fmap. eapply Forall_impl; [apply P_gen|]. intros s [_ H]. apply H.
Qed.

Lemma work_trace (m : mode) (certain : bool) (prev : option bool) (w : Z) (hs : list Z) :
  Forall P (trace m certain prev (flat_map (λ h, gen h 0 w 0) hs)).
Proof.
  rewrite trace_simple by (apply Forall_flat_map; intros; apply gen_simple).
  apply Forall_fmap, Forall_flat_map. intros h.
  eapply Forall_impl; [apply P_gen|]. intros s [_ H]. apply H.
Qed.

Lemma guarded_trace (m : mode) (certain : bool) (prev : option bool)
    (c : Expression) (body : StatementList) :
  (∀ certain' prev', Forall P (trace m certain' prev' body)) ->
  Forall P (trace_stmt m certain prev (If c body)).
Proof.
  intros Hbody. rewrite trace_stmt_If. destruct (decided m c) as [[|]|]; auto.
Qed.

(** Every statement that [add_work] emits is a comment or comes from the
    generator. *)
Lemma add_work_trace (m : mode) (certain : bool) (prev : option bool)
    (width : Z) (height : spec_float) (guard : bool) :
  Forall P (trace m certain prev (add_work kernel gen width height guard)).
Proof.
  unfold add_work.
  set (iheight := if _ && _ then _ else sf_floor height). clearbody iheight.
  set (work := flat_map _ (seqZ 0 iheight)).
  assert (∀ certain' prev', Forall P (trace m certain' prev' work)) as Hwork
    by (intros; apply work_trace).
  set (main := if guard then _ else work).
  assert (∀ prev', Forall P (trace m certain prev' main)) as Hmain.
  { intros prev'. subst main. destruct guard; [|apply Hwork].
    cbn [trace]. rewrite (trace_stmt_simple _ _ _ (CommentLines _)) by done.
    apply Forall_app. split; [by repeat constructor|].
    destruct (negb _); rewrite app_nil_r; by apply guarded_trace. }
  clearbody main. destruct (_ && _); [|apply Hmain].
  rewrite trace_app by done. apply Forall_app. split; [apply Hmain|].
  cbn [trace]. rewrite (trace_stmt_simple _ _ _ (CommentLines _)) by done.
  apply Forall_app. split; [by repeat constructor|].
  rewrite app_nil_r. apply guarded_trace. intros; apply gen_trace.
Qed.

End AddWork.

(** *** The check of the barriers is sound *)









Lemma trace_app_ex (m : mode) (certain : bool) (l1 l2 : StatementList) :
  ∀ prev, ∃ prev',
    trace m certain prev (l1 ++ l2) = trace m certain prev l1 ++ trace m certain prev' l2.
Proof.
  induction l1 as [|s l1 IH]; intros prev; simpl; [by eexists|].
  destruct (IH (decision_of m s)) as [prev' ->]. exists prev'. by rewrite app_assoc.
Qed.

(** *** The LDS accesses of the generators *)

Section GeneratorEvents.

Context (kernel : StockhamKernel).

Lemma load_lds_generator_events (component : Component) (h hr width dt : Z) :
  Forall (λ s, simple s ∧ ∀ certain, lds_event_of (certain, s) = Load component)
    (load_lds_generator kernel component h hr width dt).
Proof.
  unfold load_lds_generator. apply Forall_flat_map. intros w.
  destruct component; repeat constructor; by intros [|].
Qed.

Lemma store_lds_generator_events (component : Component) (cumheight h hr width dt : Z) :
  Forall (λ s, simple s ∧ ∀ certain, lds_event_of (certain, s) = Store component)
    (store_lds_generator kernel component cumheight h hr width dt).
Proof.
  unfold store_lds_generator. apply Forall_flat_map. intros w.
  destruct component; repeat constructor; by intros [|].
Qed.

Lemma apply_twiddle_generator_events (cumheight h hr width dt : Z) :
  Forall (λ s, simple s ∧ ∀ certain, lds_event_of (certain, s) = NoEvent)
    (apply_twiddle_generator kernel cumheight h hr width dt).
Proof.
  unfold apply_twiddle_generator. apply Forall_flat_map. intros w.
  repeat constructor; by intros [|].
Qed.

Lemma butterfly_generator_events (h hr width dt : Z) :
  Forall (λ s, simple s ∧ ∀ certain, lds_event_of (certain, s) = NoEvent)
    (butterfly_generator h hr width dt).
Proof. unfold butterfly_generator. repeat constructor; by intros [|]. Qed.

(** The events of the statements that [add_work] emits are those of the
    generator, and none for the comments. *)
Lemma add_work_events (gen : Z → Z → Z → Z → StatementList) (Q : lds_event → Prop)
    (m : mode) (certain : bool) (prev : option bool)
    (width : Z) (height : spec_float) (guard : bool) :
  Q NoEvent ->
  (∀ h hr w dt, Forall (λ s, simple s ∧ ∀ c, Q (lds_event_of (c, s))) (gen h hr w dt)) ->
  Forall Q (map lds_event_of (trace m certain prev (add_work kernel gen width height guard))).
Proof.
  intros Hq Hgen. apply Forall_fmap.
  apply (add_work_trace kernel gen (Q ∘ lds_event_of)).
  - intros [|] lines; exact Hq.
  - intros h hr w dt. eapply Forall_impl; [apply Hgen|]. intros s [? H]. split; [done|].
    intros c. apply H.
Qed.

End GeneratorEvents.

End TraceFacts.

Section HalfLdsBarriers.
Import Stockham.

Context (tiling : Tiling) (kernel : StockhamKernel) (float_to_string : spec_float → string).





End HalfLdsBarriers.



(** The first pass of the kernel of length 8: the X components of the four
    registers are stored and loaded, then the Y components, with a barrier
    after each group. *)
Example lds_events_kernel_8 :
  Stockham.lds_events true
    (Stockham.generate_pass (Stockham.base_tiling "sbrr") Stockham.kernel_8 (λ _, "2") 0)
  = [Stockham.NoEvent; Stockham.NoEvent; Stockham.Barrier; Stockham.NoEvent]
    ++ [Stockham.NoEvent] ++ replicate 4 (Stockham.Store Stockham.Component_X)
    ++ [Stockham.Barrier]
    ++ [Stockham.NoEvent] ++ replicate 4 (Stockham.Load Stockham.Component_X)
    ++ [Stockham.Barrier]
    ++ [Stockham.NoEvent] ++ replicate 4 (Stockham.Store Stockham.Component_Y)
    ++ [Stockham.Barrier]
    ++ [Stockham.NoEvent] ++ replicate 4 (Stockham.Load Stockham.Component_Y)
    ++ [Stockham.Barrier].
Proof. by vm_compute. Qed.

Section TwiddleFacts.
Import Stockham.

Lemma twiddle_updates_from_app (l1 l2 : list Statement) :
  ∀ st, twiddle_updates_from st (l1 ++ l2) =
        twiddle_updates_from st l1 ++ twiddle_updates_from (twiddle_final st l1) l2.
Proof.
  induction l1 as [|s l1 IH]; intros st; simpl; [done|].
  destruct (twiddle_step st s) as [st' out]. simpl. by rewrite IH, app_assoc.
Qed.

Lemma twiddle_neutral_updates (l : list Statement) :
  Forall twiddle_neutral l ->
  ∀ st, twiddle_updates_from st l = [] ∧ twiddle_final st l = st.
Proof.
  induction 1 as [|s l Hs _ IH]; intros st; simpl; [done|].
  rewrite (Hs st). simpl. apply IH.
Qed.

Lemma twiddle_updates_from_neutral_l (l1 l2 : list Statement) (st : twiddle_state) :
  Forall twiddle_neutral l1 ->
  twiddle_updates_from st (l1 ++ l2) = twiddle_updates_from st l2.
Proof.
  intros H. rewrite twiddle_updates_from_app.
  by destruct (twiddle_neutral_updates l1 H st) as [-> ->].
Qed.

Lemma twiddle_updates_from_neutral_r (l1 l2 : list Statement) (st : twiddle_state) :
  Forall twiddle_neutral l2 ->
  twiddle_updates_from st (l1 ++ l2) = twiddle_updates_from st l1.
Proof.
  intros H. rewrite twiddle_updates_from_app.
  destruct (twiddle_neutral_updates l2 H (twiddle_final st l1)) as [-> _].
  apply app_nil_r.
Qed.

Section TwiddleGenerators.

Context (kernel : StockhamKernel).

Let threads_per_transform := threads_per_transform (specs kernel).

Lemma apply_twiddle_generator_updates (cumheight h hr width dt : Z) (st : twiddle_state) :
  twiddle_updates_from st (apply_twiddle_generator kernel cumheight h hr width dt)
  = call_updates kernel cumheight h hr width dt.
Proof.
  unfold apply_twiddle_generator, call_updates. revert st.
  induction (seqZ 1 (width - 1)) as [|w ws IH]; intros st; [done|].
  cbn [flat_map map app]. 
  change (?a :: ?b :: ?c :: ?l) with ([a; b; c] ++ l).
  rewrite twiddle_updates_from_app, IH. done.
Qed.

Lemma apply_twiddle_generator_simple (cumheight h hr width dt : Z) :
  Forall simple (apply_twiddle_generator kernel cumheight h hr width dt).
Proof.
  eapply Forall_impl; [apply apply_twiddle_generator_events|]. by intros s [? _].
Qed.

(** The update of a call for the butterfly [b] is the one of the
    specification, when the 32-bit arithmetic of the generator does not wrap
    around. *)
Lemma call_updates_specified (cumheight h hr width dt b : Z) :
  register_block h hr = b ->
  dt + u32 (h * threads_per_transform) = b * threads_per_transform ->
  0 <= b -> b * width + width <= 2 ^ 32 ->
  1 <= cumheight -> 1 <= width -> cumheight + width <= 2 ^ 32 ->
  Forall2 (specified_update threads_per_transform cumheight width)
    (map (pair b) (seqZ 1 (width - 1)))
    (call_updates kernel cumheight h hr width dt).
Proof.
  intros Hb Hdt Hb0 Hreg HH HW HHW. unfold call_updates.
  apply Forall2_fmap, Forall_Forall2_diag, Forall_forall.
  intros w [Hw1 Hw2]%elem_of_seqZ. rewrite Hb. simpl.
  rewrite (u32_small (b * width + w)) by (unfold is_u32; nia).
  split_and!; [done..|]. intros env. unfold twiddle_index. simpl.
  rewrite (u32_small (cumheight - 1 + w - 1)) by (unfold is_u32; lia).
  rewrite (u32_small (width - 1)) by (unfold is_u32; lia).
  unfold threads_per_transform in *. rewrite <- Z.add_assoc, Hdt. lia.
Qed.

(** The statements of [add_work] without a guard, for a generator of simple
    statements. *)
Lemma statements_add_work (gen : Z → Z → Z → Z → StatementList)
    (width : Z) (height : spec_float) :
  (∀ h hr w dt, Forall simple (gen h hr w dt)) ->
  ∃ iheight (tail : bool) lines,
    butterflies kernel width height = seqZ 0 iheight ++ (if tail then [iheight] else []) ∧
    statements (add_work kernel gen width height false) =
    flat_map (λ h, gen h 0 width 0) (seqZ 0 iheight)
    ++ (if tail
        then CommentLines lines :: gen 0 iheight width (u32 (iheight * threads_per_transform))
        else []).
Proof.
  intros Hgen. unfold add_work, butterflies.
  set (iheight := if _ && _ then _ else sf_floor height). clearbody iheight.
  set (tail := _ && _). clearbody tail.
  exists iheight, tail, ["not enough threads, some threads do extra work"].
  split; [done|].
  assert (Forall simple (flat_map (λ h, gen h 0 width 0) (seqZ 0 iheight))) as Hwork
    by by apply Forall_flat_map.
  destruct tail.
  - rewrite statements_app, (statements_simple _ Hwork). f_equal.
    unfold statements. cbn [trace app]. rewrite trace_stmt_If, decided_any.
    rewrite (trace_simple _ _ _ (Hgen _ _ _ _)). cbn [trace_stmt map snd app].
    rewrite app_nil_r, map_map. simpl. by rewrite map_id.
  - rewrite app_nil_r. by apply statements_simple.
Qed.

(** The updates of the statements that [add_work] emits for
    [apply_twiddle_generator] are those of the specification, for the
    butterflies of the thread and the registers [1 .. width - 1] of each. *)
Lemma add_work_twiddle_specified (cumheight width : Z) (height : spec_float)
    (st : twiddle_state) :
  0 <= threads_per_transform ->
  1 <= cumheight -> 1 <= width -> cumheight + width <= 2 ^ 32 ->
  Forall (λ b, 0 <= b ∧ b * threads_per_transform < 2 ^ 32 ∧ b * width + width <= 2 ^ 32)
    (butterflies kernel width height) ->
  Forall2 (specified_update threads_per_transform cumheight width)
    (flat_map (λ b, map (pair b) (seqZ 1 (width - 1))) (butterflies kernel width height))
    (twiddle_updates_from st
       (statements (add_work kernel (apply_twiddle_generator kernel cumheight)
                      width height false))).
Proof.
  intros Htpt HH HW HHW Hbs.
  destruct (statements_add_work (apply_twiddle_generator kernel cumheight) width height)
    as (iheight & tail & lines & Hbfly & ->);
    [intros; apply apply_twiddle_generator_simple|].
  rewrite Hbfly in *. apply Forall_app in Hbs as [Hmain Htail].
  rewrite flat_map_app, twiddle_updates_from_app. apply Forall2_app.
  - clear Htail Hbfly. revert st.
    induction (seqZ 0 iheight) as [|b bs IH]; intros st; [constructor|].
    apply Forall_cons in Hmain as [(Hb0 & Hbt & Hbw) Hmain].
    cbn [flat_map]. rewrite twiddle_updates_from_app, apply_twiddle_generator_updates.
    apply Forall2_app; [|by apply IH].
    apply call_updates_specified; try done.
    rewrite u32_small by (unfold is_u32; nia). lia.
  - destruct tail; [|constructor].
    apply Forall_cons in Htail as [(Hb0 & Hbt & Hbw) _].
    cbn [flat_map twiddle_updates_from twiddle_step app]. rewrite app_nil_r.
    rewrite apply_twiddle_generator_updates.
    apply call_updates_specified; try done.
    + unfold register_block. destruct (Z.eqb_spec iheight 0); congruence.
    + rewrite Z.mul_0_l. rewrite (u32_small (iheight * _)) by (unfold is_u32; nia).
      unfold u32. rewrite Z.mod_0_l by lia. lia.
Qed.

End TwiddleGenerators.

End TwiddleFacts.

Section TwiddlePass.
Import Stockham.

Lemma list_prod_app (l1 l2 : list Z) : list_prod (l1 ++ l2) = list_prod l1 * list_prod l2.
Proof. induction l1 as [|x l1 IH]; simpl; [lia|]. rewrite IH. lia. Qed.

Lemma product_fold_exact (l : list Z) :
  Forall (λ f, 1 <= f) l ->
  ∀ acc, 1 <= acc -> acc * list_prod l < 2 ^ 32 ->
    fold_left (λ acc f, u32 (acc * f)) l acc = acc * list_prod l.
Proof.
  induction 1 as [|f l Hf Hl IH]; intros acc Hacc Hfit; simpl; [lia|].
  pose proof (list_prod_pos l Hl) as Hpos. simpl in Hf, Hfit.
  assert (1 <= acc * f) as Haf by nia.
  assert (acc * f * 1 <= acc * f * list_prod l) as Hle
    by (apply Z.mul_le_mono_nonneg_l; lia).
  rewrite u32_small by (unfold is_u32; lia).
  rewrite IH; [lia|lia|lia].
Qed.

(** Without wrap-around [product] is the product of the factors. *)
Lemma product_exact (l : list Z) :
  Forall (λ f, 1 <= f) l -> list_prod l < 2 ^ 32 -> product l = list_prod l.
Proof.
  intros Hl Hfit. unfold product. rewrite product_fold_exact; [lia|done|lia|lia].
Qed.

(** The cumulative height and the width of a pass, within the product of all
    factors. *)
Lemma pass_sizes (fs : list Z) (npass : nat) (width : Z) :
  fs !! npass = Some width ->
  Forall (λ f, 1 <= f) fs -> list_prod fs < 2 ^ 32 ->
  1 <= width ∧ 1 <= list_prod (take npass fs) ∧
  list_prod (take npass fs) + width <= 2 ^ 32 ∧
  product (take npass fs) = list_prod (take npass fs).
Proof.
  intros Hw Hfs Hfit.
  pose proof (Forall_lookup_1 _ _ _ _ Hfs Hw) as Hw1. simpl in Hw1.
  pose proof (list_prod_pos _ (Forall_take _ npass _ Hfs)) as Hh.
  pose proof (list_prod_pos _ (Forall_drop _ (S npass) _ Hfs)) as Hd.
  pose proof (take_drop_middle _ _ _ Hw) as Hsplit.
  apply (f_equal list_prod) in Hsplit. rewrite list_prod_app in Hsplit. simpl in Hsplit.
  set (H := list_prod (take npass fs)) in *.
  set (D := list_prod (drop (S npass) fs)) in *.
  assert (H + width <= H * width + 1) as Hsum by nia.
  assert (H * width * 1 <= H * width * D) as Hle
    by (apply Z.mul_le_mono_nonneg_l; nia).
  split_and!; [done..|lia|].
  apply product_exact; [by apply Forall_take|].
  assert (H * 1 <= H * (width * D)) by (apply Z.mul_le_mono_nonneg_l; nia). lia.
Qed.

Context (tiling : Tiling) (kernel : StockhamKernel) (float_to_string : spec_float → string).

Lemma neutral_trace_statements (l : StatementList) :
  neutral_trace l -> Forall twiddle_neutral (statements l).
Proof. intros H. unfold statements. apply Forall_fmap, H. Qed.

Lemma neutral_trace_app (l1 l2 : StatementList) :
  neutral_trace l1 -> neutral_trace l2 -> neutral_trace (l1 ++ l2).
Proof.
  intros H1 H2 certain prev.
  destruct (trace_app_ex AnyBranch certain l1 l2 prev) as [prev' ->].
  apply Forall_app. split; [apply H1|apply H2].
Qed.

Lemma neutral_trace_nil : neutral_trace [].
Proof. intros certain prev. constructor. Qed.

Lemma neutral_trace_simple (s : Statement) (l : StatementList) :
  simple s -> twiddle_neutral s -> neutral_trace l -> neutral_trace (s :: l).
Proof.
  intros Hs Hn Hl certain prev. cbn [trace]. rewrite trace_stmt_simple by done.
  constructor; [done|apply Hl].
Qed.

Lemma neutral_trace_If (c : Expression) (body l : StatementList) :
  neutral_trace body -> neutral_trace l -> neutral_trace (If c body :: l).
Proof.
  intros Hb Hl certain prev. cbn [trace]. rewrite trace_stmt_If, decided_any.
  apply Forall_app. split; [apply Hb|apply Hl].
Qed.

Lemma neutral_trace_Else (body l : StatementList) :
  neutral_trace body -> neutral_trace l -> neutral_trace (Else body :: l).
Proof.
  intros Hb Hl certain prev. cbn [trace]. rewrite trace_stmt_Else.
  apply Forall_app. split; [|apply Hl].
  destruct prev as [[|]|]; [constructor|apply Hb..].
Qed.

Lemma neutral_trace_add_work (gen : Z → Z → Z → Z → StatementList)
    (width : Z) (height : spec_float) (guard : bool) :
  (∀ h hr w dt, Forall (λ s, simple s ∧ twiddle_neutral s) (gen h hr w dt)) ->
  neutral_trace (add_work kernel gen width height guard).
Proof.
  intros Hgen certain prev.
  apply (add_work_trace kernel gen (λ cs, twiddle_neutral cs.2)).
  - intros c lines st. done.
  - intros h hr w dt. eapply Forall_impl; [apply Hgen|]. intros s [? ?]. done.
Qed.

Lemma load_lds_generator_neutral (component : Component) (h hr width dt : Z) :
  Forall (λ s, simple s ∧ twiddle_neutral s)
    (load_lds_generator kernel component h hr width dt).
Proof.
  unfold load_lds_generator. apply Forall_flat_map. intros w.
  destruct component; repeat constructor; by intros st.
Qed.

Lemma store_lds_generator_neutral (component : Component) (cumheight h hr width dt : Z) :
  Forall (λ s, simple s ∧ twiddle_neutral s)
    (store_lds_generator kernel component cumheight h hr width dt).
Proof.
  unfold store_lds_generator. apply Forall_flat_map. intros w.
  destruct component; repeat constructor; by intros st.
Qed.

Lemma butterfly_generator_neutral (h hr width dt : Z) :
  Forall (λ s, simple s ∧ twiddle_neutral s) (butterfly_generator h hr width dt).
Proof. unfold butterfly_generator. repeat constructor; by intros st. Qed.

Lemma store_half_component_neutral (npass : nat) (cumheight : Z) (component : Component) :
  neutral_trace (store_half_component kernel npass cumheight component).
Proof.
  unfold store_half_component.
  repeat first
    [ apply neutral_trace_app
    | apply neutral_trace_add_work
    | apply neutral_trace_simple; [done|by intros st|]
    | apply neutral_trace_nil
    | intros; apply store_lds_generator_neutral
    | intros; apply load_lds_generator_neutral ].
Qed.

(** The updates of a pass are those of its twiddle statements. *)
Lemma generate_pass_twiddle_updates (npass : nat) :
  (∀ w c, Forall twiddle_neutral (statements (large_twiddles_multiply tiling w c))) ->
  twiddle_updates (generate_pass tiling kernel float_to_string npass) =
  twiddle_updates_from twiddle_state_init
    (statements
       (if (0 <? npass)%nat
        then add_work kernel
               (apply_twiddle_generator kernel (product (take npass (factors (specs kernel)))))
               (default 0 (factors (specs kernel) !! npass))
               (pass_height kernel (default 0 (factors (specs kernel) !! npass))) false
        else [])).
Proof.
  intros Hlarge. unfold twiddle_updates, generate_pass.
  set (width := default 0 (factors (specs kernel) !! npass)).
  set (cumheight := product (take npass (factors (specs kernel)))).
  set (twiddle := if (0 <? npass)%nat then _ else []).
  rewrite !statements_app.
  rewrite twiddle_updates_from_neutral_l.
  2: { apply neutral_trace_statements.
       repeat first
         [ apply neutral_trace_simple; [done|by intros st|]
         | apply neutral_trace_If
         | apply neutral_trace_add_work
         | apply neutral_trace_nil
         | intros; apply load_lds_generator_neutral ]. }
  apply twiddle_updates_from_neutral_r.
  repeat apply Forall_app_2.
  - apply neutral_trace_statements, neutral_trace_add_work.
    intros; apply butterfly_generator_neutral.
  - destruct (npass =? _)%nat; [apply Hlarge|constructor].
  - apply neutral_trace_statements.
    apply neutral_trace_If; [|apply neutral_trace_Else; [|apply neutral_trace_nil]].
    + apply neutral_trace_simple; [done|by intros st|].
      apply neutral_trace_add_work. intros; apply store_lds_generator_neutral.
    + destruct (npass <? _)%nat; [|apply neutral_trace_nil].
      apply neutral_trace_app; apply store_half_component_neutral.
Qed.

End TwiddlePass.

(** C1. The pass 0 of the device function makes no twiddle multiplication.
    In a pass [npass >= 1] of width [width] and cumulative height
    [cumheight], the product of the widths of the earlier passes, the
    emitted code multiplies, for every butterfly [b] of the thread and every
    [w] in [[1, width)], the register [R[b * width + w]] by
    [twiddles[cumheight - 1 + (w - 1) + (width - 1) * (t mod cumheight)]],
    where [t = thread + b * threads_per_transform], and makes no other twiddle
    multiplication.  The factors are positive and the 32-bit arithmetic of the
    generator does not wrap around; the statements that the tiling adds for
    the large twiddle table leave [W] and [t] alone. *)
Theorem twiddle_multiplications (tiling : Stockham.Tiling) (kernel : Stockham.StockhamKernel)
    (float_to_string : spec_float → string) (npass : nat) (width : Z) :
  let fs := Stockham.factors (Stockham.specs kernel) in
  let tpt := Stockham.threads_per_transform (Stockham.specs kernel) in
  let bs := Stockham.butterflies kernel width (Stockham.pass_height kernel width) in
  fs !! npass = Some width ->
  Forall (λ f, 1 <= f) fs -> list_prod fs < 2 ^ 32 -> 0 <= tpt ->
  Forall (λ b, 0 <= b ∧ b * tpt < 2 ^ 32 ∧ b * width + width <= 2 ^ 32) bs ->
  (∀ w c, Forall Stockham.twiddle_neutral
            (Stockham.statements (Stockham.large_twiddles_multiply tiling w c))) ->
  Forall2 (Stockham.specified_update tpt (list_prod (take npass fs)) width)
    (match npass with
     | O => []
     | S _ => flat_map (λ b, map (pair b) (seqZ 1 (width - 1))) bs
     end)
    (Stockham.twiddle_updates (Stockham.generate_pass tiling kernel float_to_string npass)).
Proof.
  intros fs tpt bs Hw Hfs Hfit Htpt Hbs Hlarge.
  rewrite generate_pass_twiddle_updates by done. fold fs. rewrite Hw. simpl default.
  destruct npass as [|n]; [constructor|].
  destruct (pass_sizes fs (S n) width Hw Hfs Hfit) as (Hw1 & Hh1 & Hsum & ->).
  change (0 <? S n)%nat with true. cbv iota.
  by apply add_work_twiddle_specified.
Qed.

(** The second pass of the kernel of length 8, of width 2 and cumulative
    height 4, for the two butterflies of a thread. *)
Lemma twiddle_multiplications_witness :
  Forall2 (Stockham.specified_update 2 (list_prod (take 1 [4; 2])) 2)
    (flat_map (λ b, map (pair b) (seqZ 1 (2 - 1)))
       (Stockham.butterflies Stockham.kernel_8 2
          (Stockham.pass_height Stockham.kernel_8 2)))
    (Stockham.twiddle_updates
       (Stockham.generate_pass (Stockham.base_tiling "sbrr") Stockham.kernel_8 (λ _, "2") 1)).
Proof.
  apply (twiddle_multiplications (Stockham.base_tiling "sbrr") Stockham.kernel_8
           (λ _, "2") 1 2).
  - reflexivity.
  - simpl. repeat constructor; lia.
  - vm_compute. reflexivity.
  - vm_compute. discriminate.
  - replace (Stockham.butterflies _ _ _) with [0; 1] by (vm_compute; reflexivity).
    repeat constructor; simpl; lia.
  - intros w c. simpl. constructor.
Defined.

Example twiddle_updates_kernel_8 :
  Stockham.twiddle_updates
    (Stockham.generate_pass (Stockham.base_tiling "sbrr") Stockham.kernel_8 (λ _, "2") 0) = [] ∧
  Stockham.twiddle_updates
    (Stockham.generate_pass (Stockham.base_tiling "sbrr") Stockham.kernel_8 (λ _, "2") 1)
  = [(Stockham.Lit 1, Stockham.Lit 1,
      Stockham.twiddle_index Stockham.kernel_8 4 0 2 0 1);
     (Stockham.Lit 3, Stockham.Lit 3,
      Stockham.twiddle_index Stockham.kernel_8 4 1 2 0 1)].
Proof. split; by vm_compute. Qed.

(** ** The cache of compiled kernels *)

Section CacheFacts.
Import RTC.




End CacheFacts.


(** ** Properties of the test input *)

Section HermitianFacts.

Context {Tfloat : Type}.
Context (zero : Tfloat) (neg : Tfloat → Tfloat).



Lemma batches_none (body : Z → Oracle.buffer Tfloat → result (Oracle.buffer Tfloat))
    (nbatch : Z) (data : Oracle.buffer Tfloat) :
  nbatch <= 0 → Oracle.batches body (seqZ 0 nbatch) data = Ok data.
Proof.
  intros Hn. unfold seqZ. by replace (Z.to_nat nbatch) with 0%nat by lia.
Qed.

Lemma seqZ_first (nbatch : Z) :
  1 <= nbatch → seqZ 0 nbatch = 0 :: seqZ 1 (nbatch - 1).
Proof.
  intros Hn. replace nbatch with (Z.succ (nbatch - 1)) at 1 by lia.
  rewrite seqZ_cons by lia. f_equal. f_equal; lia.
Qed.




End HermitianFacts.


(** With no batch the function returns, whatever the rank. *)
Example impose_hermitian_symmetry_no_batch :
  Oracle.impose_hermitian_symmetry (S754_zero false) SFopp [∅; ∅] [4; 4] [4; 1] 16 0
  = Ok [∅; ∅].
Proof. reflexivity. Qed.

(** Interleaved data of length 4: the imaginary parts of the elements 0 and 2
    become 0. *)
Example impose_hermitian_symmetry_interleaved_4 :
  Oracle.impose_hermitian_symmetry 0 Z.opp
    [list_to_map [(0, 10); (1, 11); (2, 20); (3, 21); (4, 30); (5, 31); (6, 40); (7, 41)]]
    [4] [1] 4 1
  = Ok [list_to_map [(0, 10); (1, 0); (2, 20); (3, 21); (4, 30); (5, 0); (6, 40); (7, 41)]].
Proof. by vm_compute. Qed.
(** *** The generator *)

(** The value that the C++ standard requires of the 10000th call of a
    default-constructed [std::mt19937], whose seed is 5489. *)
Example mt19937_10000th :
  Oracle.mt19937_draw (Oracle.mt19937_seed 5489) (Z.to_nat 9999) = 4123659995.
Proof. by vm_compute. Qed.

Lemma mt19937_discard_succ (n : nat) (gen : Oracle.mt19937) :
  Oracle.mt19937_discard (S n) gen
  = snd (Oracle.mt19937_next (Oracle.mt19937_discard n gen)).
Proof. revert gen. induction n as [|n IH]; intros gen; [done|]. simpl. by rewrite <-IH. Qed.

Lemma mt19937_next_discard (n : nat) (gen : Oracle.mt19937) :
  Oracle.mt19937_next (Oracle.mt19937_discard n gen)
  = (Oracle.mt19937_draw gen n, Oracle.mt19937_discard (S n) gen).
Proof.
  rewrite mt19937_discard_succ. unfold Oracle.mt19937_draw.
  by destruct (Oracle.mt19937_next _).
Qed.

(** *** The loops of [set_input] *)

Section Loops.

Context {Tfloat : Type} (of_integer : Z → Tfloat) (divide : Tfloat → Tfloat → Tfloat).
Context (first_argument_first : bool).
Context {T : Type} `{Oracle.RowMajor T}.

Lemma do_while_visited {S} (fuel : nat) (body : T → S → S) (index length : T) (s : S)
    (cells : list T) :
  Oracle.visited fuel index length = Some cells →
  Oracle.do_while fuel body index length s = Some (fold_left (λ s c, body c s) cells s).
Proof.
  revert index s cells. induction fuel as [|fuel IH]; intros index s cells; [done|].
  simpl. destruct (Oracle.increment_rowmajor index length) as [[] index'].
  - destruct (Oracle.visited fuel index' length) as [rest|] eqn:Hrest; [|done].
    intros [= <-]. simpl. by apply IH.
  - by intros [= <-].
Qed.

Lemma do_while_out_of_fuel {S} (fuel : nat) (body : T → S → S) (index length : T) (s : S) :
  Oracle.visited fuel index length = None →
  Oracle.do_while fuel body index length s = None.
Proof.
  revert index s. induction fuel as [|fuel IH]; intros index s; [done|].
  simpl. destruct (Oracle.increment_rowmajor index length) as [[] index']; [|done].
  destruct (Oracle.visited fuel index' length) eqn:Hrest; [done|].
  intros _. by apply IH.
Qed.

Lemma body_real_stores :
  Oracle.body_stores 1 (Oracle.body_real of_integer divide) (Oracle.store_real of_integer divide).
Proof.
  intros istride i_base index seed k data. unfold Oracle.body_real, Oracle.store_real.
  rewrite !Nat.mul_1_l, mt19937_next_discard. done.
Qed.

Lemma body_interleaved_stores :
  Oracle.body_stores 2 (Oracle.body_interleaved of_integer divide)
    (Oracle.store_interleaved of_integer divide).
Proof.
  intros istride i_base index seed k data.
  unfold Oracle.body_interleaved, Oracle.store_interleaved.
  rewrite mt19937_next_discard, mt19937_next_discard. simpl Oracle.fill_position.
  by replace (2 * S k)%nat with (S (S (2 * k))) by lia;
     replace (2 * k + 1)%nat with (S (2 * k)) by lia.
Qed.

Lemma body_planar_stores :
  Oracle.body_stores 2 (Oracle.body_planar of_integer divide first_argument_first)
    (Oracle.store_planar of_integer divide first_argument_first).
Proof.
  intros istride i_base index seed k [ireal iimag].
  unfold Oracle.body_planar, Oracle.store_planar.
  rewrite mt19937_next_discard, mt19937_next_discard. simpl Oracle.fill_position.
  replace (2 * S k)%nat with (S (S (2 * k))) by lia.
  replace (2 * k + 1)%nat with (S (2 * k)) by lia.
  by destruct first_argument_first.
Qed.

Section Body.

Context {D : Type} (draws : nat).
Context (body : T → Z → T → Oracle.mt19937 * D → Oracle.mt19937 * D).
Context (store : D → Oracle.fill → D).
Hypothesis Hbody : Oracle.body_stores draws body store.

Lemma fold_body_stores (istride : T) (i_base : Z) (first : T) (cells : list T) (k : nat)
    (data : D) :
  let seed := Oracle.compute_index first istride i_base in
  fold_left (λ s c, body istride i_base c s) cells
    (Oracle.mt19937_discard (draws * k) (Oracle.mt19937_seed seed), data)
  = (Oracle.mt19937_discard (draws * (k + length cells)) (Oracle.mt19937_seed seed),
     fold_left store (Oracle.partition_fills_from istride i_base first k cells) data).
Proof.
  intros seed. revert k data. induction cells as [|c cells IH]; intros k data.
  - simpl. by rewrite Nat.add_0_r.
  - simpl fold_left at 1. rewrite Hbody, IH.
    unfold Oracle.partition_fills_from. rewrite imap_cons. simpl.
    rewrite Nat.add_0_r. f_equal; [f_equal; f_equal; lia|].
    f_equal. apply imap_ext. intros j c' _. simpl. f_equal. lia.
Qed.

Lemma fill_partition_stores (fuel : nat) (istride : T) (i_base : Z)
    (cells_of : T * T → list T) (partition : T * T) (data : D) :
  Oracle.visited fuel (fst partition) (snd partition) = Some (cells_of partition) →
  Oracle.fill_partition fuel body istride i_base partition data
  = Some (fold_left store (Oracle.partition_fills istride i_base cells_of partition) data).
Proof.
  intros Hcells. unfold Oracle.fill_partition.
  rewrite (do_while_visited _ _ _ _ _ _ Hcells).
  pose proof (fold_body_stores istride i_base (fst partition) (cells_of partition) 0 data)
    as Hfold.
  rewrite Nat.mul_0_r in Hfold. simpl in Hfold. by rewrite Hfold.
Qed.

Lemma fill_partitions_stores (fuel : nat) (istride : T) (i_base : Z)
    (cells_of : T * T → list T) (partitions : list (T * T)) (data : D) :
  (∀ partition, partition ∈ partitions →
     Oracle.visited fuel (fst partition) (snd partition) = Some (cells_of partition)) →
  Oracle.fill_partitions fuel body istride i_base partitions data
  = Some (fold_left store
            (partition ← partitions; Oracle.partition_fills istride i_base cells_of partition)
            data).
Proof.
  revert data. induction partitions as [|partition rest IH]; intros data Hcells; [done|].
  simpl. rewrite (fill_partition_stores _ _ _ cells_of) by (apply Hcells; left).
  simpl. rewrite IH by (intros p Hp; apply Hcells; by right).
  by rewrite fold_left_app.
Qed.

Lemma fill_batches_stores (fuel : nat) (istride : T) (idist : Z)
    (cells_of : T * T → list T) (partitions : list (T * T)) (batches first_batch : nat)
    (data : D) :
  (∀ partition, partition ∈ partitions →
     Oracle.visited fuel (fst partition) (snd partition) = Some (cells_of partition)) →
  Oracle.fill_batches fuel body istride idist partitions batches
    (sz (Z.of_nat first_batch * idist)) data
  = Some (fold_left store
            (Oracle.fills_from istride idist cells_of partitions first_batch batches) data).
Proof.
  intros Hcells. revert first_batch data.
  induction batches as [|batches IH]; intros first_batch data; [done|].
  simpl. rewrite (fill_partitions_stores _ _ _ cells_of) by done. simpl.
  replace (sz (sz (Z.of_nat first_batch * idist) + idist))
    with (sz (Z.of_nat (S first_batch) * idist)).
  - rewrite IH. unfold Oracle.fills_from. simpl. by rewrite fold_left_app.
  - unfold sz. rewrite Z.add_mod_idemp_l by lia. f_equal. lia.
Qed.

End Body.

End Loops.

(** *** The partitions and the cells of one and two dimensions *)

Lemma increment_base_more (index length : Z) :
  0 <= index → index + 1 < length → length < 2 ^ 64 →
  Oracle.increment_base index length = (true, index + 1).
Proof.
  intros Hi Hl Hfit. unfold Oracle.increment_base.
  rewrite (sz_small (length - 1)), (sz_small (index + 1)) by (unfold is_sz; lia).
  by rewrite (proj2 (Z.ltb_lt _ _)) by lia.
Qed.

Lemma increment_base_last (index length : Z) :
  1 <= length → index = length - 1 → length < 2 ^ 64 →
  Oracle.increment_base index length = (false, 0).
Proof.
  intros Hl -> Hfit. unfold Oracle.increment_base.
  rewrite (sz_small (length - 1)) by (unfold is_sz; lia).
  by rewrite Z.ltb_irrefl.
Qed.

Lemma visited_1 (fuel : nat) (first last : Z) :
  0 <= first < last → last < 2 ^ 64 → last - first <= Z.of_nat fuel →
  Oracle.visited fuel first last = Some (seqZ first (last - first)).
Proof.
  revert first. induction fuel as [|fuel IH]; intros first Hfirst Hfit Hfuel; [lia|].
  cbn [Oracle.visited Oracle.increment_rowmajor Oracle.row_major_1].
  destruct (decide (first + 1 < last)) as [Hmore|Hlast].
  - rewrite increment_base_more by lia. rewrite IH by lia. simpl.
    replace (last - first) with (Z.succ (last - (first + 1))) by lia.
    rewrite (seqZ_cons first) by lia. rewrite Z.pred_succ. done.
  - rewrite increment_base_last by lia.
    by replace (last - first) with 1 by lia.
Qed.

Lemma visited_2 (fuel : nat) (i0 i1 last l1 : Z) :
  0 <= i0 < last → last < 2 ^ 64 → 0 <= i1 < l1 → l1 < 2 ^ 64 →
  (l1 - i1) + (last - i0 - 1) * l1 <= Z.of_nat fuel →
  Oracle.visited fuel (i0, i1) (last, l1)
  = Some ((j ← seqZ i1 (l1 - i1); [(i0, j)])
          ++ (i ← seqZ (i0 + 1) (last - i0 - 1); j ← seqZ 0 l1; [(i, j)])).
Proof.
  revert i0 i1. induction fuel as [|fuel IH]; intros i0 i1 Hi0 Hlast Hi1 Hl1 Hfuel; [nia|].
  cbn [Oracle.visited Oracle.increment_rowmajor Oracle.row_major_2].
  unfold Oracle.increment_rowmajor_2. cbn [fst snd].
  destruct (decide (i1 + 1 < l1)) as [Hmore1|Hlast1].
  - rewrite increment_base_more by lia. rewrite IH by lia. simpl.
    replace (l1 - i1) with (Z.succ (l1 - (i1 + 1))) by lia.
    rewrite (seqZ_cons i1) by lia. rewrite Z.pred_succ. done.
  - rewrite (increment_base_last i1) by lia.
    replace (l1 - i1) with 1 by lia.
    destruct (decide (i0 + 1 < last)) as [Hmore0|Hlast0].
    + rewrite increment_base_more by lia. rewrite IH by nia. simpl.
      replace (last - i0 - 1) with (Z.succ (last - (i0 + 1) - 1)) by lia.
      rewrite (seqZ_cons (i0 + 1)) by lia. rewrite Z.pred_succ.
      rewrite bind_cons, Z.sub_0_r. done.
    + rewrite increment_base_last by lia.
      by replace (last - i0 - 1) with 0 by lia.
Qed.

Lemma fmap_bind_list {A B C} (g : B → C) (f : A → list B) (l : list A) :
  g <$> (l ≫= f) = l ≫= (λ x, g <$> f x).
Proof.
  induction l as [|x l IH]; [done|].
  by rewrite !bind_cons, fmap_app, IH.
Qed.

Lemma bind_bind_list {A B C} (f : A → list B) (g : B → list C) (l : list A) :
  (l ≫= f) ≫= g = l ≫= (λ x, f x ≫= g).
Proof.
  induction l as [|x l IH]; [done|].
  by rewrite !bind_cons, bind_app, IH.
Qed.

Lemma partition_loop_contiguous (n : nat) (cur size : Z) :
  0 <= cur → 1 <= size → cur + Z.of_nat n * size < 2 ^ 64 →
  Oracle.contiguous cur (Oracle.partition_loop n cur size) (cur + Z.of_nat n * size).
Proof.
  revert cur. induction n as [|n IH]; intros cur Hcur Hsize Hfit; [simpl; lia|].
  cbn [Oracle.partition_loop Oracle.contiguous fst snd].
  rewrite (sz_small (cur + size)) by (unfold is_sz; nia).
  split_and!; [done|lia|].
  replace (cur + Z.of_nat (S n) * size) with (cur + size + Z.of_nat n * size) by lia.
  apply IH; lia.
Qed.

Lemma set_back_second_contiguous (ret : list (Z * Z)) (lo hi length : Z) :
  ret ≠ [] → Oracle.contiguous lo ret hi → hi <= length →
  Oracle.contiguous lo (Oracle.set_back_second ret length) length.
Proof.
  revert lo. induction ret as [|p ret IH]; intros lo Hne Hret Hhi; [done|].
  destruct Hret as (Hp & Hlo & Hrest).
  destruct ret as [|q ret].
  - simpl in *. lia.
  - change (Oracle.set_back_second (p :: q :: ret) length)
      with (p :: Oracle.set_back_second (q :: ret) length).
    split_and!; [done..|]. by apply IH.
Qed.

Lemma contiguous_cells (partitions : list (Z * Z)) (lo hi : Z) :
  Oracle.contiguous lo partitions hi →
  lo <= hi ∧ partitions ≫= Oracle.cells_1 = seqZ lo (hi - lo).
Proof.
  revert lo. induction partitions as [|p rest IH]; intros lo Hcont.
  - simpl in Hcont. subst. by rewrite Z.sub_diag.
  - destruct Hcont as (Hp & Hlo & Hrest). destruct (IH _ Hrest) as [Hle Hcells].
    split; [lia|]. rewrite bind_cons, Hcells. unfold Oracle.cells_1. rewrite Hp.
    replace (hi - lo) with ((snd p - lo) + (hi - snd p)) by lia.
    rewrite seqZ_app by lia. do 2 f_equal. lia.
Qed.

Lemma contiguous_bounds (partitions : list (Z * Z)) (lo hi : Z) :
  Oracle.contiguous lo partitions hi →
  Forall (λ p, lo <= fst p ∧ fst p < snd p ∧ snd p <= hi) partitions.
Proof.
  revert lo. induction partitions as [|p rest IH]; intros lo Hcont; [constructor|].
  destruct Hcont as (Hp & Hlo & Hrest).
  destruct (contiguous_cells _ _ _ Hrest) as [Hle _].
  constructor; [lia|].
  eapply Forall_impl; [by apply IH|]. intros q. simpl. lia.
Qed.

Lemma partition_base_contiguous (length num_parts : Z) :
  1 <= length → length < 2 ^ 64 → 1 <= num_parts →
  ∃ partitions,
    Oracle.partition_base length num_parts = Ok partitions ∧
    Oracle.contiguous 0 partitions length.
Proof.
  intros Hlength Hfit Hparts. unfold Oracle.partition_base.
  set (n := Z.min length num_parts).
  assert (1 <= n <= length) as Hn by lia.
  rewrite (proj2 (Z.eqb_neq n 0)) by lia.
  eexists; split; [done|].
  assert (1 <= length / n) as Hsize by (apply Z.div_le_lower_bound; lia).
  assert (n * (length / n) <= length) as Hdiv by (apply Z.mul_div_le; lia).
  apply (set_back_second_contiguous _ _ (0 + Z.of_nat (Z.to_nat n) * (length / n))).
  - destruct (Z.to_nat n) eqn:Hnat; [lia|done].
  - apply partition_loop_contiguous; lia.
  - lia.
Qed.

Lemma compute_partition_count_pos {T} `{Oracle.CountIters T} (openmp : option Z) (length : T) :
  0 <= Oracle.count_iters length → Oracle.count_iters length + 2049 < 2 ^ 64 →
  1 <= Oracle.compute_partition_count openmp length.
Proof.
  intros Hiters Hfit. unfold Oracle.compute_partition_count.
  destruct openmp as [procs|]; [|done].
  pose proof (sz_range procs) as Hprocs. unfold is_sz in Hprocs.
  destruct (Z.min 8 (sz procs) =? 0) eqn:Hhw; [done|].
  apply Z.eqb_neq in Hhw.
  rewrite (sz_small (Oracle.count_iters length + 2048 + 1)) by (unfold is_sz; lia).
  assert (1 <= (Oracle.count_iters length + 2048 + 1) / 2048)
    by (apply Z.div_le_lower_bound; lia).
  lia.
Qed.

(** *** [set_input] *)

Section SetInputFacts.

Context {Tfloat : Type} (of_integer : Z → Tfloat) (divide : Tfloat → Tfloat → Tfloat).
Context (openmp : option Z) (first_argument_first : bool).

Lemma set_input_stores {T} `{Oracle.RowMajor T} (fuel : nat)
    (input : list (Oracle.buffer Tfloat)) (itype : Client.rocfft_array_type)
    (whole_length istride : T) (idist nbatch : Z) (cells_of : T * T → list T)
    (partitions : list (T * T)) :
  Oracle.partition_rowmajor openmp whole_length = Ok partitions →
  (∀ partition, partition ∈ partitions →
     Oracle.visited fuel (fst partition) (snd partition) = Some (cells_of partition)) →
  Oracle.set_input of_integer divide openmp first_argument_first fuel input itype
    whole_length istride idist nbatch
  = Oracle.Done
      (Oracle.stored of_integer divide first_argument_first itype input
         (Oracle.fills istride idist nbatch cells_of partitions)).
Proof.
  intros Hparts Hcells. unfold Oracle.set_input, Oracle.stored, Oracle.fills.
  rewrite Hparts.
  pose proof (λ D draws body store Hbody,
                @fill_batches_stores T _ _ D draws body store Hbody fuel istride idist
                  cells_of partitions (Z.to_nat nbatch) 0) as Hfill.
  simpl in Hfill.
  destruct itype.
  - destruct input as [|idata rest]; [done|]. simpl.
    by rewrite (Hfill _ _ _ _ (body_interleaved_stores of_integer divide)).
  - destruct input as [|ireal [|iimag rest]]; [done..|]. simpl.
    rewrite (Hfill _ _ _ _
               (body_planar_stores of_integer divide first_argument_first)) by done.
    unfold Oracle.finish, vset. simpl length. rewrite decide_True by lia. done.
  - destruct input as [|idata rest]; [done|]. simpl.
    by rewrite (Hfill _ _ _ _ (body_real_stores of_integer divide)).
  - destruct input as [|idata rest]; [done|]. simpl.
    by rewrite (Hfill _ _ _ _ (body_interleaved_stores of_integer divide)).
  - destruct input as [|ireal [|iimag rest]]; [done..|]. simpl.
    rewrite (Hfill _ _ _ _
               (body_planar_stores of_integer divide first_argument_first)) by done.
    unfold Oracle.finish, vset. simpl length. rewrite decide_True by lia. done.
  - done.
Qed.

Lemma partition_rowmajor_1_contiguous (l0 : Z) :
  1 <= l0 → l0 + 2049 < 2 ^ 64 →
  ∃ partitions,
    Oracle.partition_rowmajor openmp l0 = Ok partitions ∧
    Oracle.contiguous 0 partitions l0.
Proof.
  intros Hl0 Hfit. apply partition_base_contiguous; [lia..|].
  apply compute_partition_count_pos; unfold Oracle.count_iters, Oracle.count_iters_1; lia.
Qed.

Lemma partition_rowmajor_2_contiguous (l0 l1 : Z) :
  1 <= l0 → 1 <= l1 → l0 * l1 + 2049 < 2 ^ 64 →
  ∃ partitions,
    Oracle.partition_rowmajor openmp (l0, l1)
    = Ok (map (λ p : Z * Z, ((fst p, 0), (snd p, l1))) partitions) ∧
    Oracle.contiguous 0 partitions l0.
Proof.
  intros Hl0 Hl1 Hfit.
  destruct (partition_base_contiguous l0 (Oracle.compute_partition_count openmp (l0, l1)))
    as (partitions & Hparts & Hcont); [nia..| |].
  - apply compute_partition_count_pos;
      unfold Oracle.count_iters, Oracle.count_iters_2; simpl;
      rewrite sz_small by (unfold is_sz; nia); nia.
  - exists partitions. split; [|done].
    cbn [Oracle.partition_rowmajor Oracle.row_major_2]. unfold Oracle.partition_rowmajor_2.
    simpl. by rewrite Hparts.
Qed.

Lemma fill_index_partition_fills {T} `{Oracle.RowMajor T} (istride : T) (i_base : Z)
    (cells_of : T * T → list T) (partition : T * T) :
  Oracle.fill_index <$> Oracle.partition_fills istride i_base cells_of partition
  = (λ c, Oracle.compute_index c istride i_base) <$> cells_of partition.
Proof.
  unfold Oracle.partition_fills, Oracle.partition_fills_from.
  rewrite fmap_imap. by rewrite <-imap_const.
Qed.

Lemma fill_index_fills {T} `{Oracle.RowMajor T} (istride : T) (idist nbatch : Z)
    (cells_of : T * T → list T) (partitions : list (T * T)) :
  Oracle.fill_index <$> Oracle.fills istride idist nbatch cells_of partitions
  = b ← seq 0 (Z.to_nat nbatch);
    (λ c, Oracle.compute_index c istride (sz (Z.of_nat b * idist)))
      <$> (partitions ≫= cells_of).
Proof.
  unfold Oracle.fills, Oracle.fills_from. rewrite fmap_bind_list.
  apply list_bind_ext; [|done]. intros b.
  rewrite !fmap_bind_list. apply list_bind_ext; [|done]. intros partition.
  apply fill_index_partition_fills.
Qed.

(** C8. For a descriptor of rank 1 or 2 with positive lengths, [set_input]
    returns once every loop over the elements has as many iterations as the
    descriptor has elements, and the buffers are those in which the elements
    [descriptor_fills] have been stored: in each batch, the first axis is cut
    into the partitions of [partition_rowmajor], one generator is seeded for
    each partition with the linear index of its first element, and the
    element number [k] of the partition in row-major order takes the result
    number [k] of that generator for real data, and the results [2 * k] and
    [2 * k + 1] for complex data.  The indices stored are those of all elements
    of the descriptor, batch after batch and in row-major order.  The buffers
    are a function of the descriptor, of the number of processors under OpenMP
    and, for planar data, of the order in which the compiler evaluates the two
    arguments. *)
Theorem set_input_seeded_per_partition (fuel : nat) (input : list (Oracle.buffer Tfloat))
    (itype : Client.rocfft_array_type) (length istride : list Z) (idist nbatch : Z) :
  Oracle.valid_lengths length → vsize length <= vsize istride →
  list_prod length <= Z.of_nat fuel →
  Oracle.set_input_vector of_integer divide openmp first_argument_first fuel input itype
    length istride idist nbatch
  = Oracle.Done
      (Oracle.stored of_integer divide first_argument_first itype input
         (Oracle.descriptor_fills openmp length istride idist nbatch)) ∧
  Oracle.fill_index <$> Oracle.descriptor_fills openmp length istride idist nbatch
  = b ← seq 0 (Z.to_nat nbatch);
    Oracle.descriptor_indices length istride (sz (Z.of_nat b * idist)).
Proof.
  intros Hvalid Hstrides Hfuel. unfold vsize in Hstrides.
  destruct length as [|l0 [|l1 [|l2 length]]]; try done; simpl in Hvalid, Hfuel, Hstrides.
  - destruct istride as [|s0 istride]; [simpl in Hstrides; lia|].
    destruct Hvalid as [Hl0 Hfit].
    destruct (partition_rowmajor_1_contiguous l0) as (partitions & Hparts & Hcont);
      [done..|].
    pose proof (contiguous_bounds _ _ _ Hcont) as Hbounds.
    unfold Oracle.set_input_vector, Oracle.descriptor_fills, Oracle.descriptor_indices.
    rewrite Hparts. split.
    + apply set_input_stores; [done|].
      intros [first last] Hp. rewrite Forall_forall in Hbounds.
      specialize (Hbounds _ Hp). simpl in Hbounds. apply visited_1; simpl; lia.
    + rewrite fill_index_fills. destruct (contiguous_cells _ _ _ Hcont) as [_ ->].
      by rewrite Z.sub_0_r.
  - destruct istride as [|s0 [|s1 istride]]; [simpl in Hstrides; lia..|].
    destruct Hvalid as (Hl0 & Hl1 & Hfit).
    destruct (partition_rowmajor_2_contiguous l0 l1) as (partitions & Hparts & Hcont);
      [done..|].
    pose proof (contiguous_bounds _ _ _ Hcont) as Hbounds.
    unfold Oracle.set_input_vector, Oracle.descriptor_fills, Oracle.descriptor_indices.
    rewrite Hparts. split.
    + apply set_input_stores; [done|].
      intros p [[first last] [-> Hp]]%list_elem_of_fmap. rewrite Forall_forall in Hbounds.
      specialize (Hbounds _ Hp). simpl in Hbounds.
      unfold Oracle.cells_2. cbn [fst snd].
      rewrite visited_2 by nia.
      rewrite Z.sub_0_r.
      replace (last - first) with (Z.succ (last - first - 1)) by lia.
      rewrite (seqZ_cons first) by lia. rewrite Z.pred_succ, bind_cons.
      replace (Z.succ first) with (first + 1) by lia.
      by replace (Z.succ (last - first - 1) - 1) with (last - first - 1) by lia.
    + rewrite fill_index_fills. apply list_bind_ext; [|done]. intros b.
      rewrite list_fmap_bind.
      rewrite (list_bind_ext _
                 (λ p, Oracle.cells_1 p ≫= λ i0, seqZ 0 l1 ≫= λ i1, [(i0, i1)])
                 partitions partitions); [|by intros p|done].
      rewrite <-bind_bind_list.
      destruct (contiguous_cells _ _ _ Hcont) as [_ ->]. rewrite Z.sub_0_r.
      rewrite fmap_bind_list. apply list_bind_ext; [|done]. intros i0.
      by rewrite fmap_bind_list.
Qed.

End SetInputFacts.

(** A descriptor of two rows of two real elements, in double precision. *)
Lemma set_input_seeded_per_partition_witness :
  Oracle.set_input_vector Oracle.double_of_integer Oracle.double_divide None true 4 [∅]
    Client.rocfft_array_type_real [2; 2] [2; 1] 4 1
  = Oracle.Done
      (Oracle.stored Oracle.double_of_integer Oracle.double_divide true
         Client.rocfft_array_type_real [∅]
         (Oracle.descriptor_fills None [2; 2] [2; 1] 4 1)).
Proof.
  apply (set_input_seeded_per_partition Oracle.double_of_integer Oracle.double_divide
           None true 4 [∅] Client.rocfft_array_type_real [2; 2] [2; 1] 4 1).
  - unfold Oracle.valid_lengths. lia.
  - unfold vsize. simpl. lia.
  - simpl. lia.
Defined.

(** The elements of that descriptor: one generator, seeded with 0, gives the
    four values. *)
Example descriptor_fills_2_2 :
  Oracle.descriptor_fills None [2; 2] [2; 1] 4 1
  = [Oracle.Fill 0 0 0; Oracle.Fill 1 0 1; Oracle.Fill 2 0 2; Oracle.Fill 3 0 3].
Proof. by vm_compute. Qed.

(** C8, as stated, does not hold: for two real elements of stride 1 in double
    precision, without OpenMP, the element of index 1 has the second result of
    the generator seeded with 0, which is 2546248239, and not the first result
    of a generator seeded with 1, which is 1791095845. *)
Lemma set_input_not_seeded_by_own_index :
  let input :=
    Oracle.set_input_vector Oracle.double_of_integer Oracle.double_divide None true 2 [∅]
      Client.rocfft_array_type_real [2] [1] 2 1 in
  let fs := Oracle.descriptor_fills None [2] [1] 2 1 in
  fs = [Oracle.Fill 0 0 0; Oracle.Fill 1 0 1] ∧
  Oracle.mt19937_draw (Oracle.mt19937_seed 0) 1 = 2546248239 ∧
  Oracle.mt19937_draw (Oracle.mt19937_seed 1) 0 = 1791095845 ∧
  input = Oracle.Done
            (Oracle.stored Oracle.double_of_integer Oracle.double_divide true
               Client.rocfft_array_type_real [∅] fs) ∧
  input ≠ Oracle.Done
            (Oracle.stored Oracle.double_of_integer Oracle.double_divide true
               Client.rocfft_array_type_real [∅] (Oracle.own_index_fills fs)).
Proof.
  split_and!; [by vm_compute..|].
  intros Heq.
  apply (f_equal (λ r, match r with
                       | Oracle.Done (Ok [idata]) => idata !! 1
                       | _ => None
                       end)) in Heq.
  vm_compute in Heq. discriminate.
Qed.

(** Under OpenMP the input depends on the number of processors as well: with
    2047 real elements, the element of index 1023 is the 1024th of the
    generator seeded with 0 on one processor, and the first of the generator
    seeded with 1023 on two. *)
Example set_input_depends_on_processors :
  Oracle.descriptor_fills (Some 1) [2047] [1] 2047 1 !! 1023%nat
  = Some (Oracle.Fill 1023 0 1023) ∧
  Oracle.descriptor_fills (Some 2) [2047] [1] 2047 1 !! 1023%nat
  = Some (Oracle.Fill 1023 1023 0) ∧
  Oracle.set_input_vector Oracle.double_of_integer Oracle.double_divide (Some 1)
    true (Z.to_nat 2047) [∅] Client.rocfft_array_type_real [2047] [1] 2047 1
  ≠ Oracle.set_input_vector Oracle.double_of_integer Oracle.double_divide (Some 2)
      true (Z.to_nat 2047) [∅] Client.rocfft_array_type_real [2047] [1] 2047 1.
Proof.
  split_and!; [by vm_compute..|].
  intros Heq.
  apply (f_equal (λ r, match r with
                       | Oracle.Done (Ok [idata]) => idata !! 1023
                       | _ => None
                       end)) in Heq.
  vm_compute in Heq. discriminate.
Qed.

(** For planar data the input depends on the order in which the compiler
    evaluates the two arguments of the constructor of [std::complex]. *)
Example set_input_depends_on_argument_order :
  Oracle.set_input_vector Oracle.double_of_integer Oracle.double_divide None
    true 1 [∅; ∅] Client.rocfft_array_type_complex_planar [1] [1] 1 1
  ≠ Oracle.set_input_vector Oracle.double_of_integer Oracle.double_divide None
      false 1 [∅; ∅] Client.rocfft_array_type_complex_planar [1] [1] 1 1.
Proof.
  intros Heq.
  apply (f_equal (λ r, match r with
                       | Oracle.Done (Ok [ireal; iimag]) => ireal !! 0
                       | _ => None
                       end)) in Heq.
  vm_compute in Heq. discriminate.
Qed.
(** *** [set_input] for the rank 3 *)

Lemma visited_3 (fuel : nat) (i0 i1 i2 last l1 l2 : Z) :
  0 <= i0 < last → last < 2 ^ 64 → 0 <= i1 < l1 → l1 < 2 ^ 64 → 0 <= i2 < l2 → l2 < 2 ^ 64 →
  (l2 - i2) + (l1 - i1 - 1) * l2 + (last - i0 - 1) * (l1 * l2) <= Z.of_nat fuel →
  Oracle.visited fuel (i0, i1, i2) (last, l1, l2)
  = Some ((k ← seqZ i2 (l2 - i2); [(i0, i1, k)])
          ++ (j ← seqZ (i1 + 1) (l1 - i1 - 1); k ← seqZ 0 l2; [(i0, j, k)])
          ++ (i ← seqZ (i0 + 1) (last - i0 - 1); j ← seqZ 0 l1; k ← seqZ 0 l2; [(i, j, k)])).
Proof.
  revert i0 i1 i2.
  induction fuel as [|fuel IH]; intros i0 i1 i2 Hi0 Hlast Hi1 Hl1 Hi2 Hl2 Hfuel;
    assert (0 <= (l1 - i1 - 1) * l2) as Hrows by (apply Z.mul_nonneg_nonneg; lia);
    assert (0 <= l1 * l2) as Hplane by (apply Z.mul_nonneg_nonneg; lia);
    assert (0 <= (last - i0 - 1) * (l1 * l2)) as Hplanes
      by (apply Z.mul_nonneg_nonneg; lia); [lia|].
  cbn [Oracle.visited Oracle.increment_rowmajor Oracle.row_major_3].
  unfold Oracle.increment_rowmajor_3. cbn [fst snd].
  destruct (decide (i2 + 1 < l2)) as [Hmore2|Hlast2].
  - rewrite increment_base_more by lia. rewrite IH by nia. simpl.
    replace (l2 - i2) with (Z.succ (l2 - (i2 + 1))) by lia.
    rewrite (seqZ_cons i2) by lia. rewrite Z.pred_succ. done.
  - rewrite (increment_base_last i2) by lia.
    replace (l2 - i2) with 1 by lia.
    destruct (decide (i1 + 1 < l1)) as [Hmore1|Hlast1].
    + rewrite increment_base_more by lia. rewrite IH by nia. simpl.
      replace (l1 - i1 - 1) with (Z.succ (l1 - (i1 + 1) - 1)) by lia.
      rewrite (seqZ_cons (i1 + 1)) by lia. rewrite Z.pred_succ.
      rewrite bind_cons, Z.sub_0_r. by rewrite <-app_assoc.
    + rewrite (increment_base_last i1) by lia.
      replace (l1 - i1 - 1) with 0 by lia.
      destruct (decide (i0 + 1 < last)) as [Hmore0|Hlast0].
      * rewrite increment_base_more by lia. rewrite IH by nia. simpl.
        replace (last - i0 - 1) with (Z.succ (last - (i0 + 1) - 1)) by lia.
        rewrite (seqZ_cons (i0 + 1)) by lia. rewrite Z.pred_succ.
        rewrite !Z.sub_0_r.
        replace (l1 - 0 - 1) with (l1 - 1) by lia.
        rewrite bind_cons.
        rewrite (seqZ_first l1) by lia. rewrite (bind_cons _ 0).
        replace (Z.succ (i0 + 1)) with (i0 + 1 + 1) by lia.
        change (0 + 1) with 1. change (Z.of_nat 0 + i2) with i2.
        by rewrite <-!app_assoc.
      * rewrite increment_base_last by lia.
        by replace (last - i0 - 1) with 0 by lia.
Qed.

Section SetInputRank3.

Context {Tfloat : Type} (of_integer : Z → Tfloat) (divide : Tfloat → Tfloat → Tfloat).
Context (openmp : option Z) (first_argument_first : bool).

Lemma partition_rowmajor_3_contiguous (l0 l1 l2 : Z) :
  1 <= l0 → 1 <= l1 → 1 <= l2 → l0 * l1 * l2 + 2049 < 2 ^ 64 →
  ∃ partitions,
    Oracle.partition_rowmajor openmp (l0, l1, l2)
    = Ok (map (λ p : Z * Z, ((fst p, 0, 0), (snd p, l1, l2))) partitions) ∧
    Oracle.contiguous 0 partitions l0.
Proof.
  intros Hl0 Hl1 Hl2 Hfit.
  assert (1 <= l0 * l1) as H01 by nia.
  assert (l0 * l1 <= l0 * l1 * l2) as H012 by nia.
  assert (l0 <= l0 * l1) as H0 by nia.
  destruct (partition_base_contiguous l0
              (Oracle.compute_partition_count openmp (l0, l1, l2)))
    as (partitions & Hparts & Hcont); [lia..| |].
  - apply compute_partition_count_pos;
      unfold Oracle.count_iters, Oracle.count_iters_3; simpl;
      rewrite (sz_small (l0 * l1)) by (unfold is_sz; lia);
      rewrite sz_small by (unfold is_sz; lia); lia.
  - exists partitions. split; [|done].
    cbn [Oracle.partition_rowmajor Oracle.row_major_3]. unfold Oracle.partition_rowmajor_3.
    simpl. by rewrite Hparts.
Qed.

(** X1. For a descriptor of rank 3 with positive lengths, [set_input] returns
    once every loop over the elements has as many iterations as the descriptor
    has elements.  The first axis is cut into the partitions of
    [partition_rowmajor]; in each batch one generator is seeded for each
    partition with the linear index of its first element and serves the
    elements of the partition in row-major order; the indices stored are those
    of all elements of the descriptor, batch after batch and in row-major
    order. *)
Theorem set_input_rank_3 (fuel : nat) (input : list (Oracle.buffer Tfloat))
    (itype : Client.rocfft_array_type) (l0 l1 l2 s0 s1 s2 : Z) (istride : list Z)
    (idist nbatch : Z) :
  1 <= l0 → 1 <= l1 → 1 <= l2 → l0 * l1 * l2 + 2049 < 2 ^ 64 →
  l0 * l1 * l2 <= Z.of_nat fuel →
  ∃ partitions,
    Oracle.partition_rowmajor openmp (l0, l1, l2) = Ok partitions ∧
    Oracle.set_input_vector of_integer divide openmp first_argument_first fuel input itype
      [l0; l1; l2] (s0 :: s1 :: s2 :: istride) idist nbatch
    = Oracle.Done
        (Oracle.stored of_integer divide first_argument_first itype input
           (Oracle.fills (s0, s1, s2) idist nbatch Oracle.cells_3 partitions)) ∧
    Oracle.fill_index <$> Oracle.fills (s0, s1, s2) idist nbatch Oracle.cells_3 partitions
    = b ← seq 0 (Z.to_nat nbatch);
      i0 ← seqZ 0 l0; i1 ← seqZ 0 l1; i2 ← seqZ 0 l2;
      [Oracle.compute_index (i0, i1, i2) (s0, s1, s2) (sz (Z.of_nat b * idist))].
Proof.
  intros Hl0 Hl1 Hl2 Hfit Hfuel.
  destruct (partition_rowmajor_3_contiguous l0 l1 l2) as (partitions & Hparts & Hcont);
    [done..|].
  pose proof (contiguous_bounds _ _ _ Hcont) as Hbounds.
  eexists. split; [exact Hparts|]. split.
  - unfold Oracle.set_input_vector. apply set_input_stores; [done|].
    intros p [[first last] [-> Hp]]%list_elem_of_fmap. rewrite Forall_forall in Hbounds.
    specialize (Hbounds _ Hp). simpl in Hbounds.
    unfold Oracle.cells_3. cbn [fst snd].
    assert (1 <= l1 * l2) as H12 by nia.
    assert ((last - first) * (l1 * l2) <= l0 * (l1 * l2)) as Hcount
      by (apply Z.mul_le_mono_nonneg_r; lia).
    rewrite visited_3 by nia.
    rewrite !Z.sub_0_r. replace (l1 - 1) with (l1 - 0 - 1) by lia.
    replace (last - first) with (Z.succ (last - first - 1)) by lia.
    rewrite (seqZ_cons first) by lia. rewrite Z.pred_succ, bind_cons.
    replace (Z.succ first) with (first + 1) by lia.
    replace (Z.succ (last - first - 1) - 1) with (last - first - 1) by lia.
    rewrite (seqZ_first l1) by lia. rewrite (bind_cons _ 0).
    replace (l1 - 0 - 1) with (l1 - 1) by lia. change (0 + 1) with 1.
    by rewrite <-!app_assoc.
  - rewrite fill_index_fills. apply list_bind_ext; [|done]. intros b.
    rewrite list_fmap_bind.
    rewrite (list_bind_ext _
               (λ p, Oracle.cells_1 p ≫= λ i0, seqZ 0 l1 ≫= λ i1, seqZ 0 l2 ≫= λ i2,
                       [(i0, i1, i2)])
               partitions partitions); [|by intros p|done].
    rewrite <-bind_bind_list.
    destruct (contiguous_cells _ _ _ Hcont) as [_ ->]. rewrite Z.sub_0_r.
    rewrite fmap_bind_list. apply list_bind_ext; [|done]. intros i0.
    rewrite fmap_bind_list. apply list_bind_ext; [|done]. intros i1.
    by rewrite fmap_bind_list.
Qed.

End SetInputRank3.

(** Two planes of two rows of two real elements, in double precision. *)
Lemma set_input_rank_3_witness :
  ∃ partitions,
    Oracle.partition_rowmajor None (2, 2, 2) = Ok partitions ∧
    Oracle.set_input_vector Oracle.double_of_integer Oracle.double_divide None true 8 [∅]
      Client.rocfft_array_type_real [2; 2; 2] [4; 2; 1] 8 1
    = Oracle.Done
        (Oracle.stored Oracle.double_of_integer Oracle.double_divide true
           Client.rocfft_array_type_real [∅]
           (Oracle.fills (4, 2, 1) 8 1 Oracle.cells_3 partitions)) ∧
    Oracle.fill_index <$> Oracle.fills (4, 2, 1) 8 1 Oracle.cells_3 partitions
    = b ← seq 0 (Z.to_nat 1);
      i0 ← seqZ 0 2; i1 ← seqZ 0 2; i2 ← seqZ 0 2;
      [Oracle.compute_index (i0, i1, i2) (4, 2, 1) (sz (Z.of_nat b * 8))].
Proof.
  apply (set_input_rank_3 Oracle.double_of_integer Oracle.double_divide None true 8 [∅]
           Client.rocfft_array_type_real 2 2 2 4 2 1 [] 8 1); lia.
Defined.

Example set_input_2_2_2 :
  Oracle.fill_index <$> Oracle.fills (4, 2, 1) 8 1 Oracle.cells_3 [((0, 0, 0), (2, 2, 2))]
  = [0; 1; 2; 3; 4; 5; 6; 7].
Proof. by vm_compute. Qed.

(** *** The partitions *)

Lemma partition_loop_length (n : nat) (cur size : Z) :
  List.length (Oracle.partition_loop n cur size) = n.
Proof. revert cur. induction n as [|n IH]; intros cur; simpl; [done|]. by rewrite IH. Qed.

Lemma set_back_second_length (ret : list (Z * Z)) (length : Z) :
  List.length (Oracle.set_back_second ret length) = List.length ret.
Proof.
  induction ret as [|p [|q ret] IH]; [done..|].
  change (Oracle.set_back_second (p :: q :: ret) length)
    with (p :: Oracle.set_back_second (q :: ret) length).
  simpl in *. by rewrite IH.
Qed.

Lemma partition_loop_starts (n : nat) (cur size : Z) (i : nat) (p : Z * Z) :
  0 <= cur → 0 <= size → cur + Z.of_nat n * size < 2 ^ 64 →
  Oracle.partition_loop n cur size !! i = Some p → fst p = cur + Z.of_nat i * size.
Proof.
  revert cur i. induction n as [|n IH]; intros cur i Hcur Hsize Hfit; [done|].
  cbn [Oracle.partition_loop]. rewrite (sz_small (cur + size)) by (unfold is_sz; nia).
  destruct i as [|i].
  - intros [= <-]. simpl. lia.
  - intros Hp. cbn [lookup list_lookup] in Hp.
    apply IH in Hp; [|lia..]. lia.
Qed.

Lemma set_back_second_starts (ret : list (Z * Z)) (length : Z) (i : nat) (p : Z * Z) :
  Oracle.set_back_second ret length !! i = Some p →
  ∃ q, ret !! i = Some q ∧ fst p = fst q.
Proof.
  revert i. induction ret as [|q [|q' ret] IH]; intros i; [done| |].
  - destruct i as [|i]; [|done]. intros [= <-]. by exists q.
  - change (Oracle.set_back_second (q :: q' :: ret) length)
      with (q :: Oracle.set_back_second (q' :: ret) length).
    destruct i as [|i].
    + intros [= <-]. by exists q.
    + intros Hp. by apply IH.
Qed.

(** X2. [partition_base] cuts a length into [min(length, num_parts)]
    partitions, none of them empty, that follow one another from 0 to
    [length]: the partition number [i] starts at [i * (length / n)], and
    together the partitions hold every index below [length] once, in order.
    With a length or a number of parts of 0 the function divides by zero. *)
Theorem partition_base_tiles (length num_parts : Z) :
  0 <= length < 2 ^ 64 → 0 <= num_parts →
  (length = 0 ∨ num_parts = 0 → Oracle.partition_base length num_parts = Undef) ∧
  (1 <= length → 1 <= num_parts →
   ∃ partitions,
     Oracle.partition_base length num_parts = Ok partitions ∧
     vsize partitions = Z.min length num_parts ∧
     Oracle.contiguous 0 partitions length ∧
     (∀ i p, partitions !! i = Some p →
             fst p = Z.of_nat i * (length / Z.min length num_parts)) ∧
     partitions ≫= Oracle.cells_1 = seqZ 0 length).
Proof.
  intros Hlength Hparts. split.
  - intros Hzero. unfold Oracle.partition_base.
    by rewrite (proj2 (Z.eqb_eq (Z.min length num_parts) 0)) by lia.
  - intros Hl Hn.
    destruct (partition_base_contiguous length num_parts) as (partitions & Hrun & Hcont);
      [lia..|].
    exists partitions. split; [done|].
    unfold Oracle.partition_base in Hrun.
    set (n := Z.min length num_parts) in *.
    assert (1 <= n <= length) as Hnl by lia.
    rewrite (proj2 (Z.eqb_neq n 0)) in Hrun by lia. injection Hrun as <-.
    assert (n * (length / n) <= length) as Hdiv by (apply Z.mul_div_le; lia).
    assert (0 <= length / n) as Hsize by (apply Z.div_pos; lia).
    split_and!.
    + unfold vsize. rewrite set_back_second_length, partition_loop_length. lia.
    + done.
    + intros i p Hp. apply set_back_second_starts in Hp as (q & Hq & ->).
      apply partition_loop_starts in Hq; [lia..|]. lia.
    + destruct (contiguous_cells _ _ _ Hcont) as [_ ->]. by rewrite Z.sub_0_r.
Qed.

Lemma partition_base_tiles_witness :
  ∃ partitions,
    Oracle.partition_base 10 4 = Ok partitions ∧
    vsize partitions = Z.min 10 4 ∧
    Oracle.contiguous 0 partitions 10 ∧
    (∀ i p, partitions !! i = Some p → fst p = Z.of_nat i * (10 / Z.min 10 4)) ∧
    partitions ≫= Oracle.cells_1 = seqZ 0 10.
Proof.
  destruct (partition_base_tiles 10 4) as [_ Htiles]; [lia..|].
  apply Htiles; lia.
Defined.

Example partition_base_10_4 :
  Oracle.partition_base 10 4 = Ok [(0, 2); (2, 4); (4, 6); (6, 10)].
Proof. reflexivity. Qed.

(** X3. [compute_partition_count] gives 1 without OpenMP, and with OpenMP a
    number from 1 to 8 that is at most the number of processors and at most
    [(iters + 2049) / 2048]: a problem of fewer than 2047 iterations is not
    split. *)
Theorem compute_partition_count_range {T} `{Oracle.CountIters T} (openmp : option Z)
    (length : T) :
  0 <= Oracle.count_iters length → Oracle.count_iters length + 2049 < 2 ^ 64 →
  1 <= Oracle.compute_partition_count openmp length <= 8 ∧
  Oracle.compute_partition_count openmp length
    <= (Oracle.count_iters length + 2049) / 2048 ∧
  (openmp = None → Oracle.compute_partition_count openmp length = 1) ∧
  (Oracle.count_iters length < 2047 → Oracle.compute_partition_count openmp length = 1) ∧
  (∀ procs, openmp = Some procs → 1 <= procs < 2 ^ 64 →
            Oracle.compute_partition_count openmp length <= procs).
Proof.
  intros Hiters Hfit. unfold Oracle.compute_partition_count.
  assert (1 <= (Oracle.count_iters length + 2049) / 2048) as Hone
    by (apply Z.div_le_lower_bound; lia).
  assert (Oracle.count_iters length < 2047 →
          (Oracle.count_iters length + 2049) / 2048 = 1) as Hsmall.
  { intros Hlt. apply Z.le_antisymm; [|done].
    apply Z.lt_succ_r, Z.div_lt_upper_bound; lia. }
  destruct openmp as [procs|]; [|split_and!; try done; lia].
  pose proof (sz_range procs) as Hprocs. unfold is_sz in Hprocs.
  replace (Oracle.count_iters length + 2048 + 1) with (Oracle.count_iters length + 2049)
    by lia.
  rewrite (sz_small (Oracle.count_iters length + 2049)) by (unfold is_sz; lia).
  destruct (Z.min 8 (sz procs) =? 0) eqn:Hhw.
  - split_and!; [lia|lia|lia|done|done|].
    intros procs' [= <-] Hrange. lia.
  - apply Z.eqb_neq in Hhw. split_and!; [lia|lia|lia|done| |].
    + intros Hlt. specialize (Hsmall Hlt). lia.
    + intros procs' [= <-] Hrange. rewrite (sz_small procs) by (unfold is_sz; lia). lia.
Qed.

Lemma compute_partition_count_range_witness :
  1 <= Oracle.compute_partition_count (Some 16) (100 : Z) <= 8 ∧
  Oracle.compute_partition_count (Some 16) (100 : Z)
    <= (Oracle.count_iters (100 : Z) + 2049) / 2048 ∧
  (Some 16 = None → Oracle.compute_partition_count (Some 16) (100 : Z) = 1) ∧
  (Oracle.count_iters (100 : Z) < 2047 →
   Oracle.compute_partition_count (Some 16) (100 : Z) = 1) ∧
  (∀ procs, Some 16 = Some procs → 1 <= procs < 2 ^ 64 →
            Oracle.compute_partition_count (Some 16) (100 : Z) <= procs).
Proof.
  apply (compute_partition_count_range (Some 16) (100 : Z)).
  - unfold Oracle.count_iters, Oracle.count_iters_1. lia.
  - unfold Oracle.count_iters, Oracle.count_iters_1. lia.
Defined.

Example compute_partition_count_2047 :
  Oracle.compute_partition_count (Some 16) (2047 : Z) = 2 ∧
  Oracle.compute_partition_count (Some 16) (100000 : Z) = 8.
Proof. by vm_compute. Qed.

(** *** The effect of [impose_hermitian_symmetry] on data of rank 1 *)

Section HermitianRank1.

Context {Tfloat : Type}.
Context (zero : Tfloat) (neg : Tfloat → Tfloat).

Lemma batches_zeroed (body : Z → Oracle.buffer Tfloat → result (Oracle.buffer Tfloat))
    (zeroed : Z → list Z) (ibatches : list Z) (data : Oracle.buffer Tfloat) :
  (∀ ibatch data,
     ∃ data', body ibatch data = Ok data' ∧
       ∀ k, data' !! k = if decide (k ∈ zeroed ibatch) then Some zero else data !! k) →
  ∃ data', Oracle.batches body ibatches data = Ok data' ∧
    ∀ k, data' !! k
         = if decide (k ∈ ibatches ≫= zeroed) then Some zero else data !! k.
Proof.
  intros Hbody. revert data.
  induction ibatches as [|ibatch rest IH]; intros data.
  - exists data. split; [done|]. intros k. by rewrite decide_False by by intros ?%elem_of_nil.
  - destruct (Hbody ibatch data) as (data1 & Hrun1 & Hdata1).
    destruct (IH data1) as (data' & Hrun & Hdata').
    exists data'. split; [simpl; by rewrite Hrun1|].
    intros k. rewrite Hdata', Hdata1, bind_cons.
    destruct (decide (k ∈ rest ≫= zeroed)) as [Hrest|Hrest].
    + by rewrite decide_True by (apply elem_of_app; by right).
    + destruct (decide (k ∈ zeroed ibatch)) as [Hfirst|Hfirst].
      * by rewrite decide_True by (apply elem_of_app; by left).
      * by rewrite decide_False by (intros [?|?]%elem_of_app; done).
Qed.

Lemma hermitian_interleaved_batch_1 (l0 s0 idist ibatch : Z) (data : Oracle.buffer Tfloat) :
  ∃ data',
    Oracle.hermitian_interleaved_batch zero neg [l0] [s0] idist ibatch data = Ok data' ∧
    ∀ k, data' !! k
         = if decide (k ∈ Oracle.zeroed_interleaved l0 s0 idist ibatch)
           then Some zero else data !! k.
Proof.
  eexists. split; [reflexivity|]. intros k.
  unfold Oracle.hermitian_case_1, Oracle.zeroed_interleaved, Oracle.when, Oracle.imag0,
    Oracle.at_, vget. simpl.
  set (base := sz (ibatch * idist)).
  destruct (Oracle.even l0).
  - destruct (decide (k = 2 * (base + sz (s0 * (l0 / 2))) + 1)) as [->|Hk1].
    + rewrite lookup_insert_eq. by rewrite decide_True by (right; left).
    + rewrite lookup_insert_ne by done.
      destruct (decide (k = 2 * (base + 0) + 1)) as [->|Hk0].
      * rewrite lookup_insert_eq. by rewrite decide_True by left.
      * rewrite lookup_insert_ne by done.
        rewrite decide_False; [done|].
        intros [?|[?|?%elem_of_nil]%elem_of_cons]%elem_of_cons; done.
  - destruct (decide (k = 2 * (base + 0) + 1)) as [->|Hk0].
    + rewrite lookup_insert_eq. by rewrite decide_True by left.
    + rewrite lookup_insert_ne by done.
      rewrite decide_False; [done|].
      intros [?|?%elem_of_nil]%elem_of_cons; done.
Qed.

Lemma hermitian_planar_batch_1 (l0 s0 idist ibatch : Z) (idata : Oracle.buffer Tfloat) :
  ∃ idata',
    Oracle.hermitian_planar_batch zero [l0] [s0] idist ibatch idata = Ok idata' ∧
    ∀ k, idata' !! k
         = if decide (k ∈ Oracle.zeroed_planar l0 s0 idist ibatch)
           then Some zero else idata !! k.
Proof.
  eexists. split; [reflexivity|]. intros k.
  unfold Oracle.zeroed_planar, Oracle.when, Oracle.at_, vget. simpl.
  set (base := sz (ibatch * idist)).
  destruct (Oracle.even l0).
  - destruct (decide (k = base + sz (s0 * (l0 / 2)))) as [->|Hk1].
    + rewrite lookup_insert_eq. by rewrite decide_True by (right; left).
    + rewrite lookup_insert_ne by done.
      destruct (decide (k = base)) as [->|Hk0].
      * rewrite lookup_insert_eq. by rewrite decide_True by left.
      * rewrite lookup_insert_ne by done.
        rewrite decide_False; [done|].
        intros [?|[?|?%elem_of_nil]%elem_of_cons]%elem_of_cons; done.
  - destruct (decide (k = base)) as [->|Hk0].
    + rewrite lookup_insert_eq. by rewrite decide_True by left.
    + rewrite lookup_insert_ne by done.
      rewrite decide_False; [done|].
      intros [?|?%elem_of_nil]%elem_of_cons; done.
Qed.

(** X4. On data of rank 1, [impose_hermitian_symmetry] returns, and changes
    nothing but the imaginary parts of the element 0 of every batch and, when
    the length is even, of the element [istride[0] * (length[0] / 2)], which
    become zero: in the buffer of interleaved data, and in the buffer of the
    imaginary parts of planar data, whose buffer of the real parts is left as
    it is. *)
Theorem impose_hermitian_symmetry_rank_1 (data rdata idata : Oracle.buffer Tfloat)
    (l0 s0 idist nbatch : Z) :
  (∃ data',
     Oracle.impose_hermitian_symmetry zero neg [data] [l0] [s0] idist nbatch = Ok [data'] ∧
     ∀ k, data' !! k
          = if decide (k ∈ seqZ 0 nbatch ≫= Oracle.zeroed_interleaved l0 s0 idist)
            then Some zero else data !! k) ∧
  (∃ idata',
     Oracle.impose_hermitian_symmetry zero neg [rdata; idata] [l0] [s0] idist nbatch
     = Ok [rdata; idata'] ∧
     ∀ k, idata' !! k
          = if decide (k ∈ seqZ 0 nbatch ≫= Oracle.zeroed_planar l0 s0 idist)
            then Some zero else idata !! k).
Proof.
  split.
  - destruct (batches_zeroed (Oracle.hermitian_interleaved_batch zero neg [l0] [s0] idist)
                (Oracle.zeroed_interleaved l0 s0 idist) (seqZ 0 nbatch) data)
      as (data' & Hrun & Hdata); [intros; apply hermitian_interleaved_batch_1|].
    exists data'. split; [|done]. unfold Oracle.impose_hermitian_symmetry. by rewrite Hrun.
  - destruct (batches_zeroed (Oracle.hermitian_planar_batch zero [l0] [s0] idist)
                (Oracle.zeroed_planar l0 s0 idist) (seqZ 0 nbatch) idata)
      as (idata' & Hrun & Hdata); [intros; apply hermitian_planar_batch_1|].
    exists idata'. split; [|done]. unfold Oracle.impose_hermitian_symmetry. by rewrite Hrun.
Qed.

End HermitianRank1.

Example zeroed_interleaved_4 :
  seqZ 0 2 ≫= Oracle.zeroed_interleaved 4 1 4 = [1; 5; 9; 13].
Proof. reflexivity. Qed.
(** ** Further properties of the client parameter container *)

(** X5. [check_iotypes] returns true exactly for the parameters whose types
    are both set and go together (complex with complex, Hermitian with real,
    real with Hermitian) and, for an in-place complex transform, are the same;
    it throws when a type is unset or when an in-place complex transform has
    two different types.  It does not look at whether the types fit the
    transform type. *)
Theorem check_iotypes_accepts (p : Client.fft_params) :
  let unset :=
    Client.itype p = Client.rocfft_array_type_unset
    ∨ Client.otype p = Client.rocfft_array_type_unset in
  let mixed_inplace :=
    Client.is_real_transform (Client.transform_type p) = false
    ∧ Client.placement p = Client.rocfft_placement_inplace
    ∧ Client.itype p ≠ Client.otype p in
  (Client.check_iotypes p = Ok true ↔
   ¬ unset ∧ ¬ mixed_inplace ∧ Client.compatible_types (Client.itype p) (Client.otype p)) ∧
  ((∃ msg, Client.check_iotypes p = Throw msg) ↔ unset ∨ mixed_inplace) ∧
  Client.check_iotypes p ≠ Undef.
Proof.
  unfold Client.check_iotypes, Client.compatible_types.
  destruct (Client.is_real_transform (Client.transform_type p)) eqn:Hreal;
    destruct (Client.placement p) eqn:Hpl;
    destruct (Client.itype p) eqn:Hi; destruct (Client.otype p) eqn:Ho; simpl;
    (split_and!;
     [split;
      [try discriminate; intros _; split_and!; try tauto;
       try (intros [|]; discriminate); try (intros (? & ? & ?); congruence)
      |intros (Hu & Hm & Hc); try done; exfalso;
       first [apply Hu; by auto | apply Hm; by auto
             | destruct Hc as [[? ?]|[[? ?]|[? ?]]]; discriminate]]
     |split;
      [intros [msg Hmsg]; try discriminate Hmsg;
       first [left; by auto | right; by auto]
      |intros [[Hu|Hu]|(? & ? & Hm)]; try discriminate; try congruence; by eauto]
     |discriminate]).
Qed.

(** The types of a real forward transform are accepted for a complex
    transform that is not in place. *)
Example check_iotypes_ignores_transform_type :
  ∀ p, Client.itype p = Client.rocfft_array_type_real →
       Client.otype p = Client.rocfft_array_type_hermitian_interleaved →
       Client.placement p = Client.rocfft_placement_notinplace →
       Client.check_iotypes p = Ok true.
Proof.
  intros p Hi Ho Hp. unfold Client.check_iotypes. rewrite Hi, Ho, Hp.
  by destruct (Client.transform_type p).
Qed.

(** X6. When both types are unset, [set_iotypes] chooses types that
    [check_iotypes] accepts, whatever the transform type and the placement;
    a type that is set is left as it is. *)
Theorem set_iotypes_accepted (p : Client.fft_params) :
  (Client.itype p = Client.rocfft_array_type_unset →
   Client.otype p = Client.rocfft_array_type_unset →
   Client.check_iotypes (Client.set_iotypes p) = Ok true) ∧
  (Client.itype p ≠ Client.rocfft_array_type_unset →
   Client.itype (Client.set_iotypes p) = Client.itype p) ∧
  (Client.otype p ≠ Client.rocfft_array_type_unset →
   Client.otype (Client.set_iotypes p) = Client.otype p) ∧
  Client.itype (Client.set_iotypes p) ≠ Client.rocfft_array_type_unset ∧
  Client.otype (Client.set_iotypes p) ≠ Client.rocfft_array_type_unset.
Proof.
  destruct p as [? ? ? ? ? tt pl ? ? it ot ? ? ? ?].
  unfold Client.set_iotypes, Client.check_iotypes. simpl.
  split_and!.
  - intros -> ->. by destruct tt, pl.
  - intros Hi. destruct (decide (it = _)) as [|_]; [done|].
    simpl. by destruct (decide (ot = _)).
  - intros Ho. destruct (decide (it = _)); simpl;
      by destruct (decide (ot = _)).
  - destruct (decide (it = _)); simpl; destruct (decide (ot = _)); simpl; try done;
      by destruct tt.
  - destruct (decide (it = _)); simpl; destruct (decide (ot = _)); simpl; try done;
      by destruct tt.
Qed.

Lemma set_iotypes_accepted_witness :
  Client.check_iotypes (Client.set_iotypes Client.params_r2c_8) = Ok true.
Proof.
  apply (set_iotypes_accepted Client.params_r2c_8); reflexivity.
Defined.

(** A default that does not go with the type that is given: the input of an
    in-place complex transform defaults to interleaved data, and
    [check_iotypes] throws when the output is planar. *)
Example set_iotypes_mixed_inplace :
  Client.check_iotypes
    (Client.set_iotypes
       {| Client.length_ := [8]; Client.istride := []; Client.ostride := [];
          Client.nbatch := 1; Client.precision := Client.rocfft_precision_single;
          Client.transform_type := Client.rocfft_transform_type_complex_forward;
          Client.placement := Client.rocfft_placement_inplace;
          Client.idist := 0; Client.odist := 0;
          Client.itype := Client.rocfft_array_type_unset;
          Client.otype := Client.rocfft_array_type_complex_planar;
          Client.ioffset := [0; 0]; Client.ooffset := [0; 0];
          Client.isize := []; Client.osize := [] |})
  = Throw "In-place transforms must have identical input and output types".
Proof. reflexivity. Qed.

(** X7. A complex element takes [2 * sizeof(real)] bytes in both layouts:
    interleaved data has one buffer of elements of twice the size of the real
    type, and planar data two buffers of elements of the real type; real
    data has one buffer of elements of the real type, and an unset type has no
    buffer.  The planar types of [array_format.h] are those with two
    buffers, and its interleaved types the complex ones with one. *)
Theorem buffers_and_element_sizes (precision : Client.rocfft_precision)
    (type : Client.rocfft_array_type) :
  Client.nbuffer type * Client.var_size precision type
  = match type with
    | Client.rocfft_array_type_unset => 0
    | Client.rocfft_array_type_real => Client.real_size precision
    | _ => 2 * Client.real_size precision
    end ∧
  (ArrayFormat.is_complex_planar type = true ↔ Client.nbuffer type = 2) ∧
  (ArrayFormat.is_complex_interleaved type = true ↔
   Client.nbuffer type = 1 ∧ Client.var_size precision type = 2 * Client.real_size precision) ∧
  (Client.is_planar type = ArrayFormat.is_complex_planar type).
Proof.
  destruct precision, type; vm_compute; split_and!; try done;
    intros H;
    first [done | discriminate H
          | by destruct H as [H1 H2]; first [discriminate H1|discriminate H2]].
Qed.

(** ** The planar format of the kernels *)

(** X8. [Handler<planar>::write] followed by [read] at the same index gives
    back the value written when the arrays of the real and of the imaginary
    parts are two arrays; when the two pointers are the same, the imaginary
    part written last is read for both parts.  The write changes the two
    cells of the index and no other cell, and is undefined exactly when one of
    the two cells is not allocated. *)
Theorem planar_write_read {Treal : Type} (mem : ArrayFormat.memory Treal)
    (out : ArrayFormat.planar) (idx : Z) (v : ArrayFormat.complex Treal) :
  (ArrayFormat.write mem out idx v = None ↔
   mem !! (ArrayFormat.R out + idx) = None ∨ mem !! (ArrayFormat.I out + idx) = None) ∧
  ∀ mem', ArrayFormat.write mem out idx v = Some mem' →
    (ArrayFormat.R out ≠ ArrayFormat.I out → ArrayFormat.read mem' out idx = Some v) ∧
    (ArrayFormat.R out = ArrayFormat.I out →
     ArrayFormat.read mem' out idx
     = Some {| ArrayFormat.x := ArrayFormat.y v; ArrayFormat.y := ArrayFormat.y v |}) ∧
    (∀ a, a ≠ ArrayFormat.R out + idx → a ≠ ArrayFormat.I out + idx →
          mem' !! a = mem !! a).
Proof.
  unfold ArrayFormat.write, ArrayFormat.store, ArrayFormat.read.
  destruct out as [r i], v as [vx vy]. simpl.
  destruct (mem !! (r + idx)) as [cr|] eqn:Hr.
  - rewrite decide_True by by eexists. simpl.
    destruct (decide (i + idx = r + idx)) as [Heq|Hne].
    + rewrite Heq, lookup_insert_eq, decide_True by by eexists.
      split; [split; [done|by intros [|]; simplify_eq]|].
      intros mem' [= <-]. split_and!.
      * intros Hri. lia.
      * intros _. by rewrite !lookup_insert_eq.
      * intros a Ha _. by rewrite !lookup_insert_ne by done.
    + rewrite lookup_insert_ne by done.
      destruct (mem !! (i + idx)) as [ci|] eqn:Hi.
      * rewrite decide_True by by eexists.
        split; [split; [done|by intros [|]]|].
        intros mem' [= <-]. split_and!.
        -- intros _. rewrite (lookup_insert_ne _ (i + idx) (r + idx)) by done.
           rewrite lookup_insert_eq. simpl. by rewrite lookup_insert_eq.
        -- intros ->. done.
        -- intros a Ha Ha'. by rewrite !lookup_insert_ne by done.
      * rewrite decide_False by by intros [? ?].
        split; [split; [by right|done]|done].
  - rewrite decide_False by by intros [? ?]. simpl.
    split; [split; [by left|done]|done].
Qed.

Example planar_write_read_aliased :
  (mem ← ArrayFormat.write ({[0 := 10; 1 := 11]} : gmap Z Z)
           {| ArrayFormat.R := 0; ArrayFormat.I := 0 |} 1
           {| ArrayFormat.x := 1; ArrayFormat.y := 2 |};
   ArrayFormat.read mem {| ArrayFormat.R := 0; ArrayFormat.I := 0 |} 1)
  = Some {| ArrayFormat.x := 2; ArrayFormat.y := 2 |}.
Proof. reflexivity. Qed.

(** *** [compute_ptrdiff] *)

Lemma ptrdiff_loop_exact (length stride : list Z) (n : nat) :
  ∀ (k : nat) (val : Z),
    (k + n <= List.length length)%nat → (k + n <= List.length stride)%nat →
    Forall (λ l, 1 <= l < 2 ^ 64) (take n (drop k length)) →
    Forall (λ s, 0 <= s) (take n (drop k stride)) →
    0 <= val →
    val + Client.dot (map (λ l, l - 1) (take n (drop k length))) (take n (drop k stride))
      < 2 ^ 64 →
    Client.ptrdiff_loop length stride (Z.of_nat k) n val
    = Some (val + Client.dot (map (λ l, l - 1) (take n (drop k length)))
                    (take n (drop k stride))).
Proof.
  induction n as [|n IH]; intros k val Hkl Hks Hl Hs Hval Hfit.
  - simpl. f_equal. lia.
  - destruct (lookup_lt_is_Some_2 length k) as [l Hlk]; [lia|].
    destruct (lookup_lt_is_Some_2 stride k) as [s Hsk]; [lia|].
    rewrite (drop_S _ _ _ Hlk) in *. rewrite (drop_S _ _ _ Hsk) in *.
    cbn [take map Client.dot] in *.
    apply Forall_cons in Hl as [Hl0 Hl]. apply Forall_cons in Hs as [Hs0 Hs].
    set (rest := Client.dot _ _) in *.
    assert (0 <= rest) as Hrest.
    { subst rest. clear -Hl Hs. revert Hs. generalize (take n (drop (S k) stride)).
      induction Hl as [|x ls Hx _ IHl]; intros [|y ss] Hss; simpl; try lia.
      apply Forall_cons in Hss as [Hy Hss]. specialize (IHl ss Hss). nia. }
    assert (0 <= (l - 1) * s) as Hterm by (apply Z.mul_nonneg_nonneg; lia).
    cbn [Client.ptrdiff_loop]. rewrite !vget_nat, Hlk, Hsk. simpl.
    rewrite (sz_small (l - 1)) by (unfold is_sz; lia).
    rewrite (sz_small ((l - 1) * s)) by (unfold is_sz; lia).
    rewrite (sz_small (val + _)) by (unfold is_sz; lia).
    replace (Z.of_nat k + 1) with (Z.of_nat (S k)) by lia.
    rewrite IH by (try done; lia). f_equal. fold rest. lia.
Qed.

Lemma dot_index_le (index length stride : list Z) :
  Forall2 (λ i l, 0 <= i < l) index length → Forall (λ s, 0 <= s) stride →
  0 <= Client.dot index stride
  ∧ Client.dot index stride <= Client.dot (map (λ l, l - 1) length) stride.
Proof.
  intros Hindex. revert stride.
  induction Hindex as [|i l index length Hi _ IH]; intros [|s stride] Hs; simpl; try lia.
  apply Forall_cons in Hs as [Hs0 Hs]. specialize (IH stride Hs). nia.
Qed.

(** X9. [compute_ptrdiff] is one more than the largest linear index of an
    element: for lengths, strides and a distance whose sum fits [size_t], it
    returns [1 + sum (length[i] - 1) * stride[i] + (nbatch - 1) * dist], and
    the index [sum index[i] * stride[i] + b * dist] of every element of every
    batch is below it.  It returns 0 for no length. *)
Theorem compute_ptrdiff_covers (length stride index : list Z) (nbatch dist b : Z) :
  let val :=
    1 + Client.dot (map (λ l, l - 1) length) stride + (nbatch - 1) * dist in
  length ≠ [] → List.length stride = List.length length →
  Forall (λ l, 1 <= l < 2 ^ 64) length → Forall (λ s, 0 <= s) stride →
  Forall2 (λ i l, 0 <= i < l) index length →
  0 <= dist → 0 <= b < nbatch → nbatch < 2 ^ 64 → val < 2 ^ 64 →
  Client.compute_ptrdiff length stride nbatch dist = Some val ∧
  0 <= Client.dot index stride + b * dist < val ∧
  Client.compute_ptrdiff [] stride nbatch dist = Some 0.
Proof.
  intros val Hne Hlen Hl Hs Hindex Hdist Hb Hnbatch Hfit.
  destruct (dot_index_le index length stride Hindex Hs) as [Hlo Hhi].
  assert (0 <= (nbatch - 1) * dist) as Hbatches by (apply Z.mul_nonneg_nonneg; lia).
  assert (b * dist <= (nbatch - 1) * dist) as Hbd by (apply Z.mul_le_mono_nonneg_r; lia).
  assert (0 <= b * dist) as Hbd0 by (apply Z.mul_nonneg_nonneg; lia).
  split_and!; [|lia|lia|done].
  unfold Client.compute_ptrdiff. destruct length as [|l0 length]; [done|].
  pose proof (ptrdiff_loop_exact (l0 :: length) stride (List.length (l0 :: length)) 0 1)
    as Hloop.
  rewrite !drop_0, (take_ge (l0 :: length)), (take_ge stride) in Hloop by lia.
  change (Z.of_nat 0) with 0 in Hloop.
  rewrite Hloop; [|simpl; lia|simpl in *; lia|done|done|lia|subst val; lia].
  cbn [mbind option_bind]. f_equal.
  rewrite (sz_small (nbatch - 1)) by (unfold is_sz; lia).
  rewrite (sz_small ((nbatch - 1) * dist)) by (unfold is_sz; subst val; lia).
  rewrite sz_small by (unfold is_sz; subst val; lia). subst val. lia.
Qed.

Lemma compute_ptrdiff_covers_witness :
  Client.compute_ptrdiff [4; 6] [8; 1] 3 40 = Some (1 + (3 * 8 + (5 * 1 + 0)) + 2 * 40) ∧
  0 <= Client.dot [3; 5] [8; 1] + 2 * 40 < 1 + (3 * 8 + (5 * 1 + 0)) + 2 * 40 ∧
  Client.compute_ptrdiff [] [8; 1] 3 40 = Some 0.
Proof.
  apply (compute_ptrdiff_covers [4; 6] [8; 1] [3; 5] 3 40 2).
  - done.
  - reflexivity.
  - repeat constructor; lia.
  - repeat constructor; lia.
  - repeat constructor; lia.
  - lia.
  - lia.
  - lia.
  - simpl. lia.
Defined.

(** *** [validate] *)

Section ValidateFacts.
Import Client.

Lemma max_dist_total (length stride : list Z) (n : nat) :
  ∀ i dist, 0 <= i → i + Z.of_nat n <= vsize length → i + Z.of_nat n <= vsize stride →
    is_Some (max_dist length stride i n dist).
Proof.
  induction n as [|n IH]; intros i dist Hi Hl Hs; simpl; [by eexists|].
  destruct (vget_is_Some length i) as [l ->]; [lia|].
  destruct (vget_is_Some stride i) as [s ->]; [lia|]. simpl.
  apply IH; lia.
Qed.

Lemma ptrdiff_loop_total (length stride : list Z) (n : nat) :
  ∀ i val, 0 <= i → i + Z.of_nat n <= vsize length → i + Z.of_nat n <= vsize stride →
    is_Some (ptrdiff_loop length stride i n val).
Proof.
  induction n as [|n IH]; intros i val Hi Hl Hs; simpl; [by eexists|].
  destruct (vget_is_Some length i) as [l ->]; [lia|].
  destruct (vget_is_Some stride i) as [s ->]; [lia|]. simpl.
  apply IH; lia.
Qed.

Lemma compute_ptrdiff_total (length stride : list Z) (nbatch dist : Z) :
  List.length stride = List.length length →
  is_Some (compute_ptrdiff length stride nbatch dist).
Proof.
  intros Hlen. unfold compute_ptrdiff. destruct length as [|l0 length]; [by eexists|].
  destruct (ptrdiff_loop_total (l0 :: length) stride (List.length (l0 :: length)) 0 1)
    as [val ->]; [unfold vsize; lia..|].
  by eexists.
Qed.

Lemma add_offsets_total (val : Z) (offset : list Z) (n : nat) :
  ∀ i, 0 <= i → i + Z.of_nat n <= vsize offset →
    ∃ sizes, add_offsets val offset i n = Some sizes ∧ List.length sizes = n.
Proof.
  induction n as [|n IH]; intros i Hi Hn; simpl; [by eexists|].
  destruct (vget_is_Some offset i) as [o ->]; [lia|]. simpl.
  destruct (IH (i + 1)) as (rest & -> & Hlen); [lia..|]. simpl.
  eexists. split; [done|]. simpl. by rewrite Hlen.
Qed.

Lemma halve_last_total (v : list Z) :
  v ≠ [] → ∃ v', halve_last v = Some v' ∧ List.length v' = List.length v.
Proof.
  intros Hne. unfold halve_last.
  assert (0 < List.length v)%nat as Hpos by (destruct v; [done|simpl; lia]).
  replace (vsize v - 1) with (Z.of_nat (Nat.pred (List.length v))) by (unfold vsize; lia).
  rewrite vget_nat.
  destruct (lookup_lt_is_Some_2 v (Nat.pred (List.length v))) as [x ->]; [lia|].
  simpl. rewrite vset_nat by lia. eexists. split; [done|]. by rewrite length_insert.
Qed.

Lemma ilength_total (p : fft_params) :
  length_ p ≠ [] → ∃ il, ilength p = Some il ∧ List.length il = List.length (length_ p).
Proof.
  intros Hne. unfold ilength. destruct (decide _); [by apply halve_last_total|by eexists].
Qed.

Lemma olength_total (p : fft_params) :
  length_ p ≠ [] → ∃ ol, olength p = Some ol ∧ List.length ol = List.length (length_ p).
Proof.
  intros Hne. unfold olength. destruct (decide _); [by apply halve_last_total|by eexists].
Qed.

Lemma samestride_loop_same (a : list Z) (n : nat) :
  ∀ i same, 0 <= i → i + Z.of_nat n <= vsize a →
    samestride_loop a a i n same = Some same.
Proof.
  induction n as [|n IH]; intros i same Hi Ha; simpl; [done|].
  destruct (vget_is_Some a i) as [x ->]; [lia|]. simpl.
  destruct (decide (x ≠ x)); [done|]. apply IH; lia.
Qed.

(** The distance that [set_idist] computes, when [idist] is 0. *)
Lemma set_idist_total (p : fft_params) :
  length_ p ≠ [] → List.length (istride p) = List.length (length_ p) →
  ∃ d, set_idist p = Some (with_idist p d).
Proof.
  intros Hne Hlen. unfold set_idist.
  assert (0 < List.length (length_ p))%nat as Hpos
    by (destruct (length_ p); [done|simpl; lia]).
  destruct (decide (idist p ≠ 0)) as [_|_].
  { exists (idist p). by destruct p. }
  destruct (vget_is_Some (length_ p) 0) as [l0 Hl0]; [unfold vsize; lia|].
  destruct (vget_is_Some (istride p) 0) as [s0 Hs0]; [unfold vsize; lia|].
  destruct (vget_is_Some (length_ p) (vsize (length_ p) - 1)) as [l Hl];
    [unfold vsize; lia|].
  destruct (vget_is_Some (istride p) (vsize (length_ p) - 1)) as [s Hs];
    [unfold vsize; lia|].
  rewrite Hl0, Hs0, Hl, Hs. simpl.
  destruct (_ && _ && _); [by eexists|].
  destruct (_ && _); [by eexists|].
  destruct (max_dist_total (length_ p) (istride p) (Z.to_nat (vsize (length_ p) - 1)) 0
              (if bool_decide (transform_type p = rocfft_transform_type_real_inverse)
               then sz (sz (l / 2 + 1) * s) else sz (l * s)))
    as [d ->]; [unfold vsize; lia..|].
  by eexists.
Qed.

Lemma set_odist_total (p : fft_params) :
  length_ p ≠ [] → List.length (ostride p) = List.length (length_ p) →
  ∃ d, set_odist p = Some (with_odist p d).
Proof.
  intros Hne Hlen. unfold set_odist.
  assert (0 < List.length (length_ p))%nat as Hpos
    by (destruct (length_ p); [done|simpl; lia]).
  destruct (decide (odist p ≠ 0)) as [_|_].
  { exists (odist p). by destruct p. }
  destruct (vget_is_Some (length_ p) 0) as [l0 Hl0]; [unfold vsize; lia|].
  destruct (vget_is_Some (ostride p) 0) as [s0 Hs0]; [unfold vsize; lia|].
  destruct (vget_is_Some (length_ p) (vsize (length_ p) - 1)) as [l Hl];
    [unfold vsize; lia|].
  destruct (vget_is_Some (ostride p) (vsize (length_ p) - 1)) as [s Hs];
    [unfold vsize; lia|].
  rewrite Hl0, Hs0, Hl, Hs. simpl.
  destruct (_ && _ && _); [by eexists|].
  destruct (_ && _); [by eexists|].
  destruct (max_dist_total (length_ p) (ostride p) (Z.to_nat (vsize (length_ p) - 1)) 0
              (if bool_decide (transform_type p = rocfft_transform_type_real_forward)
               then sz (sz (l / 2 + 1) * s) else sz (l * s)))
    as [d ->]; [unfold vsize; lia..|].
  by eexists.
Qed.

(** For a complex transform with the same strides on both sides, [set_idist]
    and [set_odist] compute the same distance. *)
Lemma complex_dists_agree (p : fft_params) (di do_ : Z) :
  is_complex_transform (transform_type p) = true →
  idist p = 0 → odist p = 0 → istride p = ostride p →
  set_idist p = Some (with_idist p di) →
  set_odist (with_idist p di) = Some (with_odist (with_idist p di) do_) →
  di = do_.
Proof.
  intros Hcomplex Hi Ho Hstride. unfold set_idist, set_odist. simpl.
  rewrite Hi, Ho, <-Hstride.
  destruct (decide (0 ≠ 0)) as [|_]; [done|].
  assert (bool_decide (transform_type p = rocfft_transform_type_real_forward) = false)
    as -> by (destruct (transform_type p); done).
  assert (bool_decide (transform_type p = rocfft_transform_type_real_inverse) = false)
    as -> by (destruct (transform_type p); done).
  simpl.
  destruct (vget (length_ p) _) as [l|]; [simpl|done].
  destruct (vget (istride p) _) as [s|]; [simpl|done].
  destruct (max_dist _ _ _ _ _) as [d|]; [simpl|done].
  intros [= Hdi] [= Hdo]. congruence.
Qed.

End ValidateFacts.

Section ValidateValid.
Import Client.

Lemma compute_istride_unspecified_total (p : fft_params) :
  length_ p ≠ [] → istride p = [] →
  ∃ si, compute_istride p = Some (with_istride p si) ∧
        List.length si = List.length (length_ p) ∧ vback si = Some 1 ∧
        (is_complex_transform (transform_type p) = true →
         compute_stride (length_ p) [] false = Some si).
Proof.
  intros Hne Hunspec. unfold compute_istride.
  destruct (ilength_total p Hne) as (il & Hil & Hillen). rewrite Hil, Hunspec. simpl.
  assert (il ≠ []) as Hilne by (intros ->; destruct (length_ p); done).
  destruct (compute_stride_unspecified il
              (bool_decide (placement p = rocfft_placement_inplace)
               && bool_decide (transform_type p = rocfft_transform_type_real_forward)) Hilne)
    as (si & Hsi & Hsilen & Hlast & _).
  rewrite Hsi. simpl. exists si. split_and!; [done|congruence|by rewrite vback_last|].
  intros Hcomplex. unfold ilength in Hil.
  destruct (transform_type p); try done; simpl in *;
    rewrite andb_false_r in Hsi; congruence.
Qed.

Lemma compute_ostride_unspecified_total (p : fft_params) :
  length_ p ≠ [] → ostride p = [] →
  ∃ so, compute_ostride p = Some (with_ostride p so) ∧
        List.length so = List.length (length_ p) ∧ vback so = Some 1 ∧
        (is_complex_transform (transform_type p) = true →
         compute_stride (length_ p) [] false = Some so).
Proof.
  intros Hne Hunspec. unfold compute_ostride.
  destruct (olength_total p Hne) as (ol & Hol & Hollen). rewrite Hol, Hunspec. simpl.
  assert (ol ≠ []) as Holne by (intros ->; destruct (length_ p); done).
  destruct (compute_stride_unspecified ol
              (bool_decide (placement p = rocfft_placement_inplace)
               && bool_decide (transform_type p = rocfft_transform_type_real_inverse)) Holne)
    as (so & Hso & Hsolen & Hlast & _).
  rewrite Hso. simpl. exists so. split_and!; [done|congruence|by rewrite vback_last|].
  intros Hcomplex. unfold olength in Hol.
  destruct (transform_type p); try done; simpl in *;
    rewrite andb_false_r in Hso; congruence.
Qed.

Lemma compute_isize_total (p : fft_params) :
  length_ p ≠ [] → List.length (istride p) = List.length (length_ p) →
  0 <= nibuffer p <= vsize (ioffset p) →
  ∃ sizes, compute_isize p = Some (with_isize p sizes) ∧ vsize sizes = nibuffer p.
Proof.
  intros Hne Hlen Hoff. unfold compute_isize.
  destruct (ilength_total p Hne) as (il & -> & Hillen). simpl.
  destruct (compute_ptrdiff_total il (istride p) (nbatch p) (idist p)) as [val ->];
    [congruence|]. simpl.
  destruct (add_offsets_total val (ioffset p) (Z.to_nat (nibuffer p)) 0)
    as (sizes & -> & Hsizes); [lia..|].
  simpl. exists sizes. split; [done|]. unfold vsize. lia.
Qed.

Lemma compute_osize_total (p : fft_params) :
  length_ p ≠ [] → List.length (ostride p) = List.length (length_ p) →
  0 <= nobuffer p <= vsize (ooffset p) →
  ∃ sizes, compute_osize p = Some (with_osize p sizes) ∧ vsize sizes = nobuffer p.
Proof.
  intros Hne Hlen Hoff. unfold compute_osize.
  destruct (olength_total p Hne) as (ol & -> & Hollen). simpl.
  destruct (compute_ptrdiff_total ol (ostride p) (nbatch p) (odist p)) as [val ->];
    [congruence|]. simpl.
  destruct (add_offsets_total val (ooffset p) (Z.to_nat (nobuffer p)) 0)
    as (sizes & -> & Hsizes); [lia..|].
  simpl. exists sizes. split; [done|]. unfold vsize. lia.
Qed.

(** X10. When no strides, distances or types are given and the first offsets
    are zero, [validate] fills the parameters in without reading outside a
    vector, and [valid] accepts the result, for every transform type and
    placement; the strides get one entry per dimension and the sizes one
    entry per buffer. *)
Theorem validate_valid (p : fft_params) (verbose : Z) :
  length_ p ≠ [] → istride p = [] → ostride p = [] → idist p = 0 → odist p = 0 →
  itype p = rocfft_array_type_unset → otype p = rocfft_array_type_unset →
  vget (ioffset p) 0 = Some 0 → vget (ooffset p) 0 = Some 0 →
  ∃ p', validate p = Some p' ∧ valid p' verbose = Ok true ∧
        length_ p' = length_ p ∧
        List.length (istride p') = List.length (length_ p) ∧
        List.length (ostride p') = List.length (length_ p) ∧
        vsize (isize p') = nibuffer p' ∧ vsize (osize p') = nobuffer p'.
Proof.
  intros Hne Hsi0 Hso0 Hdi0 Hdo0 Hit0 Hot0 Hioff Hooff.
  pose proof (vget_Some_range _ _ _ Hioff) as Hioffn.
  pose proof (vget_Some_range _ _ _ Hooff) as Hooffn.
  unfold validate.
  set (p1 := set_iotypes p).
  assert (length_ p1 = length_ p ∧ istride p1 = [] ∧ ostride p1 = [] ∧ idist p1 = 0
          ∧ odist p1 = 0 ∧ ioffset p1 = ioffset p ∧ ooffset p1 = ooffset p
          ∧ transform_type p1 = transform_type p ∧ placement p1 = placement p
          ∧ 0 <= nibuffer p1 <= 1 ∧ 0 <= nobuffer p1 <= 1
          ∧ check_iotypes p1 = Ok true
          ∧ itype p1 ≠ rocfft_array_type_complex_planar
          ∧ otype p1 ≠ rocfft_array_type_complex_planar
          ∧ (is_complex_transform (transform_type p) = true → nibuffer p1 = 1))
    as (Hl1 & Hsi1 & Hso1 & Hdi1 & Hdo1 & Hio1 & Hoo1 & Htt1 & Hpl1 & Hni1 & Hno1 & Hck1
        & Hipl & Hopl & Hcx1).
  { subst p1. unfold set_iotypes, nibuffer, nobuffer, check_iotypes.
    rewrite Hit0. simpl. rewrite Hot0. simpl.
    rewrite Hsi0, Hso0, Hdi0, Hdo0.
    destruct (transform_type p), (placement p); simpl; split_and!; done || lia. }
  destruct (compute_istride_unspecified_total p1) as (si & -> & Hsilen & Hsiback & Hsicx);
    [congruence..|].
  simpl.
  destruct (compute_ostride_unspecified_total (with_istride p1 si))
    as (so & -> & Hsolen & Hsoback & Hsocx); [simpl; congruence..|].
  simpl in *.
  destruct (set_idist_total (with_ostride (with_istride p1 si) so)) as [di Hdi];
    [simpl; congruence..|].
  rewrite Hdi. simpl.
  destruct (set_odist_total (with_idist (with_ostride (with_istride p1 si) so) di))
    as [do_ Hdo]; [simpl; congruence..|].
  rewrite Hdo. simpl.
  destruct (compute_isize_total
              (with_odist (with_idist (with_ostride (with_istride p1 si) so) di) do_))
    as (isz & -> & Hisz); [simpl; congruence|simpl; congruence|
                           unfold nibuffer in *; simpl; rewrite Hio1; lia|].
  simpl.
  destruct (compute_osize_total
              (with_isize
                 (with_odist (with_idist (with_ostride (with_istride p1 si) so) di) do_) isz))
    as (osz & -> & Hosz); [simpl; congruence|simpl; congruence|
                           unfold nobuffer in *; simpl; rewrite Hoo1; lia|].
  set (q := with_osize _ osz) in *.
  exists q. split; [done|].
  split_and!; [|done|simpl; congruence|simpl; congruence|done|done].
  assert (check_iotypes q = Ok true) as Hck by exact Hck1.
  assert (samestride_loop si so 0 (Z.to_nat (Z.min (vsize si) (vsize so))) true = Some true
          ∨ is_complex_transform (transform_type p1) = false
            ∧ is_Some (samestride_loop si so 0 (Z.to_nat (Z.min (vsize si) (vsize so))) true))
    as Hsame.
  { destruct (is_complex_transform (transform_type p1)) eqn:Hcomplex.
    - left. specialize (Hsicx eq_refl). specialize (Hsocx eq_refl).
      assert (si = so) as <- by congruence.
      apply samestride_loop_same; unfold vsize; lia.
    - right. split; [done|]. apply samestride_loop_total; unfold vsize; lia. }
  assert (placement q = rocfft_placement_inplace → valid_inplace q = Some true) as Hinplace.
  { intros Hpl.
    assert (is_complex_transform (transform_type p1) = true → di = do_) as Hdist.
    { intros Hcomplex. specialize (Hsicx Hcomplex). specialize (Hsocx Hcomplex).
      eapply (complex_dists_agree (with_ostride (with_istride p1 si) so));
        simpl; [done|done|done|congruence|exact Hdi|exact Hdo]. }
    rewrite <-Htt1 in Hcx1.
    unfold valid_inplace, valid_offsets. simpl. rewrite Hio1, Hoo1, Hioff, Hooff.
    rewrite (bool_decide_eq_false_2 (itype p1 = rocfft_array_type_complex_planar)) by done.
    rewrite (bool_decide_eq_false_2 (otype p1 = rocfft_array_type_complex_planar)) by done.
    rewrite !andb_false_r. simpl.
    destruct (transform_type p1) eqn:Htt; simpl in *.
    - destruct Hsame as [->|[? _]]; [simpl|done]. rewrite Hdist by done.
      rewrite bool_decide_eq_false_2 by (intros H; by apply H). simpl.
      change (nibuffer q) with (nibuffer p1). rewrite Hcx1 by done. simpl.
      rewrite Hioff, Hooff. done.
    - destruct Hsame as [->|[? _]]; [simpl|done]. rewrite Hdist by done.
      rewrite bool_decide_eq_false_2 by (intros H; by apply H). simpl.
      change (nibuffer q) with (nibuffer p1). rewrite Hcx1 by done. simpl.
      rewrite Hioff, Hooff. done.
    - destruct Hsame as [->|[_ [same ->]]]; simpl; rewrite Hsiback, Hsoback; done.
    - destruct Hsame as [->|[_ [same ->]]]; simpl; rewrite Hsiback, Hsoback; done. }
  unfold valid. simpl. rewrite Hio1, Hoo1.
  change (nibuffer q) with (nibuffer p1). change (nobuffer q) with (nobuffer p1).
  rewrite !bool_decide_eq_false_2 by lia. simpl.
  destruct (decide _) as [Hpl|_]; simpl.
  - unfold checked. rewrite (Hinplace Hpl). simpl. by rewrite Hck.
  - by rewrite Hck.
Qed.
End ValidateValid.

Lemma validate_valid_witness :
  ∃ p', Client.validate Client.params_r2c_8 = Some p' ∧ Client.valid p' 1 = Ok true ∧
        Client.length_ p' = [8] ∧
        List.length (Client.istride p') = 1%nat ∧
        List.length (Client.ostride p') = 1%nat ∧
        vsize (Client.isize p') = Client.nibuffer p' ∧
        vsize (Client.osize p') = Client.nobuffer p'.
Proof.
  apply (validate_valid Client.params_r2c_8 1); done.
Defined.

Section GivenStrides.
Import Client.

Lemma copy_stride0_spec (stride0 : list Z) :
  ∀ (stride : list Z) (n : nat),
    (n + List.length stride0 <= List.length stride)%nat →
    copy_stride0 stride stride0 (Z.of_nat n)
    = Some (take n stride ++ stride0 ++ drop (n + List.length stride0) stride).
Proof.
  induction stride0 as [|s rest IH]; intros stride n Hlen.
  - simpl. by rewrite Nat.add_0_r, take_drop.
  - simpl in *. rewrite vset_nat by lia. simpl.
    replace (Z.of_nat n + 1) with (Z.of_nat (S n)) by lia.
    rewrite IH by (rewrite length_insert; lia). f_equal.
    rewrite (take_S_r _ _ s) by (apply list_lookup_insert_eq; lia).
    rewrite take_insert_ge by lia. rewrite <-app_assoc. simpl.
    rewrite drop_insert_lt by lia.
    by replace (n + S (List.length rest))%nat with (S (n + List.length rest)) by lia.
Qed.

End GivenStrides.

(** X16. [compute_stride] with given strides, no more than the dimensions:
    the given strides are kept as the last strides, and each stride before
    them is the next stride times the next length in 64-bit arithmetic (the
    padded length [2 * (L / 2 + 1)] for the last length [L] of an in-place
    real transform).  Strides that are given for every dimension are returned
    as they are. *)
Theorem compute_stride_keeps_given (length stride0 : list Z) (rcpadding : bool) :
  stride0 ≠ [] → (List.length stride0 <= List.length length)%nat →
  ∃ stride : list Z,
    Client.compute_stride length stride0 rcpadding = Some stride ∧
    List.length stride = List.length length ∧
    drop (List.length length - List.length stride0) stride = stride0 ∧
    (List.length stride0 = List.length length → stride = stride0) ∧
    (∀ i, (S i <= List.length length - List.length stride0)%nat →
       ∃ s l, stride !! S i = Some s ∧ length !! S i = Some l ∧
              stride !! i
              = Some (sz (s * Client.lengthip1_of rcpadding (vsize length) i l))).
Proof.
  intros Hne Hlen. unfold Client.compute_stride.
  assert (0 < List.length stride0)%nat as Hpos by (destruct stride0; [done|simpl; lia]).
  destruct (decide (vsize stride0 = 0)) as [Hzero|_]; [unfold vsize in Hzero; lia|].
  set (n := (List.length length - List.length stride0)%nat).
  replace (vsize length - vsize stride0) with (Z.of_nat n) by (unfold vsize; lia).
  rewrite copy_stride0_spec by (rewrite length_replicate; lia). simpl.
  set (stride1 := take n _ ++ stride0 ++ drop _ _).
  assert (List.length stride1 = List.length length) as Hlen1.
  { subst stride1. rewrite !length_app, length_take, length_drop, length_replicate. lia. }
  assert (drop n stride1 = stride0) as Hdrop1.
  { subst stride1. rewrite drop_app_length'
      by (rewrite length_take, length_replicate; lia).
    rewrite drop_ge by (rewrite length_replicate; lia). by rewrite app_nil_r. }
  destruct (decide (vsize stride0 < vsize length)) as [Hlt|Hge].
  - replace (Z.to_nat (vsize length - 0 - vsize stride0)) with n by (unfold vsize; lia).
    destruct (stride_loop_spec length (vsize length) rcpadding n stride1)
      as (stride & Hrun & Hlen' & Hkeep & Hrel); [unfold vsize in Hlt; lia|done|].
    exists stride. split_and!; [done|done| |unfold vsize in Hlt; lia|].
    + rewrite <-Hdrop1. apply list_eq. intros j. rewrite !lookup_drop. apply Hkeep. lia.
    + intros i Hi. apply Hrel. lia.
  - assert (n = 0%nat) as Hn by (unfold vsize in Hge; lia).
    exists stride1. rewrite Hn, drop_0 in Hdrop1.
    split_and!; [done|done|by rewrite Hn, drop_0|done|].
    intros i Hi. lia.
Qed.

(** The lengths 4, 5, 6 with the last stride given as 2. *)
Lemma compute_stride_keeps_given_witness :
  ∃ stride : list Z,
    Client.compute_stride [4; 5; 6] [2] false = Some stride ∧
    List.length stride = 3%nat ∧
    drop (3 - 1) stride = [2] ∧
    (1%nat = 3%nat → stride = [2]) ∧
    (∀ i, (S i <= 3 - 1)%nat →
       ∃ s l, stride !! S i = Some s ∧ [4; 5; 6] !! S i = Some l ∧
              stride !! i = Some (sz (s * Client.lengthip1_of false (vsize [4; 5; 6]) i l))).
Proof.
  apply (compute_stride_keeps_given [4; 5; 6] [2] false); [done|simpl; lia].
Defined.

Example compute_stride_given_last :
  Client.compute_stride [4; 5; 6] [2] false = Some [60; 12; 2] ∧
  Client.compute_stride [4; 5; 6] [7; 8; 9] true = Some [7; 8; 9] ∧
  Client.compute_stride [4; 5] [7; 8; 9] false = None.
Proof. split_and!; reflexivity. Qed.

(** *** [compute_isize] and [compute_osize] *)

Section SizeFacts.
Import Client.

Lemma add_offsets_spec (val : Z) (offset : list Z) (n : nat) :
  ∀ k : nat, (k + n <= List.length offset)%nat →
    ∃ sizes, add_offsets val offset (Z.of_nat k) n = Some sizes ∧
      List.length sizes = n ∧
      ∀ j o, (j < n)%nat → offset !! (k + j)%nat = Some o → sizes !! j = Some (sz (val + o)).
Proof.
  induction n as [|n IH]; intros k Hk.
  - exists []. split_and!; [done..|]. intros j o Hj. lia.
  - cbn [add_offsets]. rewrite vget_nat.
    destruct (lookup_lt_is_Some_2 offset k) as [o Ho]; [lia|]. rewrite Ho.
    cbn [mbind option_bind].
    replace (Z.of_nat k + 1) with (Z.of_nat (S k)) by lia.
    destruct (IH (S k)) as (rest & -> & Hlen & Hrest); [lia|].
    cbn [mbind option_bind]. eexists. split; [done|]. split; [simpl; by rewrite Hlen|].
    intros j o' Hj Ho'. destruct j as [|j].
    + rewrite Nat.add_0_r in Ho'. simpl. congruence.
    + simpl. apply Hrest; [lia|]. by replace (S k + j)%nat with (k + S j)%nat by lia.
Qed.

Lemma compute_ptrdiff_exact (length stride : list Z) (nbatch dist : Z) :
  let val := 1 + dot (map (λ l, l - 1) length) stride + (nbatch - 1) * dist in
  length ≠ [] → List.length stride = List.length length →
  Forall (λ l, 1 <= l < 2 ^ 64) length → Forall (λ s, 0 <= s) stride →
  0 <= dist → 1 <= nbatch < 2 ^ 64 → val < 2 ^ 64 →
  compute_ptrdiff length stride nbatch dist = Some val.
Proof.
  intros val Hne Hlen Hl Hs Hdist Hnbatch Hfit.
  assert (0 <= dot (map (λ l, l - 1) length) stride) as Hdot.
  { clear -Hl Hs. revert stride Hs.
    induction Hl as [|l length Hl0 _ IH]; intros [|s stride] Hs; simpl; try lia.
    apply Forall_cons in Hs as [Hs0 Hs]. specialize (IH stride Hs). nia. }
  assert (0 <= (nbatch - 1) * dist) as Hbatches by (apply Z.mul_nonneg_nonneg; lia).
  unfold compute_ptrdiff. destruct length as [|l0 length]; [done|].
  pose proof (ptrdiff_loop_exact (l0 :: length) stride (List.length (l0 :: length)) 0 1)
    as Hloop.
  rewrite !drop_0, (take_ge (l0 :: length)), (take_ge stride) in Hloop by lia.
  change (Z.of_nat 0) with 0 in Hloop.
  rewrite Hloop; [|simpl; lia|simpl in *; lia|done|done|lia|subst val; lia].
  cbn [mbind option_bind]. f_equal.
  rewrite (sz_small (nbatch - 1)) by (unfold is_sz; lia).
  rewrite (sz_small ((nbatch - 1) * dist)) by (unfold is_sz; subst val; lia).
  rewrite sz_small by (unfold is_sz; subst val; lia). subst val. lia.
Qed.

(** The sizes that [compute_isize] and [compute_osize] compute from a length
    vector, its strides, the distance and the offsets. *)
Lemma sizes_cover (length stride offset index : list Z) (nbatch dist b : Z) (n : nat) :
  let val := 1 + dot (map (λ l, l - 1) length) stride + (nbatch - 1) * dist in
  length ≠ [] → List.length stride = List.length length →
  Forall (λ l, 1 <= l < 2 ^ 64) length → Forall (λ s, 0 <= s) stride →
  Forall2 (λ i l, 0 <= i < l) index length →
  0 <= dist → 0 <= b < nbatch → nbatch < 2 ^ 64 →
  (n <= List.length offset)%nat → val < 2 ^ 64 →
  Forall (λ o, 0 <= o ∧ val + o < 2 ^ 64) offset →
  ∃ sizes,
    (val' ← compute_ptrdiff length stride nbatch dist; add_offsets val' offset 0 n)
    = Some sizes ∧
    List.length sizes = n ∧
    ∀ j o, (j < n)%nat → offset !! j = Some o →
      ∃ size, sizes !! j = Some size ∧ size = val + o ∧
              0 <= dot index stride + b * dist + o < size.
Proof.
  intros val Hne Hlen Hl Hs Hindex Hdist Hb Hnbatch Hn Hval Hoff.
  destruct (dot_index_le index length stride Hindex Hs) as [Hlo Hhi].
  assert (0 <= (nbatch - 1) * dist) as Hbatches by (apply Z.mul_nonneg_nonneg; lia).
  assert (b * dist <= (nbatch - 1) * dist) as Hbd by (apply Z.mul_le_mono_nonneg_r; lia).
  assert (0 <= b * dist) as Hbd0 by (apply Z.mul_nonneg_nonneg; lia).
  rewrite compute_ptrdiff_exact by (done || lia). fold val.
  cbn [mbind option_bind].
  destruct (add_offsets_spec val offset n 0) as (sizes & Hrun & Hsizes & Hlookup); [lia|].
  exists sizes. split; [done|]. split; [done|].
  intros j o Hj Ho. exists (sz (val + o)). split; [by apply Hlookup|].
  rewrite Forall_forall in Hoff.
  destruct (Hoff o) as [Ho0 Hfit]; [by eapply list_elem_of_lookup_2|].
  rewrite sz_small by (unfold is_sz; subst val; lia). split; [done|]. subst val. lia.
Qed.

End SizeFacts.

(** X20. The sizes that [compute_isize] computes cover the data: for input
    lengths, strides, a distance and offsets whose sums fit [size_t], the
    function sets one size for each input buffer, that of [compute_ptrdiff]
    plus the offset of the buffer, and the index of every element of every
    batch plus the offset of the buffer is below the size of the buffer. *)
Theorem compute_isize_covers (p : Client.fft_params) (il index : list Z) (b : Z) :
  let val :=
    1 + Client.dot (map (λ l, l - 1) il) (Client.istride p)
    + (Client.nbatch p - 1) * Client.idist p in
  Client.ilength p = Some il → il ≠ [] →
  List.length (Client.istride p) = List.length il →
  Forall (λ l, 1 <= l < 2 ^ 64) il → Forall (λ s, 0 <= s) (Client.istride p) →
  Forall2 (λ i l, 0 <= i < l) index il →
  0 <= Client.idist p → 0 <= b < Client.nbatch p → Client.nbatch p < 2 ^ 64 →
  Client.nibuffer p <= vsize (Client.ioffset p) → val < 2 ^ 64 →
  Forall (λ o, 0 <= o ∧ val + o < 2 ^ 64) (Client.ioffset p) →
  ∃ p',
    Client.compute_isize p = Some p' ∧
    vsize (Client.isize p') = Client.nibuffer p ∧
    ∀ j o, (Z.of_nat j < Client.nibuffer p) → Client.ioffset p !! j = Some o →
      ∃ size, Client.isize p' !! j = Some size ∧ size = val + o ∧
              0 <= Client.dot index (Client.istride p) + b * Client.idist p + o < size.
Proof.
  intros val Hil Hne Hlen Hl Hs Hindex Hdist Hb Hnbatch Hbuffers Hval Hoff.
  assert (0 <= Client.nibuffer p) as Hnb
    by (unfold Client.nibuffer; destruct (Client.itype p); simpl; lia).
  destruct (sizes_cover il (Client.istride p) (Client.ioffset p) index (Client.nbatch p)
              (Client.idist p) b (Z.to_nat (Client.nibuffer p)))
    as (sizes & Hrun & Hsizes & Hcover); [done..|unfold vsize in Hbuffers; lia|done|done|].
  unfold Client.compute_isize. rewrite Hil. cbn [mbind option_bind].
  destruct (Client.compute_ptrdiff il (Client.istride p) (Client.nbatch p) (Client.idist p))
    as [val'|]; [|done].
  cbn [mbind option_bind] in Hrun |- *. rewrite Hrun. cbn [mbind option_bind].
  eexists. split; [done|]. simpl. split; [unfold vsize; lia|].
  intros j o Hj Ho. apply Hcover; [lia|done].
Qed.

(** Two batches of 4 by 6 elements in two planar buffers, the second one at
    the offset 3. *)
Lemma compute_isize_covers_witness :
  let p :=
    {| Client.length_ := [4; 6]; Client.istride := [8; 1]; Client.ostride := [8; 1];
       Client.nbatch := 2; Client.precision := Client.rocfft_precision_single;
       Client.transform_type := Client.rocfft_transform_type_complex_forward;
       Client.placement := Client.rocfft_placement_notinplace;
       Client.idist := 40; Client.odist := 40;
       Client.itype := Client.rocfft_array_type_complex_planar;
       Client.otype := Client.rocfft_array_type_complex_planar;
       Client.ioffset := [0; 3]; Client.ooffset := [0; 0];
       Client.isize := []; Client.osize := [] |} in
  let val := 1 + Client.dot (map (λ l, l - 1) [4; 6]) [8; 1] + (2 - 1) * 40 in
  ∃ p',
    Client.compute_isize p = Some p' ∧
    vsize (Client.isize p') = Client.nibuffer p ∧
    ∀ j o, (Z.of_nat j < Client.nibuffer p) → Client.ioffset p !! j = Some o →
      ∃ size, Client.isize p' !! j = Some size ∧ size = val + o ∧
              0 <= Client.dot [3; 5] [8; 1] + 1 * 40 + o < size.
Proof.
  intros p val.
  apply (compute_isize_covers p [4; 6] [3; 5] 1).
  - reflexivity.
  - done.
  - reflexivity.
  - repeat constructor; lia.
  - simpl. repeat constructor; lia.
  - repeat constructor; lia.
  - simpl. lia.
  - simpl. lia.
  - simpl. lia.
  - vm_compute. discriminate.
  - simpl. lia.
  - simpl. repeat constructor; lia.
Defined.

Example compute_isize_planar :
  Client.isize
    <$> Client.compute_isize
          {| Client.length_ := [4; 6]; Client.istride := [8; 1]; Client.ostride := [8; 1];
             Client.nbatch := 2; Client.precision := Client.rocfft_precision_single;
             Client.transform_type := Client.rocfft_transform_type_complex_forward;
             Client.placement := Client.rocfft_placement_notinplace;
             Client.idist := 40; Client.odist := 40;
             Client.itype := Client.rocfft_array_type_complex_planar;
             Client.otype := Client.rocfft_array_type_complex_planar;
             Client.ioffset := [0; 3]; Client.ooffset := [0; 0];
             Client.isize := []; Client.osize := [] |}
  = Some [70; 73].
Proof. reflexivity. Qed.
(** ** [copy_buffers] *)

Section CopyLoops.

Context {T : Type} `{Oracle.RowMajor T}.




End CopyLoops.





Section CopyCells.

Context {Tfloat : Type} (zero : Tfloat) (openmp : option Z).
Context {T : Type} `{Oracle.RowMajor T} `{EqDecision T}.








End CopyCells.

(** *** What the copy leaves in the output *)



Section CopiedBy.

Context {Tfloat Tval : Type} (ptr : Oracle.pointer Tfloat Tval).
Hypothesis load_store : ∀ e v d, Oracle.load ptr (Oracle.store ptr e v d) e = v.
Hypothesis load_store_ne :
  ∀ e e' v d, e ≠ e' → Oracle.load ptr (Oracle.store ptr e v d) e' = Oracle.load ptr d e'.



End CopiedBy.

Section Pointers.

Context {Tfloat : Type} (zero : Tfloat).





End Pointers.

Section CopyEach.

Context {Tfloat : Type} (zero : Tfloat) (openmp : option Z).
Context {T : Type} `{Oracle.RowMajor T} `{EqDecision T}.


End CopyEach.






Example copy_buffers_transpose :
  Oracle.copy_cells [2; 2] [2; 1] [1; 2] 4 4 1 = [(0, 0); (1, 2); (2, 1); (3, 3)] ∧
  Oracle.copy_buffers_vector 0 None 4
    [list_to_map [(0, 10); (1, 11); (2, 12); (3, 13)]] [∅] [2; 2] 1
    Client.rocfft_array_type_real [2; 1] 4 Client.rocfft_array_type_real [1; 2] 4
    [0; 0] [0; 0]
  = Oracle.Done (Ok [list_to_map [(0, 10); (2, 11); (1, 12); (3, 13)]]).
Proof. split; by vm_compute. Qed.

(** The buffer of the imaginary parts of planar data is copied with the
    offsets of the buffer of the real parts. *)
Example copy_buffers_planar_offsets :
  Oracle.copy_buffers_vector 0 None 1
    [list_to_map [(0, 10); (1, 11)]; list_to_map [(0, 20); (1, 21)]] [∅; ∅] [1] 1
    Client.rocfft_array_type_complex_planar [1] 1
    Client.rocfft_array_type_complex_planar [1] 1 [0; 1] [0; 1]
  = Oracle.Done (Ok [list_to_map [(0, 10)]; list_to_map [(0, 20)]]).
Proof. by vm_compute. Qed.




Example copy_buffers_to_planar_and_back :
  Oracle.copy_buffers_vector 0 None 2 [list_to_map [(0, 1); (1, 2); (2, 3); (3, 4)]] [∅; ∅]
    [2] 1 Client.rocfft_array_type_complex_interleaved [1] 2
    Client.rocfft_array_type_complex_planar [2] 4 [0; 0] [0; 0]
  = Oracle.Done (Ok [list_to_map [(0, 1); (2, 3)]; list_to_map [(0, 2); (2, 4)]]) ∧
  Oracle.copy_buffers_vector 0 None 2
    [list_to_map [(0, 1); (2, 3)]; list_to_map [(0, 2); (2, 4)]] [∅]
    [2] 1 Client.rocfft_array_type_complex_planar [2] 4
    Client.rocfft_array_type_complex_interleaved [1] 2 [0; 0] [0; 0]
  = Oracle.Done (Ok [list_to_map [(0, 1); (1, 2); (2, 3); (3, 4)]]).
Proof. split; by vm_compute. Qed.

(** Types that do not go together, and a rank above 3. *)
Example copy_buffers_invalid :
  Oracle.copy_buffers_vector 0 None 1 [∅] [∅] [1] 1 Client.rocfft_array_type_real [1] 1
    Client.rocfft_array_type_complex_interleaved [1] 1 [0; 0] [0; 0]
  = Oracle.Done (Throw "Invalid input and output types.") ∧
  Oracle.copy_buffers_vector 0 None 1 [∅] [∅] [1] 1 Client.rocfft_array_type_unset [1] 1
    Client.rocfft_array_type_unset [1] 1 [0; 0] [0; 0]
  = Oracle.Done (Throw "Invalid data type") ∧
  Oracle.copy_buffers_vector 0 None 1 [∅] [∅] [1; 1; 1; 1] 1 Client.rocfft_array_type_real
    [1; 1; 1; 1] 1 Client.rocfft_array_type_real [1; 1; 1; 1] 1 [0; 0] [0; 0]
  = Oracle.Aborted.
Proof. split_and!; reflexivity. Qed.
(** ** More on the breakdown into passes *)

Section BreakdownPasses.
Import KernelGen.

(** When the radix 1 is picked for a remainder other than 1, the remainder
    stays and the loop does not return. *)
Lemma generate_passes_stuck (ndebug : bool) (cnPerWI R : Z) (fuel : nat) :
  pick_radix cnPerWI R cRad 0 = 1 → R ≠ 1 →
  ∀ pid LS radices passes b,
    generate_passes ndebug fuel cnPerWI pid LS R radices passes ≠ Returned b.
Proof.
  intros Hpick Hone. induction fuel as [|fuel IH]; intros pid LS radices passes b; [done|].
  cbn [generate_passes]. rewrite Hpick, Z.div_1_r. unfold assert.
  destruct (ndebug || _); [|done]. destruct (ndebug || _); [|done].
  destruct (Z.eqb_spec R 1); [done|]. apply IH.
Qed.

Lemma generate_passes_chained (ndebug : bool) (cnPerWI length : Z) (fuel : nat) :
  1 <= cnPerWI → length < 2 ^ 64 →
  ∀ pid LS R radices passes b,
    1 <= R → LS * R = length → 0 <= pid < LS →
    generate_passes ndebug fuel cnPerWI pid LS R radices passes = Returned b →
    ∃ new, b_passes b = passes ++ new ∧ chained pid LS length new ∧
           list_prod (map radix new) = R ∧
           Forall (λ p, radix p ∈ cRad ∧ Z.divide (radix p) cnPerWI) new.
Proof.
  intros Hcn Hfit. induction fuel as [|fuel IH]; intros pid LS R radices passes b HR HLS Hpid;
    [done|].
  cbn [generate_passes]. pose proof (pick_radix_largest cnPerWI R Hcn) as Hlargest.
  destruct (decide (pick_radix cnPerWI R cRad 0 = 1 ∧ R ≠ 1)) as [[Hone HR1]|Hprogress].
  { intros Hrun. exfalso.
    apply (generate_passes_stuck ndebug cnPerWI R (S fuel) Hone HR1 pid LS radices passes b).
    done. }
  set (rad := pick_radix cnPerWI R cRad 0) in *.
  pose proof (largest_candidate_cRad_pos _ _ _ Hlargest) as Hrad.
  destruct Hlargest as (Hin & [q Hq] & Hdcn & Hmax).
  assert (R / rad = q) as Hdiv by (rewrite Hq; apply Z.div_mul; lia).
  assert (1 <= q) as Hq1 by nia.
  assert (sz (LS * rad) = LS * rad) as HL by (apply sz_small; unfold is_sz; nia).
  unfold assert.
  destruct (ndebug || _); [|done]. destruct (ndebug || _); [|done].
  rewrite Hdiv, HL.
  destruct (Z.eqb_spec q 1) as [->|Hmore].
  - intros [= <-]. eexists. split; [done|]. simpl.
    split; [split_and!; [done|done|done|lia|done]|].
    split; [lia|]. constructor; [done|constructor].
  - assert (2 <= rad) as Hrad2.
    { destruct (decide (rad = 1)) as [Hone|]; [|lia]. exfalso. apply Hprogress. lia. }
    intros Hrun. apply IH in Hrun as (new & Hpasses & Hchain & Hprod & Hdiv'); [|lia|nia|].
    + eexists. rewrite <-app_assoc in Hpasses. split; [exact Hpasses|]. simpl.
      rewrite sz_small in Hchain by (unfold is_sz; nia).
      split; [split_and!; [done|done|done|nia|done]|].
      split; [nia|]. by constructor.
    + rewrite sz_small by (unfold is_sz; nia). nia.
Qed.

End BreakdownPasses.

(** X11. Whenever the breakdown that generates its radices returns, the
    passes are a factorisation of the length: the first pass has the position
    0 and [LS = 1], every pass has [L = LS * radix] and [R = length / L] and
    hands its [L] over as the [LS] of the next pass, the radices multiply to
    the length, and each of them is a candidate that divides [cnPerWI]. *)
Theorem breakdown_generated_passes (specRecord : list KernelGen.SpecRecord) (ndebug : bool)
    (fuel : nat) (fft_MaxWorkGroupSize length cnPerWI : Z) (b : KernelGen.Breakdown) :
  1 <= length < 2 ^ 64 → 1 <= cnPerWI →
  fft_MaxWorkGroupSize < 256 ∨ KernelGen.GetRadices specRecord length = [] →
  KernelGen.breakdown specRecord ndebug fuel fft_MaxWorkGroupSize length cnPerWI
  = KernelGen.Returned b →
  KernelGen.chained 0 1 length (KernelGen.b_passes b) ∧
  list_prod (map KernelGen.radix (KernelGen.b_passes b)) = length ∧
  Forall (λ p, KernelGen.radix p ∈ KernelGen.cRad ∧ Z.divide (KernelGen.radix p) cnPerWI)
    (KernelGen.b_passes b).
Proof.
  intros Hlen Hcn Hgen. unfold KernelGen.breakdown.
  assert (((256 <=? fft_MaxWorkGroupSize)
           && negb (vsize (KernelGen.GetRadices specRecord length) =? 0)) = false) as ->.
  { destruct Hgen as [Hlt| ->]; [|by rewrite andb_false_r].
    by rewrite (proj2 (Z.leb_gt 256 fft_MaxWorkGroupSize) Hlt). }
  destruct (KernelGen.generate_passes _ _ _ _ _ _ _ _) as [b'| |] eqn:Hrun; [|done..].
  intros Hcheck. assert (b' = b) as ->.
  { unfold KernelGen.assert in Hcheck.
    repeat (destruct (_ || _) in Hcheck; [|done]). congruence. }
  apply (generate_passes_chained ndebug cnPerWI length fuel) in Hrun
    as (new & Hpasses & Hchain & Hprod & Hdiv); [|lia..].
  simpl in Hpasses. by subst new.
Qed.

(** The length 35 with 35 elements per work item: a pass of radix 7, then a
    pass of radix 5. *)
Lemma breakdown_generated_passes_witness :
  let passes :=
    [{| KernelGen.position := 0; KernelGen.radix := 7; KernelGen.pass_L := 7;
        KernelGen.pass_LS := 1; KernelGen.pass_R := 5 |};
     {| KernelGen.position := 1; KernelGen.radix := 5; KernelGen.pass_L := 35;
        KernelGen.pass_LS := 7; KernelGen.pass_R := 1 |}] in
  KernelGen.chained 0 1 35 passes ∧
  list_prod (map KernelGen.radix passes) = 35 ∧
  Forall (λ p, KernelGen.radix p ∈ KernelGen.cRad ∧ Z.divide (KernelGen.radix p) 35) passes.
Proof.
  apply (breakdown_generated_passes [] false 2 256 35 35
           {| KernelGen.b_numPasses := 2; KernelGen.b_radices := [7; 5];
              KernelGen.b_passes := _ |}); [lia|lia|by right|reflexivity].
Defined.
(** ** More on the constructor of the Stockham kernel *)

Section ThreadSearch.
Import Stockham.

Lemma threads_per_transform_step_admissible (length threads_per_block : Z) (factors : list Z)
    (acc t : Z) :
  2 <= t < length → Forall (λ f, 1 <= f) factors →
  (admissible_threads length threads_per_block factors t ∧
   threads_per_transform_step length threads_per_block factors acc t = t) ∨
  (¬ admissible_threads length threads_per_block factors t ∧
   threads_per_transform_step length threads_per_block factors acc t = acc).
Proof.
  intros Ht Hfactors. unfold threads_per_transform_step, admissible_threads.
  destruct (Z.ltb_spec threads_per_block t) as [Hgt|Hle]; [right; split; [lia|done]|].
  destruct (Z.eqb_spec (length mod t) 0) as [Hmod|Hmod]; simpl.
  - apply Z.mod_divide in Hmod; [|lia].
    destruct (forallb _ factors) eqn:Hall.
    + left. split; [|done]. split_and!; [lia..|done|].
      rewrite forallb_forall in Hall. apply Forall_forall. intros f Hf.
      rewrite Forall_forall in Hfactors. specialize (Hfactors f Hf).
      apply Z.mod_divide; [lia|]. apply Z.eqb_eq, Hall. by apply list_elem_of_In.
    + right. split; [|done]. intros (_ & _ & _ & Hdiv).
      apply not_true_iff_false in Hall. apply Hall, forallb_forall. intros f Hf.
      apply list_elem_of_In in Hf.
      rewrite Forall_forall in Hfactors, Hdiv. specialize (Hfactors f Hf).
      apply Z.eqb_eq, Z.mod_divide; [lia|]. by apply Hdiv.
  - right. split; [|done]. intros (_ & _ & Hdiv & _).
    apply Hmod, Z.mod_divide; [lia|done].
Qed.

(** The loop keeps the last admissible count that it has met. *)
Lemma threads_per_transform_fold_last (length threads_per_block : Z) (factors : list Z)
    (acc : Z) (n : nat) :
  2 + Z.of_nat n <= length → Forall (λ f, 1 <= f) factors →
  let r := fold_left (threads_per_transform_step length threads_per_block factors)
             (seqZ 2 (Z.of_nat n)) acc in
  (r = acc ∧ ∀ t, 2 <= t < 2 + Z.of_nat n →
               ¬ admissible_threads length threads_per_block factors t) ∨
  (2 <= r < 2 + Z.of_nat n ∧ admissible_threads length threads_per_block factors r ∧
   ∀ t, r < t < 2 + Z.of_nat n → ¬ admissible_threads length threads_per_block factors t).
Proof.
  intros Hn Hfactors. cbv zeta. induction n as [|n IH].
  - left. split; [done|]. intros t Ht. lia.
  - replace (Z.of_nat (S n)) with (Z.of_nat n + 1) by lia.
    rewrite seqZ_app by lia.
    assert (seqZ (2 + Z.of_nat n) 1 = [2 + Z.of_nat n]) as -> by done.
    rewrite fold_left_app. cbn [fold_left].
    destruct (threads_per_transform_step_admissible length threads_per_block factors
                (fold_left (threads_per_transform_step length threads_per_block factors)
                   (seqZ 2 (Z.of_nat n)) acc) (2 + Z.of_nat n))
      as [[Hadm ->]|[Hnot ->]]; [lia|done| |].
    + right. split_and!; [lia..|done|]. intros t Ht. lia.
    + destruct IH as [[Hacc Hnone]|(Hr & Hadm & Hlater)]; [lia| |].
      * left. split; [done|]. intros t Ht.
        destruct (decide (t = 2 + Z.of_nat n)) as [->|]; [done|]. apply Hnone. lia.
      * right. split_and!; [lia..|done|]. intros t Ht.
        destruct (decide (t = 2 + Z.of_nat n)) as [->|]; [done|]. apply Hlater. lia.
Qed.

End ThreadSearch.

(** X12. The search of the constructor for [threads_per_transform] returns the
    largest thread count that is at least 2, below the length and not above
    [threads_per_block], that divides the length and leaves each thread a
    number of elements that every factor divides; it returns 1 when there is
    no such count. *)
Theorem threads_per_transform_search_largest (length threads_per_block : Z)
    (factors : list Z) :
  Forall (λ f, 1 <= f) factors →
  let r := Stockham.threads_per_transform_search length threads_per_block factors in
  (Stockham.admissible_threads length threads_per_block factors r ∧
   ∀ t, Stockham.admissible_threads length threads_per_block factors t → t <= r) ∨
  (r = 1 ∧ ∀ t, ¬ Stockham.admissible_threads length threads_per_block factors t).
Proof.
  intros Hfactors r. subst r. unfold Stockham.threads_per_transform_search.
  destruct (decide (length <= 2)) as [Hsmall|Hbig].
  - right. split.
    + replace (seqZ 2 (length - 2)) with (@nil Z); [done|].
      unfold seqZ. by replace (Z.to_nat (length - 2)) with 0%nat by lia.
    + intros t (Ht & _). lia.
  - pose proof (threads_per_transform_fold_last length threads_per_block factors 1
                  (Z.to_nat (length - 2)) ltac:(lia) Hfactors) as Hlast.
    simpl in Hlast. rewrite Z2Nat.id in Hlast by lia.
    destruct Hlast as [[-> Hnone]|(Hr & Hadm & Hlater)].
    + right. split; [done|]. intros t Hadm. apply (Hnone t); [|done].
      destruct Hadm as (Ht & _). lia.
    + left. split; [done|]. intros t Ht.
      destruct (Z.le_gt_cases t
                  (fold_left (Stockham.threads_per_transform_step length threads_per_block
                                factors) (seqZ 2 (length - 2)) 1)) as [|Hgt]; [done|].
      exfalso. apply (Hlater t); [|done]. destruct Ht as (Ht & _). lia.
Qed.

(** The length 64 with the factors 4, 4, 4 and blocks of 64 threads: 16
    threads for each transform. *)
Lemma threads_per_transform_search_largest_witness :
  let r := Stockham.threads_per_transform_search 64 64 [4; 4; 4] in
  (Stockham.admissible_threads 64 64 [4; 4; 4] r ∧
   ∀ t, Stockham.admissible_threads 64 64 [4; 4; 4] t → t <= r) ∨
  (r = 1 ∧ ∀ t, ¬ Stockham.admissible_threads 64 64 [4; 4; 4] t).
Proof.
  apply (threads_per_transform_search_largest 64 64 [4; 4; 4]).
  repeat constructor; lia.
Defined.

Example threads_per_transform_search_64 :
  Stockham.threads_per_transform_search 64 64 [4; 4; 4] = 16 ∧
  Stockham.threads_per_transform_search 7 64 [7] = 1.
Proof. split; reflexivity. Qed.

(** X13. The constructor replaces [threads_per_block] by the threads that the
    transforms of a block use: [threads_per_transform * transforms_per_block],
    which is not above the limit that was given.  [threads_per_transform] is
    at least 1.  When the elements of one transform do not fit the 32 KiB of
    LDS, the kernel gets no transform and no thread. *)
Theorem threads_per_block_exact (s : Stockham.StockhamGeneratorSpecs) :
  1 <= Stockham.length_ s < 2 ^ 28 →
  0 <= Stockham.threads_per_transform s < 2 ^ 20 →
  0 <= Stockham.threads_per_block s < 2 ^ 20 →
  0 <= Stockham.length2d s →
  let k := Stockham.StockhamKernel_new s in
  let tpt := Stockham.threads_per_transform (Stockham.specs k) in
  let tpb := Stockham.threads_per_block (Stockham.specs k) in
  1 <= tpt ∧
  tpb = tpt * Stockham.transforms_per_block k ∧
  tpb <= Stockham.threads_per_block s ∧
  (Stockham.LDS_BYTE_LIMIT < Stockham.length_ s * Stockham.lds_bytes_per_element s →
   Stockham.transforms_per_block k = 0 ∧ tpb = 0).
Proof.
  intros Hlen Htpt Hlimit Hl2.
  unfold Stockham.StockhamKernel_new.
  cbn [Stockham.transforms_per_block Stockham.specs Stockham.threads_per_transform
       Stockham.threads_per_block Stockham.with_threads].
  set (tpt := if Stockham.threads_per_transform s =? 0 then _ else _).
  assert (1 <= tpt < 2 ^ 20) as Htpt'.
  { subst tpt. destruct (Z.eqb_spec (Stockham.threads_per_transform s) 0); [|lia].
    pose proof (threads_per_transform_search_range (Stockham.length_ s)
                  (Stockham.threads_per_block s) (Stockham.factors s)). lia. }
  set (bytes := if Stockham.half_lds s then _ else _).
  assert (bytes = Stockham.length_ s * Stockham.lds_bytes_per_element s ∧ 8 <= bytes)
    as [Hbytes Hbytes8].
  { subst bytes. unfold Stockham.lds_bytes_per_element, Stockham.BYTES_PER_ELEMENT.
    rewrite u32_small by (unfold is_u32; lia).
    destruct (Stockham.half_lds s).
    - change (16 / 2) with 8.
      replace (Stockham.length_ s * 16) with (Stockham.length_ s * 8 * 2) by lia.
      rewrite Z.div_mul by lia. lia.
    - lia. }
  set (bpb0 := Stockham.LDS_BYTE_LIMIT / bytes).
  assert (0 <= bpb0 <= 4096) as Hbpb0.
  { subst bpb0. unfold Stockham.LDS_BYTE_LIMIT. split.
    - apply Z.div_pos; lia.
    - apply Z.div_le_upper_bound; lia. }
  pose proof (shrink_batches_largest tpt (Stockham.threads_per_block s) (Z.to_nat bpb0)
                ltac:(lia) ltac:(lia) ltac:(nia)) as Hshrink.
  simpl in Hshrink. rewrite Z2Nat.id in Hshrink by lia.
  set (r := Stockham.shrink_batches tpt _ _) in *.
  destruct Hshrink as (Hr & Hrfit & _).
  set (r2 := match Stockham.factors2d s with [] => r | _ => _ end).
  assert (0 <= r2 <= r) as Hr2.
  { subst r2. destruct (Stockham.factors2d s); lia. }
  rewrite u32_small by (unfold is_u32; nia).
  rewrite (Z.mul_comm tpt r2), Z.div_mul by lia.
  split_and!; [lia|lia|nia|].
  intros Hlong. rewrite <-Hbytes in Hlong.
  assert (bpb0 = 0) as Hzero.
  { subst bpb0. apply Z.div_small. unfold Stockham.LDS_BYTE_LIMIT in *. lia. }
  assert (r2 = 0) as -> by lia. split; lia.
Qed.

(** The kernel of length 4096 whose LDS holds one component at a time: one
    transform for each block of 256 threads. *)
Lemma threads_per_block_exact_witness :
  let k := Stockham.StockhamKernel_new Stockham.specs_4096 in
  let tpt := Stockham.threads_per_transform (Stockham.specs k) in
  let tpb := Stockham.threads_per_block (Stockham.specs k) in
  1 <= tpt ∧
  tpb = tpt * Stockham.transforms_per_block k ∧
  tpb <= Stockham.threads_per_block Stockham.specs_4096 ∧
  (Stockham.LDS_BYTE_LIMIT
   < Stockham.length_ Stockham.specs_4096
     * Stockham.lds_bytes_per_element Stockham.specs_4096 →
   Stockham.transforms_per_block k = 0 ∧ tpb = 0).
Proof.
  apply (threads_per_block_exact Stockham.specs_4096); simpl; lia.
Defined.

(** A length of 4097 does not fit the LDS, even with one component at a
    time. *)
Example StockhamKernel_new_4097 :
  let k :=
    Stockham.StockhamKernel_new
      {| Stockham.length_ := 4097; Stockham.factors := [17; 241]; Stockham.length2d := 0;
         Stockham.factors2d := []; Stockham.threads_per_transform := 241;
         Stockham.threads_per_block := 256; Stockham.half_lds := true |} in
  Stockham.transforms_per_block k = 0 ∧
  Stockham.threads_per_block (Stockham.specs k) = 0.
Proof. split; reflexivity. Qed.

(** *** The cells of the LDS that a pass stores to and loads from *)

Section LdsCells.
Import Stockham.

Lemma quotient_remainder_unique (a b c d m : Z) :
  0 <= b < m → 0 <= d < m → a * m + b = c * m + d → a = c ∧ b = d.
Proof.
  intros Hb Hd Heq.
  assert (a = c) as ->; [|lia].
  destruct (Z.lt_trichotomy a c) as [Hlt|[Heq'|Hgt]]; [exfalso|done|exfalso]; nia.
Qed.

Lemma store_cell_injective (cumheight width tid tid' w w' : Z) :
  1 <= cumheight → 0 <= w < width → 0 <= w' < width →
  store_cell cumheight width tid w = store_cell cumheight width tid' w' →
  tid = tid' ∧ w = w'.
Proof.
  intros Hc Hw Hw'. unfold store_cell. intros Heq.
  pose proof (Z.mod_pos_bound tid cumheight ltac:(lia)) as Hr.
  pose proof (Z.mod_pos_bound tid' cumheight ltac:(lia)) as Hr'.
  apply quotient_remainder_unique in Heq as [Heq Hmod]; [|done..].
  apply quotient_remainder_unique in Heq as [Hdiv ->]; [|done..].
  split; [|done].
  rewrite (Z.div_mod tid cumheight), (Z.div_mod tid' cumheight) by lia.
  by rewrite Hdiv, Hmod.
Qed.

Lemma store_cell_range (length cumheight width tid w : Z) :
  1 <= cumheight → 1 <= width → Z.divide (cumheight * width) length →
  0 <= tid < length / width → 0 <= w < width →
  0 <= store_cell cumheight width tid w < length.
Proof.
  intros Hc Hwidth [n ->] Htid Hw. unfold store_cell.
  replace (n * (cumheight * width)) with (n * cumheight * width) in * by lia.
  rewrite Z.div_mul in Htid by lia.
  pose proof (Z.mod_pos_bound tid cumheight ltac:(lia)) as Hr.
  assert (0 <= tid / cumheight < n) as Hq.
  { split; [apply Z.div_pos; lia|]. apply Z.div_lt_upper_bound; lia. }
  nia.
Qed.

Lemma load_cell_step (length width w w' : Z) :
  1 <= width → 0 <= length → 0 <= w < w' →
  w * length / width + length / width <= w' * length / width.
Proof.
  intros Hwidth Hlength Hw.
  apply Z.div_le_lower_bound; [lia|].
  pose proof (Z.mul_div_le (w * length) width ltac:(lia)).
  pose proof (Z.mul_div_le length width ltac:(lia)). nia.
Qed.

Lemma load_cell_injective (length width tid tid' w w' : Z) :
  1 <= width → 0 <= length →
  0 <= tid < length / width → 0 <= tid' < length / width →
  0 <= w < width → 0 <= w' < width →
  load_cell length width tid w = load_cell length width tid' w' →
  tid = tid' ∧ w = w'.
Proof.
  intros Hwidth Hlength Htid Htid' Hw Hw'. unfold load_cell. intros Heq.
  destruct (Z.lt_trichotomy w w') as [Hlt|[->|Hgt]].
  - pose proof (load_cell_step length width w w' Hwidth Hlength ltac:(lia)). lia.
  - lia.
  - pose proof (load_cell_step length width w' w Hwidth Hlength ltac:(lia)). lia.
Qed.

Lemma load_cell_range (length width tid w : Z) :
  1 <= width → 0 <= length → 0 <= tid < length / width → 0 <= w < width →
  0 <= load_cell length width tid w < length.
Proof.
  intros Hwidth Hlength Htid Hw. unfold load_cell.
  assert (0 <= w * length / width) by (apply Z.div_pos; nia).
  pose proof (Z.mul_div_le length width ltac:(lia)).
  assert (w * length / width <= (width - 1) * length / width)
    by (apply Z.div_le_mono; nia).
  assert ((width - 1) * length / width <= length - length / width); [|lia].
  apply Z.div_le_upper_bound; [lia|]. nia.
Qed.

End LdsCells.

Section LdsIndices.
Import Stockham.

Lemma lds_store_index_real (idx rhs : Expression) :
  lds_store_index (Assign (Index lds_real idx) rhs) = Some idx.
Proof. reflexivity. Qed.

Lemma lds_store_index_complex (idx rhs : Expression) :
  lds_store_index (Assign (Index lds_complex idx) rhs) = Some idx.
Proof. reflexivity. Qed.

Lemma lds_load_index_real (idx lhs : Expression) :
  lds_load_index (Assign lhs (Index lds_real idx)) = Some idx.
Proof. reflexivity. Qed.

Lemma lds_load_index_complex (idx lhs : Expression) :
  lds_load_index (Assign lhs (Index lds_complex idx)) = Some idx.
Proof. reflexivity. Qed.

Lemma omap_singleton {A B} (f : A → option B) (x : A) (y : B) :
  f x = Some y → omap f [x] = [y].
Proof. intros Hx. simpl. by rewrite Hx. Qed.

End LdsIndices.

(** X14. The stores of [store_lds_generator]: the element [w] of the
    butterfly with the work index [tid = thread + dt + h * threads_per_transform]
    is stored to the cell
    [(tid / cumheight * width + w) * cumheight + tid mod cumheight] of the
    transform in the LDS.  Two elements are stored to the same cell only when
    they are the same element of the same butterfly, and the cells of the
    butterflies of a transform lie within its [length] elements. *)
Theorem store_lds_generator_cells (kernel : Stockham.StockhamKernel)
    (component : Stockham.Component) (cumheight h hr width dt : Z) :
  let tpt := Stockham.threads_per_transform (Stockham.specs kernel) in
  let length := Stockham.length_ (Stockham.specs kernel) in
  1 <= cumheight → 1 <= width → width * cumheight < 2 ^ 32 → 0 <= h * tpt < 2 ^ 32 →
  (∀ env : string → Z,
     Stockham.eval env
       <$> omap Stockham.lds_store_index
             (Stockham.store_lds_generator kernel component cumheight h hr width dt)
     = (λ w, env "offset_lds"
             + Stockham.store_cell cumheight width (env "thread" + dt + h * tpt) w
               * env "lstride")
         <$> seqZ 0 width) ∧
  (∀ tid tid' w w', 0 <= w < width → 0 <= w' < width →
     Stockham.store_cell cumheight width tid w = Stockham.store_cell cumheight width tid' w' →
     tid = tid' ∧ w = w') ∧
  (∀ tid w, Z.divide (cumheight * width) length → 0 <= tid < length / width →
     0 <= w < width → 0 <= Stockham.store_cell cumheight width tid w < length).
Proof.
  intros tpt length Hc Hwidth Hfit Hh. split_and!.
  - intros env. unfold Stockham.store_lds_generator.
    assert (Forall (λ w, 0 <= w < width) (seqZ 0 width)) as Hws.
    { apply Forall_forall. intros w Hw%elem_of_seqZ. lia. }
    induction (seqZ 0 width) as [|w ws IH]; [done|].
    apply Forall_cons in Hws as [Hw Hws].
    cbn [flat_map]. rewrite omap_app, fmap_app, IH by done. rewrite fmap_cons.
    assert (∀ a b : Z, ∀ l, a = b → [a] ++ l = b :: l) as Hhead by (by intros a b l ->).
    destruct component;
      [rewrite (omap_singleton _ _ _ (lds_store_index_complex _ _))
      |rewrite (omap_singleton _ _ _ (lds_store_index_real _ _))..];
      apply Hhead; cbn; unfold Stockham.store_cell; fold tpt;
      rewrite !u32_small by (unfold is_u32; nia); ring.
  - intros tid tid' w w' Hw Hw'. by apply store_cell_injective.
  - intros tid w Hdiv Htid Hw. by apply store_cell_range.
Qed.

(** The stores of the X components in the second pass of the kernel of length
    8, of width 2 and cumulative height 4. *)
Lemma store_lds_generator_cells_witness :
  (∀ env : string → Z,
     Stockham.eval env
       <$> omap Stockham.lds_store_index
             (Stockham.store_lds_generator Stockham.kernel_8 Stockham.Component_X 4 0 0 2 0)
     = (λ w, env "offset_lds"
             + Stockham.store_cell 4 2
                 (env "thread" + 0
                  + 0 * Stockham.threads_per_transform (Stockham.specs Stockham.kernel_8)) w
               * env "lstride")
         <$> seqZ 0 2) ∧
  (∀ tid tid' w w', 0 <= w < 2 → 0 <= w' < 2 →
     Stockham.store_cell 4 2 tid w = Stockham.store_cell 4 2 tid' w' →
     tid = tid' ∧ w = w') ∧
  (∀ tid w, Z.divide (4 * 2) (Stockham.length_ (Stockham.specs Stockham.kernel_8)) →
     0 <= tid < Stockham.length_ (Stockham.specs Stockham.kernel_8) / 2 →
     0 <= w < 2 →
     0 <= Stockham.store_cell 4 2 tid w < Stockham.length_ (Stockham.specs Stockham.kernel_8)).
Proof.
  apply (store_lds_generator_cells Stockham.kernel_8 Stockham.Component_X 4 0 0 2 0);
    simpl; lia.
Defined.

(** With four threads, the second pass of the kernel of length 8 stores the
    elements of its four butterflies to the eight cells of the transform. *)
Example store_cell_8 :
  (tid ← seqZ 0 4; w ← seqZ 0 2; [Stockham.store_cell 4 2 tid w])
  = [0; 4; 1; 5; 2; 6; 3; 7].
Proof. reflexivity. Qed.

(** X15. The loads of [load_lds_generator]: the element [w] of the butterfly
    with the work index [tid = thread + dt + h * threads_per_transform] is
    loaded from the cell [tid + w * length / width] of the transform in the
    LDS.  For the work indices below [length / width], two elements are loaded
    from the same cell only when they are the same element of the same
    butterfly, and the cells lie within the [length] elements of the
    transform. *)
Theorem load_lds_generator_cells (kernel : Stockham.StockhamKernel)
    (component : Stockham.Component) (h hr width dt : Z) :
  let tpt := Stockham.threads_per_transform (Stockham.specs kernel) in
  let length := Stockham.length_ (Stockham.specs kernel) in
  1 <= width → 0 <= length → width * length < 2 ^ 32 → 0 <= h * tpt < 2 ^ 32 →
  (∀ env : string → Z,
     Stockham.eval env
       <$> omap Stockham.lds_load_index
             (Stockham.load_lds_generator kernel component h hr width dt)
     = (λ w, env "offset_lds"
             + Stockham.load_cell length width (env "thread" + dt + h * tpt) w
               * env "lstride")
         <$> seqZ 0 width) ∧
  (∀ tid tid' w w', 0 <= tid < length / width → 0 <= tid' < length / width →
     0 <= w < width → 0 <= w' < width →
     Stockham.load_cell length width tid w = Stockham.load_cell length width tid' w' →
     tid = tid' ∧ w = w') ∧
  (∀ tid w, 0 <= tid < length / width → 0 <= w < width →
     0 <= Stockham.load_cell length width tid w < length).
Proof.
  intros tpt length Hwidth Hlength Hfit Hh. split_and!.
  - intros env. unfold Stockham.load_lds_generator.
    assert (Forall (λ w, 0 <= w < width) (seqZ 0 width)) as Hws.
    { apply Forall_forall. intros w Hw%elem_of_seqZ. lia. }
    induction (seqZ 0 width) as [|w ws IH]; [done|].
    apply Forall_cons in Hws as [Hw Hws].
    cbn [flat_map]. rewrite omap_app, fmap_app, IH by done. rewrite fmap_cons.
    assert (∀ a b : Z, ∀ l, a = b → [a] ++ l = b :: l) as Hhead by (by intros a b l ->).
    destruct component;
      [rewrite (omap_singleton _ _ _ (lds_load_index_complex _ _))
      |rewrite (omap_singleton _ _ _ (lds_load_index_real _ _))..];
      apply Hhead; cbn; unfold Stockham.load_cell; fold tpt; fold length;
      rewrite !u32_small by (unfold is_u32; nia); ring.
  - intros tid tid' w w' Htid Htid' Hw Hw'. by apply load_cell_injective.
  - intros tid w Htid Hw. by apply load_cell_range.
Qed.

(** The loads of the second pass of the kernel of length 8. *)
Lemma load_lds_generator_cells_witness :
  (∀ env : string → Z,
     Stockham.eval env
       <$> omap Stockham.lds_load_index
             (Stockham.load_lds_generator Stockham.kernel_8 Stockham.Component_NONE 1 0 2 0)
     = (λ w, env "offset_lds"
             + Stockham.load_cell (Stockham.length_ (Stockham.specs Stockham.kernel_8)) 2
                 (env "thread" + 0
                  + 1 * Stockham.threads_per_transform (Stockham.specs Stockham.kernel_8)) w
               * env "lstride")
         <$> seqZ 0 2) ∧
  (∀ tid tid' w w',
     0 <= tid < Stockham.length_ (Stockham.specs Stockham.kernel_8) / 2 →
     0 <= tid' < Stockham.length_ (Stockham.specs Stockham.kernel_8) / 2 →
     0 <= w < 2 → 0 <= w' < 2 →
     Stockham.load_cell (Stockham.length_ (Stockham.specs Stockham.kernel_8)) 2 tid w
     = Stockham.load_cell (Stockham.length_ (Stockham.specs Stockham.kernel_8)) 2 tid' w' →
     tid = tid' ∧ w = w') ∧
  (∀ tid w, 0 <= tid < Stockham.length_ (Stockham.specs Stockham.kernel_8) / 2 →
     0 <= w < 2 →
     0 <= Stockham.load_cell (Stockham.length_ (Stockham.specs Stockham.kernel_8)) 2 tid w
     < Stockham.length_ (Stockham.specs Stockham.kernel_8)).
Proof.
  apply (load_lds_generator_cells Stockham.kernel_8 Stockham.Component_NONE 1 0 2 0);
    simpl; lia.
Defined.

Example load_cell_8 :
  (tid ← seqZ 0 4; w ← seqZ 0 2; [Stockham.load_cell 8 2 tid w])
  = [0; 4; 1; 5; 2; 6; 3; 7].
Proof. reflexivity. Qed.

(** *** The barriers when the LDS holds complex elements *)

Section SyncFacts.
Import Stockham.

Lemma lds_sync_ok_invariant (tr : list lds_event) :
  ∀ last, is_Some (lds_sync_ok last tr) → lds_sync_invariant last tr.
Proof.
  induction tr as [|e tr IH]; intros last Hok.
  - split_and!.
    + intros i j a b _ Ha. by rewrite lookup_nil in Ha.
    + intros i j a b _ Ha. by rewrite lookup_nil in Ha.
    + intros _ j c Hj. by rewrite lookup_nil in Hj.
    + intros j c Hj. by rewrite lookup_nil in Hj.
  - assert (∃ last', is_Some (lds_sync_ok last' tr) ∧
              (e = Barrier → last' = NoAccess) ∧
              (is_store e → last' = Stored ∧ last ≠ Loaded) ∧
              (is_load e → last' = Loaded ∧ last ≠ Stored) ∧
              (e = NoEvent → last' = last)) as (last' & Hok' & Hbar & Hst & Hld & Hno).
    { destruct e as [|c|c|]; simpl in Hok.
      - exists NoAccess. split_and!; [done|done|by intros [? ?]|by intros [? ?]|done].
      - destruct last; [|by destruct Hok|];
          (exists Stored; split_and!; [done|done|done|by intros [? ?]|done]).
      - destruct last; [| |by destruct Hok];
          (exists Loaded; split_and!; [done|done|by intros [? ?]|done|done]).
      - exists last. split_and!; [done|done|by intros [? ?]|by intros [? ?]|done]. }
    destruct (IH last' Hok') as (Hsl & Hls & Hstore & Hload).
    split_and!.
    + intros i j a b Hij Ha Hb Hsa Hlb. destruct j as [|j]; [lia|]. simpl in Hb.
      destruct i as [|i]; simpl in Ha.
      * injection Ha as ->. destruct (Hst Hsa) as [-> _]. destruct Hlb as [c ->].
        destruct (Hload j c Hb) as [(k & Hk & Hkbar & _)|[? _]]; [|done].
        exists (S k). split; [lia|done].
      * destruct (Hsl i j a b ltac:(lia) Ha Hb Hsa Hlb) as (k & Hk & Hkbar).
        exists (S k). split; [lia|done].
    + intros i j a b Hij Ha Hb Hla Hsb. destruct j as [|j]; [lia|]. simpl in Hb.
      destruct i as [|i]; simpl in Ha.
      * injection Ha as ->. destruct (Hld Hla) as [-> _]. destruct Hsb as [c ->].
        destruct (Hstore eq_refl j c Hb) as (k & Hk & Hkbar).
        exists (S k). split; [lia|done].
      * destruct (Hls i j a b ltac:(lia) Ha Hb Hla Hsb) as (k & Hk & Hkbar).
        exists (S k). split; [lia|done].
    + intros -> j c Hj. destruct j as [|j]; simpl in Hj.
      * injection Hj as ->. by destruct (Hst ltac:(by eexists)) as [_ ?].
      * destruct e as [|c'|c'|].
        -- exists 0%nat. split; [lia|done].
        -- by destruct (Hst ltac:(by eexists)) as [_ ?].
        -- destruct (Hld ltac:(by eexists)) as [-> _].
           destruct (Hstore eq_refl j c Hj) as (k & Hk & Hkbar).
           exists (S k). split; [lia|done].
        -- rewrite (Hno eq_refl) in Hstore.
           destruct (Hstore eq_refl j c Hj) as (k & Hk & Hkbar).
           exists (S k). split; [lia|done].
    + intros j c Hj. destruct j as [|j]; simpl in Hj.
      * injection Hj as ->. right. destruct (Hld ltac:(by eexists)) as [_ ?].
        split; [done|]. intros i c' Hi. lia.
      * destruct (Hload j c Hj) as [(k & Hk & Hkbar & Hnone)|[Hlast' Hnone]].
        -- left. exists (S k). split_and!; [lia|done|].
           intros i c' Hi. destruct i as [|i]; [lia|]. simpl. apply Hnone. lia.
        -- destruct e as [|c'|c'|].
           ++ left. exists 0%nat. split_and!; [lia|done|].
              intros i c' Hi. destruct i as [|i]; [lia|]. simpl. apply Hnone. lia.
           ++ by destruct (Hst ltac:(by eexists)) as [-> _].
           ++ right. destruct (Hld ltac:(by eexists)) as [_ ?]. split; [done|].
              intros i c'' Hi. destruct i as [|i]; [done|]. simpl. apply Hnone. lia.
           ++ right. rewrite (Hno eq_refl) in Hlast'. split; [done|].
              intros i c'' Hi. destruct i as [|i]; [done|]. simpl. apply Hnone. lia.
Qed.

(** A trace that passes the check after a store has a barrier between every
    store and every later load, between every load and every later store, and
    before every load. *)
Lemma lds_sync_ok_sound (tr : list lds_event) :
  is_Some (lds_sync_ok Stored tr) →
  separated is_store is_load tr ∧ separated is_load is_store tr ∧ barrier_before_loads tr.
Proof.
  intros (Hsl & Hls & _ & Hload)%lds_sync_ok_invariant. split_and!; [done..|].
  intros j c Hj. destruct (Hload j c Hj) as [H|[? _]]; done.
Qed.

Lemma lds_sync_ok_app (tr1 tr2 : list lds_event) :
  ∀ last,
    lds_sync_ok last (tr1 ++ tr2) =
    match lds_sync_ok last tr1 with
    | Some last' => lds_sync_ok last' tr2
    | None => None
    end.
Proof.
  induction tr1 as [|e tr1 IH]; intros last; simpl; [done|].
  destruct e as [|c|c|]; rewrite ?IH; try done; by destruct last.
Qed.

Lemma lds_sync_ok_quiet (tr : list lds_event) (last : lds_access) :
  Forall (eq NoEvent) tr → lds_sync_ok last tr = Some last.
Proof. induction 1 as [|e tr <- _ IH]; simpl; done. Qed.

Lemma lds_sync_ok_loads (tr : list lds_event) :
  Forall (λ e, e = NoEvent ∨ is_load e) tr →
  ∀ last, last ≠ Stored → ∃ last', last' ≠ Stored ∧ lds_sync_ok last tr = Some last'.
Proof.
  induction 1 as [|e tr [->|[c ->]] _ IH]; intros last Hlast; simpl.
  - by exists last.
  - by apply IH.
  - destruct last; [|  |done]; by apply IH.
Qed.

Lemma lds_sync_ok_stores (tr : list lds_event) :
  Forall (λ e, e = NoEvent ∨ is_store e) tr →
  ∀ last, last ≠ Loaded → ∃ last', last' ≠ Loaded ∧ lds_sync_ok last tr = Some last'.
Proof.
  induction 1 as [|e tr [->|[c ->]] _ IH]; intros last Hlast; simpl.
  - by exists last.
  - by apply IH.
  - destruct last; [|done|]; by apply IH.
Qed.

End SyncFacts.

Section FullLdsBarriers.
Import Stockham.

Context (tiling : Tiling) (kernel : StockhamKernel) (float_to_string : spec_float → string).

Let ev (prev : option bool) (l : StatementList) : list lds_event :=
  map lds_event_of (trace (LdsIsReal false) true prev l).

Hypothesis large_twiddles_quiet :
  ∀ w c prev, Forall (eq NoEvent) (ev prev (large_twiddles_multiply tiling w c)).

Lemma ev_app (l1 l2 : StatementList) (prev : option bool) :
  ∃ prev', ev prev (l1 ++ l2) = ev prev l1 ++ ev prev' l2.
Proof.
  unfold ev. destruct (trace_app_ex (LdsIsReal false) true l1 l2 prev) as [prev' ->].
  exists prev'. by rewrite map_app.
Qed.

(** The events of a pass pass the check, whatever came before. *)
Lemma generate_pass_sync_ok (npass : nat) (prev : option bool) (last : lds_access) :
  ∃ last', last' ≠ Loaded ∧
    lds_sync_ok last (ev prev (generate_pass tiling kernel float_to_string npass))
    = Some last'.
Proof.
  unfold generate_pass.
  set (width := default 0 (factors (specs kernel) !! npass)).
  set (cumheight := product (take npass (factors (specs kernel)))).
  set (twiddle := if (0 <? npass)%nat then _ else []).
  set (butterfly := add_work kernel butterfly_generator width _ false).
  set (load := add_work kernel (load_lds_generator kernel Component_NONE) width _ false).
  set (large := if (npass =? _)%nat then _ else []).
  set (stores := add_work kernel (store_lds_generator kernel Component_NONE cumheight)
                   width _ true).
  set (store_half := if (npass <? _)%nat then _ else []).
  set (comment := CommentLines _).
  assert (Forall (λ e, e = NoEvent ∨ is_load e) (ev None load)) as Hload.
  { apply add_work_events; [by left|]. intros h hr w dt.
    eapply Forall_impl; [apply load_lds_generator_events|].
    intros s [? H]. split; [done|]. intros c. right. exists Component_NONE. apply H. }
  assert (∀ p, Forall (eq NoEvent) (ev p twiddle)) as Htw.
  { intros p. subst twiddle. destruct (0 <? npass)%nat; [|constructor].
    apply add_work_events; [done|]. intros h hr w dt.
    eapply Forall_impl; [apply apply_twiddle_generator_events|].
    intros s [? H]. split; [done|]. intros c. by rewrite H. }
  assert (∀ p, Forall (eq NoEvent) (ev p butterfly)) as Hbf.
  { intros p. apply add_work_events; [done|]. intros h hr w dt.
    eapply Forall_impl; [apply butterfly_generator_events|].
    intros s [? H]. split; [done|]. intros c. by rewrite H. }
  assert (∀ p, Forall (eq NoEvent) (ev p large)) as Hlarge.
  { intros p. subst large. destruct (_ =? _)%nat; [apply large_twiddles_quiet|constructor]. }
  assert (Forall (λ e, e = NoEvent ∨ is_store e) (ev None stores)) as Hstores.
  { apply add_work_events; [by left|]. intros h hr w dt.
    eapply Forall_impl; [apply store_lds_generator_events|].
    intros s [? H]. split; [done|]. intros c. right. exists Component_NONE. apply H. }
  destruct (ev_app [LineBreak; comment; SyncThreads; If (Not lds_is_real) load]
              (twiddle ++ butterfly ++ large
               ++ [If (Not lds_is_real) (SyncThreads :: stores); Else store_half]) prev)
    as [p1 ->].
  destruct (ev_app twiddle
              (butterfly ++ large
               ++ [If (Not lds_is_real) (SyncThreads :: stores); Else store_half]) p1)
    as [p2 ->].
  destruct (ev_app butterfly
              (large ++ [If (Not lds_is_real) (SyncThreads :: stores); Else store_half]) p2)
    as [p3 ->].
  destruct (ev_app large
              [If (Not lds_is_real) (SyncThreads :: stores); Else store_half] p3)
    as [p4 ->].
  assert (ev prev [LineBreak; comment; SyncThreads; If (Not lds_is_real) load]
          = NoEvent :: NoEvent :: Barrier :: ev None load) as ->.
  { unfold ev. cbn [trace]. rewrite trace_stmt_If.
    change (decided (LdsIsReal false) (Not lds_is_real)) with (Some true).
    cbn [trace_stmt app map lds_event_of andb].
    change (bool_decide (Some true = Some true)) with true.
    by rewrite app_nil_r. }
  assert (ev p4 [If (Not lds_is_real) (SyncThreads :: stores); Else store_half]
          = Barrier :: ev None stores) as ->.
  { unfold ev. cbn [trace]. rewrite trace_stmt_If, trace_stmt_Else.
    change (decided (LdsIsReal false) (Not lds_is_real)) with (Some true).
    cbn [decision_of].
    change (decided (LdsIsReal false) (Not lds_is_real)) with (Some true).
    cbn [andb]. change (bool_decide (Some true = Some true)) with true.
    cbn [trace trace_stmt decision_of app map lds_event_of].
    by rewrite !app_nil_r. }
  cbn [app lds_sync_ok]. rewrite lds_sync_ok_app.
  destruct (lds_sync_ok_loads _ Hload NoAccess ltac:(done)) as (l1 & Hl1 & ->).
  rewrite lds_sync_ok_app, (lds_sync_ok_quiet _ _ (Htw p1)).
  rewrite lds_sync_ok_app, (lds_sync_ok_quiet _ _ (Hbf p2)).
  rewrite lds_sync_ok_app, (lds_sync_ok_quiet _ _ (Hlarge p3)).
  cbn [lds_sync_ok].
  apply (lds_sync_ok_stores _ Hstores NoAccess). done.
Qed.

Lemma passes_sync_ok (passes : list nat) :
  ∀ prev last, last ≠ Loaded →
    ∃ last', last' ≠ Loaded ∧
      lds_sync_ok last
        (ev prev (flat_map (generate_pass tiling kernel float_to_string) passes))
      = Some last'.
Proof.
  induction passes as [|npass passes IH]; intros prev last Hlast.
  - by exists last.
  - cbn [flat_map].
    destruct (ev_app (generate_pass tiling kernel float_to_string npass)
                (flat_map (generate_pass tiling kernel float_to_string) passes) prev)
      as [prev' ->].
    rewrite lds_sync_ok_app.
    destruct (generate_pass_sync_ok npass prev last) as (l1 & Hl1 & ->).
    by apply IH.
Qed.

Lemma device_function_sync_ok :
  is_Some (lds_sync_ok Stored
             (lds_events false (f_body (generate_device_function tiling kernel
                                          float_to_string)))).
Proof.
  unfold lds_events, generate_device_function. cbn [f_body].
  destruct (_ =? 1); [by eexists|].
  fold (ev None (device_prologue kernel
                 ++ flat_map (generate_pass tiling kernel float_to_string)
                      (seq 0 (List.length (factors (specs kernel)))))).
  destruct (ev_app (device_prologue kernel)
              (flat_map (generate_pass tiling kernel float_to_string)
                 (seq 0 (List.length (factors (specs kernel))))) None) as [prev ->].
  rewrite lds_sync_ok_app.
  rewrite (lds_sync_ok_quiet (ev None (device_prologue kernel))) by (by repeat constructor).
  destruct (passes_sync_ok (seq 0 (List.length (factors (specs kernel)))) prev Stored)
    as (last & _ & ->); [done|]. by eexists.
Qed.

End FullLdsBarriers.

(** X19. When [lds_is_real] is not set, the statements of the whole device
    function have a barrier that every thread executes between each store to
    the LDS and each later load, between each load and each later store, and
    before each load with no store in between, provided the statements that
    the tiling adds for the large twiddles do not access the LDS. *)
Theorem full_lds_barriers (tiling : Stockham.Tiling) (kernel : Stockham.StockhamKernel)
    (float_to_string : spec_float → string) :
  (∀ w c prev,
     Forall (eq Stockham.NoEvent)
       (map Stockham.lds_event_of
          (Stockham.trace (Stockham.LdsIsReal false) true prev
             (Stockham.large_twiddles_multiply tiling w c)))) →
  let tr :=
    Stockham.lds_events false
      (Stockham.f_body (Stockham.generate_device_function tiling kernel float_to_string)) in
  Stockham.separated Stockham.is_store Stockham.is_load tr ∧
  Stockham.separated Stockham.is_load Stockham.is_store tr ∧
  Stockham.barrier_before_loads tr.
Proof.
  intros Hlarge tr. apply lds_sync_ok_sound.
  by apply device_function_sync_ok.
Qed.

Lemma full_lds_barriers_witness :
  let tr :=
    Stockham.lds_events false
      (Stockham.f_body
         (Stockham.generate_device_function (Stockham.base_tiling "sbrr") Stockham.kernel_8
            (λ _, "2"))) in
  Stockham.separated Stockham.is_store Stockham.is_load tr ∧
  Stockham.separated Stockham.is_load Stockham.is_store tr ∧
  Stockham.barrier_before_loads tr.
Proof.
  apply (full_lds_barriers (Stockham.base_tiling "sbrr") Stockham.kernel_8 (λ _, "2")).
  intros w c prev. simpl. constructor.
Defined.

(** The kernel of length 8: each of its two passes loads the four registers of
    a thread after a barrier and stores them after another one. *)
Example lds_events_full_kernel_8 :
  filter (λ e, e ≠ Stockham.NoEvent)
    (Stockham.lds_events false
       (Stockham.f_body
          (Stockham.generate_device_function (Stockham.base_tiling "sbrr") Stockham.kernel_8
             (λ _, "2"))))
  = [Stockham.Barrier] ++ replicate 4 (Stockham.Load Stockham.Component_NONE)
    ++ [Stockham.Barrier] ++ replicate 4 (Stockham.Store Stockham.Component_NONE)
    ++ [Stockham.Barrier] ++ replicate 4 (Stockham.Load Stockham.Component_NONE)
    ++ [Stockham.Barrier] ++ replicate 4 (Stockham.Store Stockham.Component_NONE).
Proof. by vm_compute. Qed.
